(** * Storage adapter (src/db.ts) and optimistic coordinator
      (src/hooks/useOptimisticUpdate.ts) of indexed-db-react-demo

    The adapter wraps IndexedDB requests in promises; the coordinator keeps a
    JavaScript [Map] of pending operations in React state.  Both are embedded
    here as executable functions.

    Conventions of the embedding:
    - a JavaScript number is an integer [Z] (identifiers and the key generator
      are integers; NaN and fractions are outside the model);
    - a stored record is a plain data object, a finite map from property
      names to primitive values; a [Date] field is carried as its time value;
    - the browser's engine is not code of the repository: its behaviour
      (key extraction, key generator, unique indices, error events, abort
      on an unhandled error) follows the Indexed Database API standard and
      lives in [Module IDB];
    - an engine failure that is not determined by the stored data (quota,
      I/O) is an input: a [faults] oracle says which request of a transaction
      fails and with which exception.  Failures reach the handlers as error
      events; a transaction that aborts without one (a commit that fails) has
      no observer in db.ts and is not part of the model;
    - operations run one after the other: a call is a function from the
      database (and, for the hook, the pending map) before it to the outcome
      and the state after it. *)

From Stdlib Require Import ZArith String List.
From stdpp Require Import base option list strings gmap fin_maps sorting pretty.

Local Open Scope string_scope.
Local Open Scope Z_scope.

(** ** JavaScript values and plain objects *)

Inductive jsval : Type :=
| JUndefined
| JNull
| JBool (b : bool)
| JNum (n : Z)
| JStr (s : string).

#[global] Instance jsval_eq_dec : EqDecision jsval.
Proof. solve_decision. Defined.

(** [a === b] on primitives. *)
Definition strict_eq (a b : jsval) : bool := bool_decide (a = b).

(** Truthiness, as tested by [if (x)] and [!x]. *)
Definition truthy (v : jsval) : bool :=
  match v with
  | JUndefined | JNull => false
  | JBool b => b
  | JNum n => negb (n =? 0)
  | JStr s => negb (String.eqb s "")
  end.

(** A plain object: own enumerable properties only. *)
Abbreviation record := (gmap string jsval).

(** [obj[key]]: a missing property reads as [undefined]. *)
Definition prop (obj : record) (key : string) : jsval :=
  default JUndefined (obj !! key).

(** [Object.hasOwn(obj, key)]. *)
Definition hasOwn (obj : record) (key : string) : bool :=
  bool_decide (is_Some (obj !! key)).

(** [{...a, ...b}]: the properties of [b] win. *)
Definition spread (a b : record) : record := b ∪ a.

(** ** The merge loop of [update] (db.ts, lines 311-316)

    [for (const key in newData) if (Object.hasOwn(retrievedData, key))
       retrievedData[key] = newData[key];] *)
Definition apply_updates (newData retrievedData : record) : record :=
  map_fold
    (fun key val acc => if hasOwn acc key then <[key := val]> acc else acc)
    retrievedData newData.

(** ** The storage engine (Indexed Database API), as far as the adapter uses it *)

Module IDB.

(** Exceptions carry a name and a message, the two fields [formatDBError]
    reads. *)
Record DOMException : Type := { name : string; message : string }.

Definition ConstraintError : DOMException :=
  {| name := "ConstraintError"; message := "Key already exists in the object store or index" |}.
Definition DataError : DOMException :=
  {| name := "DataError"; message := "The data provided does not meet requirements" |}.
Definition NotFoundError : DOMException :=
  {| name := "NotFoundError"; message := "One of the specified object stores was not found" |}.
Definition VersionError : DOMException :=
  {| name := "VersionError"; message := "The requested version is less than the existing version" |}.
Definition TypeError : DOMException :=
  {| name := "TypeError"; message := "Value is outside of range" |}.

(** Valid keys: numbers and strings (dates, binary keys and array keys do not
    occur as primary keys of the three stores). *)
Inductive idbkey : Type :=
| KNum (n : Z)
| KStr (s : string).

#[global] Instance idbkey_eq_dec : EqDecision idbkey.
Proof. solve_decision. Defined.

#[global] Instance idbkey_countable : Countable idbkey.
Proof.
  refine (inj_countable'
    (fun k => match k with KNum n => inl n | KStr s => inr s end)
    (fun x => match x with inl n => KNum n | inr s => KStr s end) _).
  intros []; reflexivity.
Defined.

Definition key_to_js (k : idbkey) : jsval :=
  match k with KNum n => JNum n | KStr s => JStr s end.

(** Key order of the standard: every number sorts before every string. *)
Definition key_le (a b : idbkey) : Prop :=
  match a, b with
  | KNum x, KNum y => x ≤ y
  | KNum _, KStr _ => True
  | KStr _, KNum _ => False
  | KStr x, KStr y => String.leb x y = true
  end.

#[global] Instance key_le_dec : RelDecision key_le.
Proof. intros [x|x] [y|y]; simpl; apply _. Defined.

(** Evaluating a key path on a value: a missing or [undefined] property gives
    no key, a number or a string gives a key, anything else is not a valid
    key. *)
Inductive key_eval : Type :=
| NoKey
| ValidKey (k : idbkey)
| InvalidKey.

Definition evaluate_key_path (keyPath : string) (value : record) : key_eval :=
  match value !! keyPath with
  | None | Some JUndefined => NoKey
  | Some (JNum n) => ValidKey (KNum n)
  | Some (JStr s) => ValidKey (KStr s)
  | Some JNull | Some (JBool _) => InvalidKey
  end.

(** An index: [createIndex(indexName, keyPath, { unique })].  A single-string
    key path is the one-element list. *)
Record IDBIndex : Type :=
  { indexName : string; indexKeyPath : list string; unique : bool }.

Record IDBObjectStore : Type :=
  { keyPath : string;
    autoIncrement : bool;
    indexes : list IDBIndex;
    currentNumber : Z;               (* the key generator *)
    records : gmap idbkey record }.

Record IDBDatabase : Type :=
  { version : Z;
    objectStores : gmap string IDBObjectStore }.

(** The key of a record in an index; [None] when some component is missing or
    not a valid key, in which case the record is not indexed. *)
Definition index_key (ix : IDBIndex) (value : record) : option (list idbkey) :=
  mapM (fun p => match evaluate_key_path p value with
                 | ValidKey k => Some k
                 | _ => None
                 end) (indexKeyPath ix).

(** A unique index refuses [value] under [key] when another record already
    has the same index key. *)
Definition index_conflict (ix : IDBIndex) (key : idbkey) (value : record)
    (recs : gmap idbkey record) : bool :=
  unique ix &&
  match index_key ix value with
  | None => false
  | Some ik =>
      bool_decide (map_Exists (fun k' r' => k' ≠ key ∧ index_key ix r' = Some ik) recs)
  end.

(** What issuing a request gives: a synchronous exception, an error event, or
    a success event with the request's result and the store as the request
    leaves it. *)
Inductive request_result (A : Type) : Type :=
| Thrown (e : DOMException)
| Failed (e : DOMException)
| Succeeded (result : A) (st : IDBObjectStore).
Arguments Thrown {A} e.
Arguments Failed {A} e.
Arguments Succeeded {A} result st.

Definition max_generated : Z := 2 ^ 53.

(** "Possibly update the key generator": an explicit numeric key at or above
    the current number moves the generator past it. *)
Definition possibly_update_key_generator (st : IDBObjectStore) (key : idbkey) : Z :=
  match key with
  | KNum n =>
      let v := Z.min n max_generated in
      if currentNumber st <=? v then v + 1 else currentNumber st
  | KStr _ => currentNumber st
  end.

Definition with_records (st : IDBObjectStore) (cur : Z)
    (recs : gmap idbkey record) : IDBObjectStore :=
  {| keyPath := keyPath st; autoIncrement := autoIncrement st;
     indexes := indexes st; currentNumber := cur; records := recs |}.

(** "Store a record into an object store", once the key is known. *)
Definition store_a_record (no_overwrite : bool) (st : IDBObjectStore) (cur : Z)
    (key : idbkey) (value : record) : request_result idbkey :=
  if no_overwrite && bool_decide (is_Some (records st !! key)) then
    Failed ConstraintError
  else if existsb (fun ix => index_conflict ix key value (records st)) (indexes st) then
    Failed ConstraintError
  else
    Succeeded key (with_records st cur (<[key := value]> (records st))).

(** [store.add(value)] ([no_overwrite = true]) and [store.put(value)] on a
    store with in-line keys.  An invalid in-line key throws at the call; a
    missing one is generated and injected into the stored clone. *)
Definition add_or_put (no_overwrite : bool) (fault : option DOMException)
    (st : IDBObjectStore) (value : record) : request_result idbkey :=
  match evaluate_key_path (keyPath st) value with
  | InvalidKey => Thrown DataError
  | NoKey =>
      if autoIncrement st then
        match fault with
        | Some e => Failed e
        | None =>
            if max_generated <? currentNumber st then Failed ConstraintError
            else store_a_record no_overwrite st (currentNumber st + 1)
                   (KNum (currentNumber st))
                   (<[keyPath st := JNum (currentNumber st)]> value)
        end
      else Thrown DataError
  | ValidKey key =>
      match fault with
      | Some e => Failed e
      | None =>
          store_a_record no_overwrite st
            (if autoIncrement st then possibly_update_key_generator st key
             else currentNumber st)
            key value
      end
  end.

Definition store_add := add_or_put true.
Definition store_put := add_or_put false.

(** [store.get(key)]: the result is the record, or [undefined]. *)
Definition store_get (fault : option DOMException) (st : IDBObjectStore) (key : idbkey)
    : request_result (option record) :=
  match fault with
  | Some e => Failed e
  | None => Succeeded (records st !! key) st
  end.

(** [store.delete(key)] succeeds whether or not the key is present. *)
Definition store_delete (fault : option DOMException) (st : IDBObjectStore) (key : idbkey)
    : request_result unit :=
  match fault with
  | Some e => Failed e
  | None => Succeeded tt (with_records st (currentNumber st) (delete key (records st)))
  end.

(** [store.clear()] removes the records and keeps the key generator. *)
Definition store_clear (fault : option DOMException) (st : IDBObjectStore)
    : request_result unit :=
  match fault with
  | Some e => Failed e
  | None => Succeeded tt (with_records st (currentNumber st) ∅)
  end.

(** The records a cursor opened with [store.openCursor()] visits: ascending
    key order. *)
Definition entry_le (a b : idbkey * record) : Prop := key_le a.1 b.1.

#[global] Instance entry_le_dec : RelDecision entry_le.
Proof. intros a b. unfold entry_le. apply _. Defined.

Definition cursor_entries (st : IDBObjectStore) : list (idbkey * record) :=
  merge_sort entry_le (map_to_list (records st)).

(** [db.createObjectStore(name, { keyPath, autoIncrement })] and
    [store.createIndex(...)] inside a version change. *)
Definition createObjectStore (keyPath : string) (autoIncrement : bool) : IDBObjectStore :=
  {| keyPath := keyPath; autoIncrement := autoIncrement; indexes := [];
     currentNumber := 1; records := ∅ |}.

Definition createIndex (indexName : string) (path : list string) (unique : bool)
    (st : IDBObjectStore) : IDBObjectStore :=
  {| keyPath := keyPath st; autoIncrement := autoIncrement st;
     indexes := indexes st ++ [ {| indexName := indexName; indexKeyPath := path; unique := unique |} ];
     currentNumber := currentNumber st; records := records st |}.

(** Which request of a transaction the engine fails on its own, and how. *)
Definition faults : Type := nat → option DOMException.
Definition no_faults : faults := fun _ => None.

(** What the request of [store.openCursor()] reports, one step per success
    or error event, when the handler calls [cursor.continue()] at every
    record: the records in key order and then a [null] cursor, cut short by
    the first failing step. *)
Inductive cursor_step : Type :=
| CursorAt (value : record)
| CursorNull
| CursorError (e : DOMException).

Fixpoint openCursor (io : faults) (n : nat) (entries : list (idbkey * record))
    : list cursor_step :=
  match entries with
  | [] => [match io n with Some e => CursorError e | None => CursorNull end]
  | (_, value) :: rest =>
      match io n with
      | Some e => [CursorError e]
      | None => CursorAt value :: openCursor io (S n) rest
      end
  end.

(** [db.objectStoreNames.contains(name)], [db.transaction([name], mode)
    .objectStore(name)] (a missing store throws NotFoundError) and the effect
    of a transaction that completes. *)
Definition contains (db : IDBDatabase) (storeName : string) : bool :=
  bool_decide (is_Some (objectStores db !! storeName)).

Definition transaction (db : IDBDatabase) (storeName : string) : option IDBObjectStore :=
  objectStores db !! storeName.

Definition commit (db : IDBDatabase) (storeName : string) (st : IDBObjectStore)
    : IDBDatabase :=
  {| version := version db;
     objectStores := <[storeName := st]> (objectStores db) |}.

(** Events the engine delivers to the handlers of one operation. *)
Inductive idb_event : Type :=
| EvUpgradeNeeded
| EvSuccess
| EvError (e : DOMException)
| EvComplete
| EvAbort.

End IDB.

Import IDB.

(** ** Promises

    A promise settles once: a later [resolve] is ignored.  Next to its value
    the state keeps what the handlers wrote with [console.error] and the
    events that were delivered. *)

Record promise (R : Type) : Type :=
  { settled : option R; console : list string; events : list idb_event }.
Arguments settled {R} p.
Arguments console {R} p.
Arguments events {R} p.

Definition pending {R : Type} : promise R :=
  {| settled := None; console := []; events := [] |}.

Definition resolve {R : Type} (v : R) (p : promise R) : promise R :=
  match settled p with
  | Some _ => p
  | None => {| settled := Some v; console := console p; events := events p |}
  end.

Definition console_error {R : Type} (msg : string) (p : promise R) : promise R :=
  {| settled := settled p; console := console p ++ [msg]; events := events p |}.

Definition deliver {R : Type} (ev : idb_event) (p : promise R) : promise R :=
  {| settled := settled p; console := console p; events := events p ++ [ev] |}.

(** How an [async] function ends for its caller. *)
Inductive outcome (R : Type) : Type :=
| Resolved (v : R)
| Rejected (e : DOMException)
| Hung.
Arguments Resolved {R} v.
Arguments Rejected {R} e.
Arguments Hung {R}.

(** One finished call: its outcome, the database it leaves, the console and
    the delivered events. *)
Record run (R : Type) : Type :=
  { result : outcome R;
    database : IDBDatabase;
    output : list string;
    delivered : list idb_event }.
Arguments result {R} r.
Arguments database {R} r.
Arguments output {R} r.
Arguments delivered {R} r.

Definition finish {R : Type} (db : IDBDatabase) (p : promise R) : run R :=
  {| result := match settled p with Some v => Resolved v | None => Hung end;
     database := db; output := console p; delivered := events p |}.

(** A synchronous exception inside the promise executor rejects the promise. *)
Definition threw {R : Type} (e : DOMException) (db : IDBDatabase) : run R :=
  {| result := Rejected e; database := db; output := []; delivered := [] |}.

(** Event dispatch.  A success event runs the request's [onsuccess].  An error
    event is fired at the request, bubbles to the transaction and to the
    database; no handler calls [preventDefault], so the transaction then
    aborts.  While the event bubbles [transaction.error] is still [null]. *)
Definition success_event {R : Type} (onsuccess : promise R → promise R)
    (p : promise R) : promise R :=
  onsuccess (deliver EvSuccess p).

Definition error_event {R : Type} (e : DOMException)
    (request_onerror : option DOMException → promise R → promise R)
    (transaction_onerror : option DOMException → promise R → promise R)
    (database_onerror : DOMException → promise R → promise R)
    (p : promise R) : promise R :=
  deliver EvAbort
    (database_onerror e
       (transaction_onerror None
          (request_onerror (Some e) (deliver (EvError e) p)))).

Definition complete_event {R : Type} (oncomplete : promise R → promise R)
    (p : promise R) : promise R :=
  oncomplete (deliver EvComplete p).

(** ** src/db.ts *)

Module Db.

Definition DATABASE_NAME : string := "projectNameDB".

Inductive StoresTypes : Type := Users | Skills | UserSkills.

#[global] Instance StoresTypes_eq_dec : EqDecision StoresTypes.
Proof. solve_decision. Defined.

Definition Stores (s : StoresTypes) : string :=
  match s with
  | Users => "users"
  | Skills => "skills"
  | UserSkills => "userSkills"
  end.

Definition Keys (s : StoresTypes) : string :=
  match s with
  | Users => "userId"
  | Skills => "skillId"
  | UserSkills => "userSkillId"
  end.

Definition globalDatabaseErrorHandler {R : Type} (error : DOMException)
    (p : promise R) : promise R :=
  console_error
    ("`database._db.onerror` ERROR: " +:+ name error +:+ ": " +:+ message error) p.

Definition formatDBError (error : option DOMException) (operation : string)
    (storeName : option string) : string :=
  let baseMessage :=
    "IndexedDB " +:+ operation +:+ " failed" +:+
    match storeName with
    | Some s => if String.eqb s "" then "" else " on store '" +:+ s +:+ "'"
    | None => ""
    end in
  match error with
  | None => baseMessage
  | Some e => baseMessage +:+ ": " +:+ name e +:+ " - " +:+ message e
  end.

(** The handler every operation installs twice, on the request and on the
    transaction: log, then resolve the failure value. *)
Definition onerror {R : Type} (operation : string) (storeName : StoresTypes)
    (failure : R) (error : option DOMException) (p : promise R) : promise R :=
  resolve failure
    (console_error (formatDBError error operation (Some (Stores storeName))) p).

(** [dbOpenRequest.onupgradeneeded]: create the stores that are missing. *)
Definition add_store (storeName : string) (st : IDBObjectStore)
    (db : IDBDatabase) : IDBDatabase :=
  commit db storeName st.

Definition onupgradeneeded (_db : IDBDatabase) : IDBDatabase :=
  let _db :=
    if contains _db (Stores Users) then _db
    else add_store (Stores Users) (createObjectStore (Keys Users) true) _db in
  let _db :=
    if contains _db (Stores Skills) then _db
    else add_store (Stores Skills) (createObjectStore (Keys Skills) true) _db in
  if contains _db (Stores UserSkills) then _db
  else
    let userSkillsStore := createObjectStore (Keys UserSkills) true in
    let userSkillsStore := createIndex "userId" ["userId"] false userSkillsStore in
    let userSkillsStore := createIndex "skillId" ["skillId"] false userSkillsStore in
    let userSkillsStore :=
      createIndex "userSkill" ["userId"; "skillId"] true userSkillsStore in
    add_store (Stores UserSkills) userSkillsStore _db.

(** [initDB]: [fault] is an error of the open request itself; the requested
    version is [VITE_PROJECT_DATABASE_VERSION || 3]. *)
Definition initDB (fault : option DOMException)
    (VITE_PROJECT_DATABASE_VERSION : option Z) (disk : IDBDatabase) : run bool :=
  let requested :=
    match VITE_PROJECT_DATABASE_VERSION with
    | Some v => if v =? 0 then 3 else v
    | None => 3
    end in
  if requested <? 1 then threw TypeError disk
  else
    match fault with
    | Some e => finish disk (resolve false (deliver (EvError e) pending))
    | None =>
        if requested <? version disk then
          finish disk (resolve false (deliver (EvError VersionError) pending))
        else if version disk <? requested then
          let _db :=
            onupgradeneeded
              {| version := requested; objectStores := objectStores disk |} in
          finish _db (success_event (resolve true) (deliver EvUpgradeNeeded pending))
        else finish disk (success_event (resolve true) pending)
    end.

(** [create]: the id of the created record, or [null]. *)
Definition create (io : faults) (storeName : StoresTypes) (data : record)
    (_db : IDBDatabase) : run (option idbkey) :=
  match transaction _db (Stores storeName) with
  | None => threw NotFoundError _db
  | Some store =>
      match store_add (io 0%nat) store data with
      | Thrown e => threw e _db
      | Failed e =>
          finish _db
            (error_event e (onerror "create" storeName None)
               (onerror "create" storeName None) globalDatabaseErrorHandler pending)
      | Succeeded addedId store' =>
          finish (commit _db (Stores storeName) store')
            (deliver EvComplete (success_event (resolve (Some addedId)) pending))
      end
  end.

(** [get]: the record, or [null] when it is absent or on failure. *)
Definition get (io : faults) (storeName : StoresTypes) (id : Z)
    (_db : IDBDatabase) : run (option record) :=
  match transaction _db (Stores storeName) with
  | None => threw NotFoundError _db
  | Some store =>
      match store_get (io 0%nat) store (KNum id) with
      | Thrown e => threw e _db
      | Failed e =>
          finish _db
            (error_event e (onerror "get" storeName None)
               (onerror "get" storeName None) globalDatabaseErrorHandler pending)
      | Succeeded retrievedData _ =>
          finish _db
            (deliver EvComplete (success_event (resolve retrievedData) pending))
      end
  end.

(** [getAll]: the handler of the cursor request runs once per step and only
    collects; the promise is resolved by [transaction.oncomplete]. *)
Record getAll_state : Type :=
  { allRetrievedData : list record;
    getAll_promise : promise (option (list record)) }.

Definition cursorRequest_onsuccess (cursor : option record) (s : getAll_state)
    : getAll_state :=
  match cursor with
  | Some value =>
      {| allRetrievedData := allRetrievedData s ++ [value];
         getAll_promise := getAll_promise s |}
  | None => s
  end.

Definition getAll_step (storeName : StoresTypes) (s : getAll_state)
    (step : cursor_step) : getAll_state :=
  match step with
  | CursorAt value =>
      cursorRequest_onsuccess (Some value)
        {| allRetrievedData := allRetrievedData s;
           getAll_promise := deliver EvSuccess (getAll_promise s) |}
  | CursorNull =>
      cursorRequest_onsuccess None
        {| allRetrievedData := allRetrievedData s;
           getAll_promise := deliver EvSuccess (getAll_promise s) |}
  | CursorError e =>
      {| allRetrievedData := allRetrievedData s;
         getAll_promise :=
           error_event e (onerror "getAll" storeName None)
             (onerror "getAll" storeName None) globalDatabaseErrorHandler
             (getAll_promise s) |}
  end.

Definition getAll_start : getAll_state :=
  {| allRetrievedData := []; getAll_promise := pending |}.

Definition cursor_failed (steps : list cursor_step) : bool :=
  existsb (fun step => match step with CursorError _ => true | _ => false end) steps.

Definition getAll (io : faults) (storeName : StoresTypes) (_db : IDBDatabase)
    : run (option (list record)) :=
  match transaction _db (Stores storeName) with
  | None => threw NotFoundError _db
  | Some store =>
      let steps := openCursor io 0 (cursor_entries store) in
      let s := fold_left (getAll_step storeName) steps getAll_start in
      if cursor_failed steps then finish _db (getAll_promise s)
      else
        finish _db
          (complete_event (resolve (Some (allRetrievedData s))) (getAll_promise s))
  end.

(** [update]: read, merge, write back in one transaction.  A [put] that
    throws does so inside the success handler of the read: the transaction
    aborts and nothing settles the promise. *)
Definition update (io : faults) (storeName : StoresTypes) (id : Z)
    (newData : record) (createDefault : unit → record) (_db : IDBDatabase)
    : run (option record) :=
  match transaction _db (Stores storeName) with
  | None => threw NotFoundError _db
  | Some store =>
      match store_get (io 0%nat) store (KNum id) with
      | Thrown e => threw e _db
      | Failed e =>
          finish _db
            (error_event e (onerror "update" storeName None)
               (onerror "update" storeName None) globalDatabaseErrorHandler pending)
      | Succeeded result _ =>
          let retrievedData :=
            match result with
            | Some found => found
            | None => createDefault tt
            end in
          let retrievedData := apply_updates newData retrievedData in
          match store_put (io 1%nat) store retrievedData with
          | Thrown e => finish _db (deliver EvAbort (deliver EvSuccess pending))
          | Failed e =>
              finish _db
                (error_event e (onerror "update" storeName None)
                   (onerror "update" storeName None) globalDatabaseErrorHandler
                   (deliver EvSuccess pending))
          | Succeeded _ store' =>
              finish (commit _db (Stores storeName) store')
                (deliver EvComplete
                   (success_event (resolve (Some retrievedData))
                      (deliver EvSuccess pending)))
          end
      end
  end.

(** [remove] and [clearStore]: [true], or [false] on failure. *)
Definition remove (io : faults) (storeName : StoresTypes) (id : Z)
    (_db : IDBDatabase) : run bool :=
  match transaction _db (Stores storeName) with
  | None => threw NotFoundError _db
  | Some store =>
      match store_delete (io 0%nat) store (KNum id) with
      | Thrown e => threw e _db
      | Failed e =>
          finish _db
            (error_event e (onerror "remove" storeName false)
               (onerror "remove" storeName false) globalDatabaseErrorHandler pending)
      | Succeeded _ store' =>
          finish (commit _db (Stores storeName) store')
            (deliver EvComplete (success_event (resolve true) pending))
      end
  end.

Definition clearStore (io : faults) (storeName : StoresTypes) (_db : IDBDatabase)
    : run bool :=
  match transaction _db (Stores storeName) with
  | None => threw NotFoundError _db
  | Some store =>
      match store_clear (io 0%nat) store with
      | Thrown e => threw e _db
      | Failed e =>
          finish _db
            (error_event e (onerror "clearStore" storeName false)
               (onerror "clearStore" storeName false) globalDatabaseErrorHandler
               pending)
      | Succeeded _ store' =>
          finish (commit _db (Stores storeName) store')
            (deliver EvComplete (success_event (resolve true) pending))
      end
  end.

End Db.

(** ** src/context/DatabaseContext.tsx

    The provider hands out the operations of db.ts wrapped in
    [executeOperation], which turns an exception into [null].  Its loading and
    error flags are display state and are left out. *)

Module DatabaseContext.

Definition executeOperation {T : Type} (operation : run T) : run (option T) :=
  match result operation with
  | Resolved v =>
      {| result := Resolved (Some v); database := database operation;
         output := output operation; delivered := delivered operation |}
  | Rejected err =>
      {| result := Resolved None; database := database operation;
         output := output operation ++
                   ["Database operation error: " +:+ name err +:+ ": " +:+ message err];
         delivered := delivered operation |}
  | Hung =>
      {| result := Hung; database := database operation;
         output := output operation; delivered := delivered operation |}
  end.

(** [T | null] with [T] itself nullable is one nullable type. *)
Definition nullable {T : Type} (r : run (option (option T))) : run (option T) :=
  {| result := match result r with
               | Resolved v => Resolved (mjoin v)
               | Rejected e => Rejected e
               | Hung => Hung
               end;
     database := database r; output := output r; delivered := delivered r |}.

Definition create (io : faults) (store : Db.StoresTypes) (data : record)
    (_db : IDBDatabase) : run (option idbkey) :=
  nullable (executeOperation (Db.create io store data _db)).

Definition get (io : faults) (store : Db.StoresTypes) (id : Z)
    (_db : IDBDatabase) : run (option record) :=
  nullable (executeOperation (Db.get io store id _db)).

Definition getAll (io : faults) (store : Db.StoresTypes) (_db : IDBDatabase)
    : run (option (list record)) :=
  nullable (executeOperation (Db.getAll io store _db)).

Definition update (io : faults) (store : Db.StoresTypes) (id : Z) (data : record)
    (createDefault : unit → record) (_db : IDBDatabase) : run (option record) :=
  nullable (executeOperation (Db.update io store id data createDefault _db)).

Definition remove (io : faults) (store : Db.StoresTypes) (id : Z)
    (_db : IDBDatabase) : run (option bool) :=
  executeOperation (Db.remove io store id _db).

Definition clearStore (io : faults) (store : Db.StoresTypes) (_db : IDBDatabase)
    : run (option bool) :=
  executeOperation (Db.clearStore io store _db).

End DatabaseContext.

(** ** A JavaScript [Map] with string keys

    Iteration follows insertion order and [set] on a present key keeps its
    position, so the map is an association list. *)

Module JSMap.
Section JSMap.
Context {V : Type}.

Definition t : Type := list (string * V).

Definition get (key : string) (m : t) : option V :=
  snd <$> find (fun entry => String.eqb entry.1 key) m.

Fixpoint set (key : string) (value : V) (m : t) : t :=
  match m with
  | [] => [(key, value)]
  | entry :: rest =>
      if String.eqb entry.1 key then (key, value) :: rest
      else entry :: set key value rest
  end.

Definition delete (key : string) (m : t) : t :=
  List.filter (fun entry => negb (String.eqb entry.1 key)) m.

Definition values (m : t) : list V := map snd m.
End JSMap.
Arguments t V : clear implicits.
End JSMap.

(** ** src/hooks/useOptimisticUpdate.ts *)

Module OptimisticState.
Inductive OptimisticAction : Type := Create | Update | Delete.

(** What [getOptimisticState] returns for a matching entry. *)
Record t : Type :=
  { isPending : bool;
    isError : bool;
    isConfirmed : bool;
    error : option string;
    action : OptimisticAction }.
End OptimisticState.

Module Hook.
Export OptimisticState(OptimisticAction, Create, Update, Delete).

Record PendingOperation : Type :=
  { id : string;
    action : OptimisticAction;
    item : record;
    originalItem : option record;
    confirmed : bool;
    error : option string }.

(** What the three optimistic operations return:
    [{ success, item?, error?, operationId }]. *)
Record OptimisticResult : Type :=
  { success : bool;
    returned_item : option record;
    returned_error : option string;
    operationId : string }.

(** One finished call of the hook: what the caller gets, the pending map and
    the database afterwards. *)
Record hook_run : Type :=
  { returned : outcome OptimisticResult;
    pendingOperations : JSMap.t PendingOperation;
    stored : IDBDatabase }.

(** [!!operation.error] *)
Definition truthy_error (error : option string) : bool :=
  match error with
  | Some msg => truthy (JStr msg)
  | None => false
  end.

(** [error instanceof Error ? error.message : 'Unknown error'] on the one
    error the [try] block itself throws. *)
Definition operation_failed : string := "Database operation failed".

Section useOptimisticUpdate.
Variable store : Db.StoresTypes.
Variable keyField : string.

(** [`op_${Date.now()}_${Math.random().toString(36).substring(2, 11)}`]:
    the clock and the random digits are inputs. *)
Definition generateOperationId (now : Z) (random : string) : string :=
  "op_" +:+ pretty now +:+ "_" +:+ random.

Definition temp_id (operationId : string) : jsval :=
  JStr ("temp_" +:+ operationId).

(** The updater of the failure branch, shared by the three operations. *)
Definition mark_error (operationId : string) (msg : string)
    (prev : JSMap.t PendingOperation) : JSMap.t PendingOperation :=
  match JSMap.get operationId prev with
  | Some operation =>
      JSMap.set operationId
        {| id := id operation; action := action operation; item := item operation;
           originalItem := originalItem operation;
           confirmed := confirmed operation; error := Some msg |} prev
  | None => prev
  end.

Definition failure (operationId msg : string) : OptimisticResult :=
  {| success := false; returned_item := None; returned_error := Some msg;
     operationId := operationId |}.

(** Step 1 of each operation: [setPendingOperations] with the tentative
    entry, before the storage call is awaited. *)
Definition register (operation : PendingOperation)
    (prev : JSMap.t PendingOperation) : JSMap.t PendingOperation :=
  JSMap.set (id operation) operation prev.

(** The updater of the success branch: replace the snapshot and confirm. *)
Definition mark_confirmed (operationId : string) (snapshot : option record)
    (prev : JSMap.t PendingOperation) : JSMap.t PendingOperation :=
  match JSMap.get operationId prev with
  | Some operation =>
      JSMap.set operationId
        {| id := id operation; action := action operation;
           item := default (item operation) snapshot;
           originalItem := originalItem operation;
           confirmed := true; error := error operation |} prev
  | None => prev
  end.

(** The [catch] branch. *)
Definition failed (operationId msg : string) (db : IDBDatabase)
    (registered : JSMap.t PendingOperation) : hook_run :=
  {| returned := Resolved (failure operationId msg);
     pendingOperations := mark_error operationId msg registered;
     stored := db |}.

(** [optimisticCreate], cut at its [await]: what is registered at once, and
    how the function resumes with the answer of [database.create]. *)
Definition create_entry (operationId : string) (newItem : record) : PendingOperation :=
  {| id := operationId; action := Create;
     item := <[keyField := temp_id operationId]> newItem;
     originalItem := None; confirmed := false; error := None |}.

Definition optimisticCreate_begin (now : Z) (random : string) (newItem : record)
    (prev : JSMap.t PendingOperation) : JSMap.t PendingOperation :=
  register (create_entry (generateOperationId now random) newItem) prev.

Definition optimisticCreate_resume (now : Z) (random : string) (newItem : record)
    (call : run (option idbkey)) (registered : JSMap.t PendingOperation)
    : hook_run :=
  let operationId := generateOperationId now random in
  let optimisticItem := <[keyField := temp_id operationId]> newItem in
  match result call with
  | Resolved (Some actualId) =>
      if truthy (key_to_js actualId) then
        let confirmedItem := <[keyField := key_to_js actualId]> optimisticItem in
        {| returned :=
             Resolved {| success := true; returned_item := Some confirmedItem;
                         returned_error := None; operationId := operationId |};
           pendingOperations :=
             mark_confirmed operationId (Some confirmedItem) registered;
           stored := database call |}
      else failed operationId operation_failed (database call) registered
  | Resolved None => failed operationId operation_failed (database call) registered
  | Rejected e => failed operationId (message e) (database call) registered
  | Hung =>
      {| returned := Hung; pendingOperations := registered;
         stored := database call |}
  end.

Definition optimisticCreate (io : faults) (now : Z) (random : string)
    (newItem : record) (prev : JSMap.t PendingOperation) (_db : IDBDatabase)
    : hook_run :=
  optimisticCreate_resume now random newItem
    (DatabaseContext.create io store newItem _db)
    (optimisticCreate_begin now random newItem prev).

(** [optimisticUpdate] *)
Definition update_entry (operationId : string) (updates originalItem_ : record)
    : PendingOperation :=
  {| id := operationId; action := Update;
     item := spread originalItem_ updates;
     originalItem := Some originalItem_; confirmed := false; error := None |}.

Definition optimisticUpdate_begin (now : Z) (random : string)
    (updates originalItem_ : record) (prev : JSMap.t PendingOperation)
    : JSMap.t PendingOperation :=
  register (update_entry (generateOperationId now random) updates originalItem_) prev.

Definition optimisticUpdate_resume (now : Z) (random : string)
    (call : run (option record)) (registered : JSMap.t PendingOperation)
    : hook_run :=
  let operationId := generateOperationId now random in
  match result call with
  | Resolved (Some merged) =>
      {| returned :=
           Resolved {| success := true; returned_item := Some merged;
                       returned_error := None; operationId := operationId |};
         pendingOperations := mark_confirmed operationId (Some merged) registered;
         stored := database call |}
  | Resolved None => failed operationId operation_failed (database call) registered
  | Rejected e => failed operationId (message e) (database call) registered
  | Hung =>
      {| returned := Hung; pendingOperations := registered;
         stored := database call |}
  end.

Definition optimisticUpdate (io : faults) (now : Z) (random : string)
    (id_ : Z) (updates originalItem_ : record) (createDefault : unit → record)
    (prev : JSMap.t PendingOperation) (_db : IDBDatabase) : hook_run :=
  optimisticUpdate_resume now random
    (DatabaseContext.update io store id_ updates createDefault _db)
    (optimisticUpdate_begin now random updates originalItem_ prev).

(** [optimisticDelete] *)
Definition delete_entry (operationId : string) (originalItem_ : record)
    : PendingOperation :=
  {| id := operationId; action := Delete; item := originalItem_;
     originalItem := Some originalItem_; confirmed := false; error := None |}.

Definition optimisticDelete_begin (now : Z) (random : string)
    (originalItem_ : record) (prev : JSMap.t PendingOperation)
    : JSMap.t PendingOperation :=
  register (delete_entry (generateOperationId now random) originalItem_) prev.

Definition optimisticDelete_resume (now : Z) (random : string)
    (call : run (option bool)) (registered : JSMap.t PendingOperation)
    : hook_run :=
  let operationId := generateOperationId now random in
  match result call with
  | Resolved (Some true) =>
      {| returned :=
           Resolved {| success := true; returned_item := None;
                       returned_error := None; operationId := operationId |};
         pendingOperations := mark_confirmed operationId None registered;
         stored := database call |}
  | Resolved _ => failed operationId operation_failed (database call) registered
  | Rejected e => failed operationId (message e) (database call) registered
  | Hung =>
      {| returned := Hung; pendingOperations := registered;
         stored := database call |}
  end.

Definition optimisticDelete (io : faults) (now : Z) (random : string)
    (id_ : Z) (originalItem_ : record)
    (prev : JSMap.t PendingOperation) (_db : IDBDatabase) : hook_run :=
  optimisticDelete_resume now random
    (DatabaseContext.remove io store id_ _db)
    (optimisticDelete_begin now random originalItem_ prev).


Definition getPendingOperations (pending_ : JSMap.t PendingOperation)
    : list PendingOperation :=
  JSMap.values pending_.

(** The callback passed to [some] and [find]:
    [opItemId === itemId || opItemId === `temp_${op.id}`]. *)
Definition matches (itemId : jsval) (op : PendingOperation) : bool :=
  let opItemId := prop (item op) keyField in
  strict_eq opItemId itemId || strict_eq opItemId (temp_id (id op)).

Definition hasPendingOperation (itemId : jsval)
    (pending_ : JSMap.t PendingOperation) : bool :=
  existsb (matches itemId) (JSMap.values pending_).

Definition getOptimisticState (itemId : jsval)
    (pending_ : JSMap.t PendingOperation) : option OptimisticState.t :=
  match find (matches itemId) (JSMap.values pending_) with
  | None => None
  | Some operation =>
      Some {| OptimisticState.isPending :=
                negb (confirmed operation) && negb (truthy_error (error operation));
              OptimisticState.isError := truthy_error (error operation);
              OptimisticState.isConfirmed := confirmed operation;
              OptimisticState.error := error operation;
              OptimisticState.action := action operation |}
  end.
End useOptimisticUpdate.

End Hook.

(** ** Vocabulary of the statements *)

Import Db.

(** The seven operations of the adapter behind one name, with the value each
    resolves on failure. *)
Inductive operation : Type :=
| OpInitDB (VITE_PROJECT_DATABASE_VERSION : option Z)
| OpCreate (storeName : StoresTypes) (data : record)
| OpGet (storeName : StoresTypes) (id : Z)
| OpGetAll (storeName : StoresTypes)
| OpUpdate (storeName : StoresTypes) (id : Z) (newData : record)
    (createDefault : unit → record)
| OpRemove (storeName : StoresTypes) (id : Z)
| OpClearStore (storeName : StoresTypes).

Inductive value : Type :=
| VBool (b : bool)
| VId (id : option idbkey)
| VRecord (r : option record)
| VRecords (rs : option (list record)).

Definition relabel {A B : Type} (f : A → B) (r : run A) : run B :=
  {| result := match result r with
               | Resolved v => Resolved (f v)
               | Rejected e => Rejected e
               | Hung => Hung
               end;
     database := database r; output := output r; delivered := delivered r |}.

Definition perform (io : faults) (op : operation) (_db : IDBDatabase) : run value :=
  match op with
  | OpInitDB v => relabel VBool (initDB (io 0%nat) v _db)
  | OpCreate s data => relabel VId (create io s data _db)
  | OpGet s id => relabel VRecord (get io s id _db)
  | OpGetAll s => relabel VRecords (getAll io s _db)
  | OpUpdate s id newData createDefault =>
      relabel VRecord (update io s id newData createDefault _db)
  | OpRemove s id => relabel VBool (remove io s id _db)
  | OpClearStore s => relabel VBool (clearStore io s _db)
  end.


(** In-line keys: every stored record carries its own key at the key path. *)
Definition inline_keys (st : IDBObjectStore) : Prop :=
  ∀ k r, records st !! k = Some r → evaluate_key_path (keyPath st) r = ValidKey k.

(** The composite index that [initDB] declares on [userSkills], and the
    invariant it is there for. *)
Definition userSkill : IDBIndex :=
  {| indexName := "userSkill"; indexKeyPath := ["userId"; "skillId"]; unique := true |}.

(** The [userSkills] store as [initDB] declares it. *)
Definition declared (db : IDBDatabase) : Prop :=
  ∀ st, transaction db (Stores UserSkills) = Some st →
    keyPath st = Keys UserSkills ∧ autoIncrement st = true ∧
    userSkill ∈ indexes st.

(** At most one record per (userId, skillId) pair. *)
Definition pairs_unique (st : IDBObjectStore) : Prop :=
  ∀ k1 k2 r1 r2 pair,
    records st !! k1 = Some r1 → records st !! k2 = Some r2 →
    index_key userSkill r1 = Some pair → index_key userSkill r2 = Some pair →
    k1 = k2.

Definition one_per_pair (db : IDBDatabase) : Prop :=
  ∀ st, transaction db (Stores UserSkills) = Some st → pairs_unique st.

(** Sequential creates that all succeed: the ids they return and the database
    they leave; [None] as soon as one of them does not resolve an id. *)
Fixpoint create_all (storeName : StoresTypes) (calls : list (faults * record))
    (_db : IDBDatabase) : option (list idbkey * IDBDatabase) :=
  match calls with
  | [] => Some ([], _db)
  | (io, data) :: rest =>
      match result (create io storeName data _db) with
      | Resolved (Some addedId) =>
          match create_all storeName rest (database (create io storeName data _db)) with
          | Some (ids, db') => Some (addedId :: ids, db')
          | None => None
          end
      | _ => None
      end
  end.

(** The three optimistic operations behind one name, and what it means for
    the storage call underneath to fail. *)
Inductive optimistic_call : Type :=
| OptimisticCreate (newItem : record)
| OptimisticUpdate (id : Z) (updates originalItem : record)
    (createDefault : unit → record)
| OptimisticDelete (id : Z) (originalItem : record).

Definition optimistic (store : StoresTypes) (keyField : string) (io : faults)
    (now : Z) (random : string) (call : optimistic_call)
    (prev : JSMap.t Hook.PendingOperation) (_db : IDBDatabase) : Hook.hook_run :=
  match call with
  | OptimisticCreate newItem =>
      Hook.optimisticCreate store keyField io now random newItem prev _db
  | OptimisticUpdate id updates originalItem createDefault =>
      Hook.optimisticUpdate store io now random id updates originalItem
        createDefault prev _db
  | OptimisticDelete id originalItem =>
      Hook.optimisticDelete store io now random id originalItem prev _db
  end.

Definition storage_failed (store : StoresTypes) (io : faults)
    (call : optimistic_call) (_db : IDBDatabase) : Prop :=
  match call with
  | OptimisticCreate newItem =>
      result (DatabaseContext.create io store newItem _db) = Resolved None
  | OptimisticUpdate id updates _ createDefault =>
      result (DatabaseContext.update io store id updates createDefault _db)
      = Resolved None
  | OptimisticDelete id _ =>
      result (DatabaseContext.remove io store id _db) = Resolved None ∨
      result (DatabaseContext.remove io store id _db) = Resolved (Some false)
  end.

(** Concrete data for the examples. *)
Definition blank : IDBDatabase := {| version := 0; objectStores := ∅ |}.

Definition ready : IDBDatabase := database (initDB None None blank).

Definition three_calls : list (faults * record) :=
  [ (no_faults, {[ "name" := JStr "Alice" ]});
    (no_faults, {[ "name" := JStr "Bob" ]});
    (no_faults, {[ "name" := JStr "Carol" ]}) ].

Definition three_created : list idbkey * IDBDatabase :=
  default ([], ready) (create_all Users three_calls ready).

Definition abc : record :=
  {[ "userId" := JNum 1; "a" := JStr "A"; "b" := JStr "B"; "c" := JStr "C" ]}.

Definition abc_store : IDBObjectStore :=
  with_records (createObjectStore (Keys Users) true) 2 {[ KNum 1 := abc ]}.

Definition abc_db : IDBDatabase :=
  {| version := 3; objectStores := {[ Stores Users := abc_store ]} |}.


Definition default_user (_ : unit) : record :=
  {[ "name" := JStr ""; "email" := JStr "" ]}.


Definition QuotaExceededError : DOMException :=
  {| name := "QuotaExceededError"; message := "The quota has been exceeded" |}.

Definition failing : faults := fun _ => Some QuotaExceededError.

Definition link : record :=
  {[ "userId" := JNum 1; "skillId" := JNum 1; "proficiencyLevel" := JStr "proficient" ]}.

Definition linked : IDBDatabase := database (create no_faults UserSkills link ready).

Definition linked_store : IDBObjectStore :=
  default (createObjectStore "" false) (transaction linked (Stores UserSkills)).

Definition alice_pending : JSMap.t Hook.PendingOperation :=
  Hook.optimisticCreate_begin "userId" 1700000000000 "k3j9x2m1q"
    {[ "name" := JStr "Alice" ]} [].

Definition bob_confirmed : Hook.PendingOperation :=
  {| Hook.id := "op_1700000000500_zzzzzzzzz"; Hook.action := OptimisticState.Update;
     Hook.item := {[ "userId" := JNum 42; "name" := JStr "Bob" ]};
     Hook.originalItem := Some {[ "userId" := JNum 42; "name" := JStr "Rob" ]};
     Hook.confirmed := true; Hook.error := None |}.

(** ** src/hooks/useBulkSelection.ts

    The hook keeps a [Set] of ids; [data] and [keyField] are its arguments.
    Only [has], [add], [delete] and [size] are used, so the order of the set
    is not observed. *)

#[global] Instance jsval_countable : Countable jsval.
Proof.
  refine (inj_countable'
    (fun v => match v with
              | JUndefined => inl (inl true)
              | JNull => inl (inl false)
              | JBool b => inl (inr b)
              | JNum n => inr (inl n)
              | JStr s => inr (inr s)
              end)
    (fun x => match x with
              | inl (inl true) => JUndefined
              | inl (inl false) => JNull
              | inl (inr b) => JBool b
              | inr (inl n) => JNum n
              | inr (inr s) => JStr s
              end) _).
  intros []; reflexivity.
Defined.

Module BulkSelection.
Section useBulkSelection.
Variable data : list record.
Variable keyField : string.

(** [selectedIds.has(id)] *)
Definition has (selectedIds : gset jsval) (id : jsval) : bool :=
  bool_decide (id ∈ selectedIds).

Definition toggleSelection (id : jsval) (prev : gset jsval) : gset jsval :=
  if has prev id then prev ∖ {[ id ]} else prev ∪ {[ id ]}.

(** [data.map(item => item[keyField]).filter(id => id !== undefined)] *)
Definition allIds : list jsval :=
  List.filter (fun id => negb (strict_eq id JUndefined))
    (map (fun item => prop item keyField) data).

Definition toggleSelectAll (selectedIds : gset jsval) : gset jsval :=
  if (size selectedIds =? length allIds)%nat && forallb (has selectedIds) allIds
  then ∅
  else list_to_set allIds.

Definition clearSelection : gset jsval := ∅.

Definition selectedItems (selectedIds : gset jsval) : list record :=
  List.filter
    (fun item =>
       let id := prop item keyField in
       negb (strict_eq id JUndefined) && has selectedIds id)
    data.

Definition isSelected (selectedIds : gset jsval) (id : jsval) : bool :=
  has selectedIds id.

Definition isAllSelected (selectedIds : gset jsval) : bool :=
  (0 <? length allIds)%nat && forallb (has selectedIds) allIds.

Definition isSomeSelected (selectedIds : gset jsval) : bool :=
  (0 <? size selectedIds)%nat && negb (isAllSelected selectedIds).

Definition selectedCount (selectedIds : gset jsval) : nat := size selectedIds.

Definition hasSelection (selectedIds : gset jsval) : bool :=
  (0 <? size selectedIds)%nat.
End useBulkSelection.
End BulkSelection.

(** ** Asynchronous functions over the database

    The functions of src/utils and of the pages await one database call
    after the other.  A computation threads the database, the number of
    calls issued so far, which selects the faults the engine raises during
    the next call, and the mutable state of the function itself.  It ends
    like a promise: resolved, rejected or pending for ever. *)

Module Async.

Record state (L : Type) : Type :=
  { db : IDBDatabase; calls : nat; local : L }.
Arguments db {L} s.
Arguments calls {L} s.
Arguments local {L} s.

Definition async (L A : Type) : Type := state L → outcome A * state L.

Section Async.
Context {L : Type}.

Definition ret {A : Type} (a : A) : async L A := fun s => (Resolved a, s).

Definition bind {A B : Type} (m : async L A) (f : A → async L B) : async L B :=
  fun s =>
    match m s with
    | (Resolved a, s') => f a s'
    | (Rejected e, s') => (Rejected e, s')
    | (Hung, s') => (Hung, s')
    end.

Definition throw {A : Type} (e : DOMException) : async L A :=
  fun s => (Rejected e, s).

(** [try { m } catch (error) { handler }] *)
Definition try_catch {A : Type} (m : async L A) (handler : DOMException → async L A)
    : async L A :=
  fun s =>
    match m s with
    | (Rejected e, s') => handler e s'
    | other => other
    end.

(** [try { m } finally { cleanup }]: the cleanup runs unless [m] never ends. *)
Definition try_finally {A : Type} (m : async L A) (cleanup : L → L) : async L A :=
  fun s =>
    match m s with
    | (Hung, s') => (Hung, s')
    | (ended, s') =>
        (ended, {| db := db s'; calls := calls s'; local := cleanup (local s') |})
    end.

Definition read : async L L := fun s => (Resolved (local s), s).

Definition modify (f : L → L) : async L unit :=
  fun s => (Resolved tt, {| db := db s; calls := calls s; local := f (local s) |}).

(** [await operation(...)] on an operation of the database context. *)
Definition await {A : Type} (io : nat → faults)
    (operation : faults → IDBDatabase → run A) : async L A :=
  fun s =>
    let r := operation (io (calls s)) (db s) in
    (result r, {| db := database r; calls := S (calls s); local := local s |}).

(** [await Promise.all([m1, m2])] and [await Promise.all([m1, m2, m3])]: every
    call is issued; the result is rejected as soon as one of them is, here
    with the rejection that comes first in the array. *)
Definition all2 {A B : Type} (m1 : async L A) (m2 : async L B) : async L (A * B) :=
  fun s =>
    let (o1, s1) := m1 s in
    let (o2, s2) := m2 s1 in
    (match o1, o2 with
     | Resolved a, Resolved b => Resolved (a, b)
     | Rejected e, _ => Rejected e
     | _, Rejected e => Rejected e
     | _, _ => Hung
     end, s2).

Definition all3 {A B C : Type} (m1 : async L A) (m2 : async L B) (m3 : async L C)
    : async L (A * B * C) :=
  fun s =>
    let (o1, s1) := m1 s in
    let (o2, s2) := m2 s1 in
    let (o3, s3) := m3 s2 in
    (match o1, o2, o3 with
     | Resolved a, Resolved b, Resolved c => Resolved (a, b, c)
     | Rejected e, _, _ => Rejected e
     | _, Rejected e, _ => Rejected e
     | _, _, Rejected e => Rejected e
     | _, _, _ => Hung
     end, s3).

(** [for (const item of items) { await body(item) }] *)
Fixpoint for_of {A : Type} (items : list A) (body : A → async L unit) : async L unit :=
  match items with
  | [] => ret tt
  | item :: rest => bind (body item) (fun _ => for_of rest body)
  end.
End Async.

#[global] Instance async_ret {L : Type} : MRet (async L) := @ret L.
#[global] Instance async_bind {L : Type} : MBind (async L) :=
  fun A B f m => bind m f.

(** A function called on a database, with its state as it starts. *)
Definition start {L : Type} (_db : IDBDatabase) (initial : L) : state L :=
  {| db := _db; calls := 0%nat; local := initial |}.

End Async.

(** The operations [useDatabase()] hands to the pages and utilities. *)
Module useDatabase.
Section useDatabase.
Context {L : Type}.
Variable io : nat → faults.

Definition getAll (store : StoresTypes) : Async.async L (option (list record)) :=
  Async.await io (fun fault _db => DatabaseContext.getAll fault store _db).

Definition create (store : StoresTypes) (data : record)
    : Async.async L (option idbkey) :=
  Async.await io (fun fault _db => DatabaseContext.create fault store data _db).

Definition remove (store : StoresTypes) (id : Z) : Async.async L (option bool) :=
  Async.await io (fun fault _db => DatabaseContext.remove fault store id _db).

Definition clearStore (store : StoresTypes) : Async.async L (option bool) :=
  Async.await io (fun fault _db => DatabaseContext.clearStore fault store _db).
End useDatabase.
End useDatabase.

(** ** src/utils/dataExport.ts *)

Module dataExport.

Record ExportData : Type :=
  { users : list record; skills : list record; userSkills : list record }.

Record Metadata : Type := { totalRecords : nat; exportedBy : string }.

Record DatabaseExport : Type :=
  { version : string;
    timestamp : string;
    data : ExportData;
    metadata : Metadata }.

(** [exportAllData(getAll)]; [timestamp] is [new Date().toISOString()]. *)
Definition exportAllData {L : Type}
    (getAll : StoresTypes → Async.async L (option (list record)))
    (timestamp : string) : Async.async L DatabaseExport :=
  '(users, skills, userSkills) ←
    Async.all3 (getAll Users) (getAll Skills) (getAll UserSkills);
  mret
    {| version := "1.0.0";
       timestamp := timestamp;
       data := {| users := default [] users;
                  skills := default [] skills;
                  userSkills := default [] userSkills |};
       metadata :=
         {| totalRecords :=
              (default 0 (length <$> users) +
               default 0 (length <$> skills) +
               default 0 (length <$> userSkills))%nat;
            exportedBy := "IndexedDB Demo App" |} |}.

Definition getExportSummary (exportData : DatabaseExport) : string :=
  let summary :=
    [ pretty (length (users (data exportData))) +:+ " users";
      pretty (length (skills (data exportData))) +:+ " skills";
      pretty (length (userSkills (data exportData))) +:+ " user-skill assignments" ] in
  "Exported " +:+ pretty (totalRecords (metadata exportData)) +:+
  " total records (" +:+ String.concat ", " summary +:+ ")".

End dataExport.

(** ** src/utils/dataImport.ts *)

Module dataImport.

(** What [JSON.parse] gives: [validateImportData] takes a value of unknown
    shape. *)
Local Unset Elimination Schemes.
Inductive json : Type :=
| JPrim (v : jsval)
| JArr (items : list json)
| JObj (fields : gmap string json).
Local Set Elimination Schemes.

(** [!!x] *)
Definition truthy_json (x : json) : bool :=
  match x with
  | JPrim v => truthy v
  | JArr _ | JObj _ => true
  end.

(** [typeof x === 'object'] *)
Definition typeof_object (x : json) : bool :=
  match x with
  | JPrim JNull | JArr _ | JObj _ => true
  | JPrim _ => false
  end.

(** The exception of a property read on [null] or [undefined], in the
    engine's wording. *)
Definition TypeError_reading (value key : string) : DOMException :=
  {| name := "TypeError";
     IDB.message := "Cannot read properties of " +:+ value +:+
                    " (reading '" +:+ key +:+ "')" |}.

Inductive completion (A : Type) : Type :=
| Returns (a : A)
| Throws (e : DOMException).
Arguments Returns {A} a.
Arguments Throws {A} e.

(** [x.key], for the property names this file reads: none of them is a
    property of an array or of the wrapper of a primitive. *)
Definition member (x : json) (key : string) : completion json :=
  match x with
  | JPrim JUndefined => Throws (TypeError_reading "undefined" key)
  | JPrim JNull => Throws (TypeError_reading "null" key)
  | JPrim _ | JArr _ => Returns (JPrim JUndefined)
  | JObj fields => Returns (default (JPrim JUndefined) (fields !! key))
  end.

Module Validation.
Record t : Type := { isValid : bool; errors : list string }.
End Validation.

(** [!item.k1 || !item.k2 || ...]: the first read throws on [null]. *)
Fixpoint lacks (item : json) (keys : list string) : completion bool :=
  match keys with
  | [] => Returns false
  | key :: rest =>
      match member item key with
      | Throws e => Throws e
      | Returns v => if negb (truthy_json v) then Returns true else lacks item rest
      end
  end.

(** [items.forEach((item, index) => { if (lacks) errors.push(...) })] *)
Fixpoint forEach_check (keys : list string) (complaint : nat → string)
    (items : list json) (index : nat) (errors : list string)
    : completion (list string) :=
  match items with
  | [] => Returns errors
  | item :: rest =>
      match lacks item keys with
      | Throws e => Throws e
      | Returns missing =>
          forEach_check keys complaint rest (S index)
            (if missing then (errors ++ [complaint index])%list else errors)
      end
  end.

(** One of the three sections: [Array.isArray] and the loop. *)
Definition check_section (section : json) (not_array : string)
    (keys : list string) (complaint : nat → string) (errors : list string)
    : completion (list string) :=
  match section with
  | JArr items => forEach_check keys complaint items 0%nat errors
  | _ => Returns (errors ++ [not_array])%list
  end.

Definition property (x : json) (key : string) : json :=
  match member x key with
  | Returns v => v
  | Throws _ => JPrim JUndefined
  end.

Definition validateImportData (data : json) : completion Validation.t :=
  if negb (truthy_json data) || negb (typeof_object data) then
    Returns {| Validation.isValid := false;
               Validation.errors :=
                 ["Invalid file format: must be a valid JSON object"] |}
  else
    let errors :=
      if negb (truthy_json (property data "version"))
      then ["Missing version information"] else [] in
    if negb (truthy_json (property data "data")) then
      Returns {| Validation.isValid := false;
                 Validation.errors := (errors ++ ["Missing data section"])%list |}
    else
      let section := property data "data" in
      match
        check_section (property section "users") "Users data must be an array"
          ["name"; "email"]
          (fun index => "User at index " +:+ pretty index +:+ ": missing name or email")
          errors
      with
      | Throws e => Throws e
      | Returns errors =>
          match
            check_section (property section "skills") "Skills data must be an array"
              ["name"; "category"; "level"]
              (fun index => "Skill at index " +:+ pretty index +:+
                            ": missing name, category, or level")
              errors
          with
          | Throws e => Throws e
          | Returns errors =>
              match
                check_section (property section "userSkills")
                  "UserSkills data must be an array"
                  ["userId"; "skillId"; "proficiencyLevel"]
                  (fun index => "UserSkill at index " +:+ pretty index +:+
                                ": missing userId, skillId, or proficiencyLevel")
                  errors
              with
              | Throws e => Throws e
              | Returns errors =>
                  Returns {| Validation.isValid := bool_decide (length errors = 0%nat);
                             Validation.errors := errors |}
              end
          end
      end.

(** A [DatabaseExport] as the value [validateImportData] looks at. *)
Definition record_to_json (r : record) : json := JObj (JPrim <$> r).

Definition to_json (d : dataExport.DatabaseExport) : json :=
  JObj {[ "version" := JPrim (JStr (dataExport.version d));
          "timestamp" := JPrim (JStr (dataExport.timestamp d));
          "data" :=
            JObj {[ "users" :=
                      JArr (record_to_json <$> dataExport.users (dataExport.data d));
                    "skills" :=
                      JArr (record_to_json <$> dataExport.skills (dataExport.data d));
                    "userSkills" :=
                      JArr (record_to_json
                              <$> dataExport.userSkills (dataExport.data d)) ]};
          "metadata" :=
            JObj {[ "totalRecords" :=
                      JPrim (JNum (Z.of_nat (dataExport.totalRecords
                                               (dataExport.metadata d))));
                    "exportedBy" :=
                      JPrim (JStr (dataExport.exportedBy (dataExport.metadata d))) ]} ]}.

Record counts : Type := { users : nat; skills : nat; userSkills : nat }.

Module ImportResult.
Record t : Type :=
  { success : bool;
    message : string;
    errors : list string;
    imported : counts;
    skipped : counts }.
End ImportResult.

Record ImportOptions : Type :=
  { skipDuplicates : bool; createBackup : bool; validateData : bool }.

Definition count_user (c : counts) : counts :=
  {| users := S (users c); skills := skills c; userSkills := userSkills c |}.

Definition count_skill (c : counts) : counts :=
  {| users := users c; skills := S (skills c); userSkills := userSkills c |}.

Definition with_imported (f : counts → counts) (r : ImportResult.t) : ImportResult.t :=
  {| ImportResult.success := ImportResult.success r;
     ImportResult.message := ImportResult.message r;
     ImportResult.errors := ImportResult.errors r;
     ImportResult.imported := f (ImportResult.imported r);
     ImportResult.skipped := ImportResult.skipped r |}.

Definition with_skipped (f : counts → counts) (r : ImportResult.t) : ImportResult.t :=
  {| ImportResult.success := ImportResult.success r;
     ImportResult.message := ImportResult.message r;
     ImportResult.errors := ImportResult.errors r;
     ImportResult.imported := ImportResult.imported r;
     ImportResult.skipped := f (ImportResult.skipped r) |}.

(** [existingUsers?.some(existing => existing.email === user.email)] *)
Definition duplicate_user (existingUsers : option (list record)) (user : record) : bool :=
  match existingUsers with
  | Some existing_ =>
      existsb (fun existing => strict_eq (prop existing "email") (prop user "email"))
        existing_
  | None => false
  end.

(** [existingSkills?.some(existing => existing.name === skill.name &&
    existing.category === skill.category)] *)
Definition duplicate_skill (existingSkills : option (list record)) (skill : record)
    : bool :=
  match existingSkills with
  | Some existing_ =>
      existsb (fun existing =>
                 strict_eq (prop existing "name") (prop skill "name") &&
                 strict_eq (prop existing "category") (prop skill "category"))
        existing_
  | None => false
  end.

(** [if (newId)] *)
Definition truthy_id (newId : option idbkey) : bool :=
  match newId with
  | Some k => truthy (key_to_js k)
  | None => false
  end.

Section importData.
Variable importData_ : dataExport.DatabaseExport.
Variable options : ImportOptions.
Variable getAll : StoresTypes → Async.async ImportResult.t (option (list record)).
Variable create : StoresTypes → record → Async.async ImportResult.t (option idbkey).

Definition initial : ImportResult.t :=
  {| ImportResult.success := false;
     ImportResult.message := "";
     ImportResult.errors := [];
     ImportResult.imported := {| users := 0%nat; skills := 0%nat; userSkills := 0%nat |};
     ImportResult.skipped := {| users := 0%nat; skills := 0%nat; userSkills := 0%nat |} |}.

(** The body of the loop over the users, and of the loop over the skills. *)
Definition import_user (existingUsers : option (list record)) (user : record)
    : Async.async ImportResult.t unit :=
  if duplicate_user existingUsers user && skipDuplicates options then
    Async.modify (with_skipped count_user)
  else
    newId ← create Users (delete "userId" user);
    if truthy_id newId then Async.modify (with_imported count_user) else mret tt.

Definition import_skill (existingSkills : option (list record)) (skill : record)
    : Async.async ImportResult.t unit :=
  if duplicate_skill existingSkills skill && skipDuplicates options then
    Async.modify (with_skipped count_skill)
  else
    newId ← create Skills (delete "skillId" skill);
    if truthy_id newId then Async.modify (with_imported count_skill) else mret tt.

Definition import_all : Async.async ImportResult.t unit :=
  '(existingUsers, existingSkills) ← Async.all2 (getAll Users) (getAll Skills);
  Async.for_of (dataExport.users (dataExport.data importData_))
    (import_user existingUsers);;
  Async.for_of (dataExport.skills (dataExport.data importData_))
    (import_skill existingSkills);;
  Async.modify (fun result =>
    {| ImportResult.success := true;
       ImportResult.message :=
         "Successfully imported " +:+
         pretty (users (ImportResult.imported result)) +:+ " users and " +:+
         pretty (skills (ImportResult.imported result)) +:+ " skills";
       ImportResult.errors := ImportResult.errors result;
       ImportResult.imported := ImportResult.imported result;
       ImportResult.skipped := ImportResult.skipped result |}).

Definition validation_failed (errors : list string) (result : ImportResult.t)
    : ImportResult.t :=
  {| ImportResult.success := ImportResult.success result;
     ImportResult.message := "Validation failed";
     ImportResult.errors := errors;
     ImportResult.imported := ImportResult.imported result;
     ImportResult.skipped := ImportResult.skipped result |}.

Definition import_failed (error : DOMException) (result : ImportResult.t)
    : ImportResult.t :=
  {| ImportResult.success := ImportResult.success result;
     ImportResult.message := "Import failed due to errors";
     ImportResult.errors := (ImportResult.errors result ++ [IDB.message error])%list;
     ImportResult.imported := ImportResult.imported result;
     ImportResult.skipped := ImportResult.skipped result |}.

Definition importData : Async.async ImportResult.t ImportResult.t :=
  Async.modify (fun _ => initial);;
  Async.try_catch
    (if validateData options then
       match validateImportData (to_json importData_) with
       | Throws e => Async.throw e
       | Returns validation =>
           if negb (Validation.isValid validation) then
             Async.modify (validation_failed (Validation.errors validation))
           else import_all
       end
     else import_all)
    (fun error => Async.modify (import_failed error));;
  Async.read.
End importData.

End dataImport.

(** ** The Home page: [populateSampleData] and [clearAllData]

    The sample records of src/utils/sampleData.ts are arguments.  The state
    of the page is the busy flag and the status line; what goes to the
    console and the timer that clears the status line after three seconds
    are left out. *)

Module Home.

Record home_state : Type :=
  { isPopulating : bool; populateStatus : option string }.

Definition setIsPopulating (b : bool) (s : home_state) : home_state :=
  {| isPopulating := b; populateStatus := populateStatus s |}.

Definition setPopulateStatus (status : string) (s : home_state) : home_state :=
  {| isPopulating := isPopulating s; populateStatus := Some status |}.

(** [list && list.length > 0] *)
Definition non_empty (list_ : option (list record)) : bool :=
  match list_ with
  | Some items => (0 <? length items)%nat
  | None => false
  end.

Section Home.
Variable sampleUsers sampleSkills : list record.
Variable isReady : bool.
Variable io : nat → faults.

Definition populateSampleData : Async.async home_state unit :=
  if negb isReady then mret tt
  else
    Async.modify (setIsPopulating true);;
    Async.modify (setPopulateStatus "Checking existing data...");;
    Async.try_finally
      (Async.try_catch
         (existingUsers ← useDatabase.getAll io Users;
          existingSkills ← useDatabase.getAll io Skills;
          if non_empty existingUsers || non_empty existingSkills then
            Async.modify
              (setPopulateStatus
                 "Sample data already exists. Clear data first if you want to repopulate.");;
            Async.modify (setIsPopulating false)
          else
            Async.modify
              (setPopulateStatus
                 ("Adding " +:+ pretty (length sampleUsers) +:+ " sample users..."));;
            Async.for_of sampleUsers
              (fun user => _ ← useDatabase.create io Users user; mret tt);;
            Async.modify
              (setPopulateStatus
                 ("Adding " +:+ pretty (length sampleSkills) +:+ " sample skills..."));;
            Async.for_of sampleSkills
              (fun skill => _ ← useDatabase.create io Skills skill; mret tt);;
            Async.modify (setPopulateStatus "Sample data populated successfully! 🎉"))
         (fun error =>
            Async.modify (setPopulateStatus "Failed to populate sample data.")))
      (setIsPopulating false).

(** [usersCleared && skillsCleared] *)
Definition cleared (answer : option bool) : bool := default false answer.

Definition clearAllData : Async.async home_state unit :=
  if negb isReady then mret tt
  else
    Async.modify (setIsPopulating true);;
    Async.modify (setPopulateStatus "Clearing all data...");;
    Async.try_finally
      (Async.try_catch
         (usersCleared ← useDatabase.clearStore io Users;
          skillsCleared ← useDatabase.clearStore io Skills;
          if cleared usersCleared && cleared skillsCleared then
            Async.modify (setPopulateStatus "All data cleared successfully! 🗑️")
          else Async.modify (setPopulateStatus "Failed to clear some data."))
         (fun error => Async.modify (setPopulateStatus "Failed to clear data.")))
      (setIsPopulating false).
End Home.

End Home.

(** ** Vocabulary of the further properties *)

(** The key generator is ahead of every numeric key in the store. *)
Definition generator_ahead (st : IDBObjectStore) : Prop :=
  ∀ n r, records st !! KNum n = Some r → Z.min n max_generated < currentNumber st.

(** A store as [initDB] creates it and as the engine keeps it. *)
Definition store_sound (s : StoresTypes) (st : IDBObjectStore) : Prop :=
  keyPath st = Keys s ∧ autoIncrement st = true ∧ 0 < currentNumber st ∧
  generator_ahead st ∧ inline_keys st.

Definition sound (db : IDBDatabase) : Prop :=
  ∀ s st, transaction db (Stores s) = Some st → store_sound s st.

(** A history: operations run one after the other, each with the faults the
    engine raises during it. *)
Definition perform_all (calls : list (faults * operation)) (_db : IDBDatabase)
    : IDBDatabase :=
  fold_left (fun db call => database (perform call.1 call.2 db)) calls _db.

(** No index of the store is a unique index. *)
Definition no_unique_index (st : IDBObjectStore) : Prop :=
  Forall (fun ix => unique ix = false) (indexes st).




(** The section of an export that holds the records of a store, and the
    place of the read of that store among the calls of [exportAllData]. *)
Definition exported (s : StoresTypes) (d : dataExport.ExportData) : list record :=
  match s with
  | Users => dataExport.users d
  | Skills => dataExport.skills d
  | UserSkills => dataExport.userSkills d
  end.


(** [importData] as the data management page calls it: with the operations
    of the database context. *)
Definition import_into (io : nat → faults) (file : dataExport.DatabaseExport)
    (options : dataImport.ImportOptions) (_db : IDBDatabase)
    : outcome dataImport.ImportResult.t * Async.state dataImport.ImportResult.t :=
  dataImport.importData file options (useDatabase.getAll io) (useDatabase.create io)
    (Async.start _db dataImport.initial).

(** The records of a store in the order [getAll] resolves them. *)
Definition rows (st : IDBObjectStore) : list record := (cursor_entries st).*2.

(** A value with the shape of an export: an object with a version and a
    data section of three arrays, whose elements are objects with the
    fields that the application reads. *)
Definition has_all (keys : list string) (item : dataImport.json) : Prop :=
  ∃ fields,
    item = dataImport.JObj fields ∧
    Forall (fun key => ∃ v, fields !! key = Some v ∧ dataImport.truthy_json v = true)
      keys.

Definition well_formed (data : dataImport.json) : Prop :=
  ∃ fields version section users skills userSkills,
    data = dataImport.JObj fields ∧
    fields !! "version" = Some version ∧ dataImport.truthy_json version = true ∧
    fields !! "data" = Some (dataImport.JObj section) ∧
    section !! "users" = Some (dataImport.JArr users) ∧
    section !! "skills" = Some (dataImport.JArr skills) ∧
    section !! "userSkills" = Some (dataImport.JArr userSkills) ∧
    Forall (has_all ["name"; "email"]) users ∧
    Forall (has_all ["name"; "category"; "level"]) skills ∧
    Forall (has_all ["userId"; "skillId"; "proficiencyLevel"]) userSkills.

(** The database has only gained records: every store is still there with
    the records it had, and the store of the assignments is as it was. *)
Definition only_added (before after : IDBDatabase) : Prop :=
  ∀ s store, transaction before (Stores s) = Some store →
    ∃ store', transaction after (Stores s) = Some store' ∧
              records store ⊆ records store' ∧
              (s = UserSkills → store' = store).

(** The common shape of the two loop bodies of [importData]. *)
Definition import_item (create : StoresTypes → record →
                                 Async.async dataImport.ImportResult.t (option idbkey))
    (s : StoresTypes) (duplicate : record → bool) (skipDuplicates : bool)
    (count : dataImport.counts → dataImport.counts) (item : record)
    : Async.async dataImport.ImportResult.t unit :=
  if duplicate item && skipDuplicates then
    Async.modify (dataImport.with_skipped count)
  else
    newId ← create s (delete (Keys s) item);
    if dataImport.truthy_id newId then Async.modify (dataImport.with_imported count)
    else mret tt.

(** The file entries that [importData] skips, and those it hands to
    [create]. *)
Definition skipped_of (duplicate : record → bool) (skipDuplicates : bool)
    (items : list record) : list record :=
  List.filter (fun item => duplicate item && skipDuplicates) items.

Definition created_of (duplicate : record → bool) (skipDuplicates : bool)
    (items : list record) : list record :=
  List.filter (fun item => negb (duplicate item && skipDuplicates)) items.

(** There is room for [n] more generated keys. *)
Definition room (st : IDBObjectStore) (n : nat) : Prop :=
  currentNumber st + Z.of_nat n ≤ max_generated + 1.

(** The [try] statement of [importData]. *)
Definition import_attempt (io : nat → faults) (file : dataExport.DatabaseExport)
    (options : dataImport.ImportOptions) : Async.async dataImport.ImportResult.t unit :=
  Async.try_catch
    (if dataImport.validateData options then
       match dataImport.validateImportData (dataImport.to_json file) with
       | dataImport.Throws e => Async.throw e
       | dataImport.Returns validation =>
           if negb (dataImport.Validation.isValid validation) then
             Async.modify
               (dataImport.validation_failed (dataImport.Validation.errors validation))
           else dataImport.import_all file options (useDatabase.getAll io)
                  (useDatabase.create io)
       end
     else dataImport.import_all file options (useDatabase.getAll io)
            (useDatabase.create io))
    (fun error => Async.modify (dataImport.import_failed error)).

(** What [getAll] of the context resolves when the engine raises no fault. *)
Definition read_served (_db : IDBDatabase) (s : StoresTypes) : option (list record) :=
  rows <$> transaction _db (Stores s).

(** What a read of the context gives back to its caller: the list, or
    [null]. *)
Definition read_answer (fault : faults) (s : StoresTypes) (_db : IDBDatabase)
    : option (list record) :=
  match result (DatabaseContext.getAll fault s _db) with
  | Resolved answer => answer
  | _ => None
  end.

(** Faults on the two reads of [populateSampleData] and on nothing else. *)
Definition reads_fail : nat → faults :=
  fun call => if (call <? 2)%nat then failing else no_faults.

(** What a computation leaves when it resolves and keeps an invariant. *)
Definition keeps {L A : Type} (P : Async.state L → Prop) (m : Async.async L A)
    : Prop :=
  ∀ s, P s → ∃ a, (m s).1 = Resolved a ∧ P (m s).2.

(** The invariant of an import: records are only added, and nothing is
    counted for the assignments. *)
Definition importing (before : IDBDatabase)
    (s : Async.state dataImport.ImportResult.t) : Prop :=
  only_added before (Async.db s) ∧
  dataImport.userSkills (dataImport.ImportResult.imported (Async.local s)) = 0%nat ∧
  dataImport.userSkills (dataImport.ImportResult.skipped (Async.local s)) = 0%nat.

(** * Properties *)

(** ** The merge loop *)

Example apply_updates_abc :
  apply_updates {[ "b" := JNum 9 ]}
    {[ "a" := JNum 1; "b" := JNum 2; "c" := JNum 3 ]}
  = {[ "a" := JNum 1; "b" := JNum 9; "c" := JNum 3 ]}.
Proof. vm_compute. reflexivity. Qed.

(** A property of the merged record is a property of the base record; its
    value comes from the update exactly when the update has it too. *)
Lemma apply_updates_lookup (newData retrievedData : record) (key : string) :
  apply_updates newData retrievedData !! key =
  match retrievedData !! key with
  | Some old => Some (default old (newData !! key))
  | None => None
  end.
Proof.
  unfold apply_updates.
  apply (map_fold_weak_ind (fun acc (m : record) =>
    acc !! key = match retrievedData !! key with
                 | Some old => Some (default old (m !! key))
                 | None => None
                 end)).
  - rewrite lookup_empty. by destruct (retrievedData !! key).
  - intros i x m r Hi IH. unfold hasOwn.
    destruct (decide (i = key)) as [->|Hne].
    + rewrite lookup_insert_eq. case_bool_decide as Hown.
      * rewrite lookup_insert_eq. destruct Hown as [y Hy].
        rewrite IH in Hy. by destruct (retrievedData !! key).
      * rewrite IH in Hown |- *.
        destruct (retrievedData !! key); [|done].
        exfalso. apply Hown. eauto.
    + rewrite (lookup_insert_ne m) by done.
      case_bool_decide; [by rewrite lookup_insert_ne|done].
Qed.

Lemma apply_updates_untouched (newData retrievedData : record) (key : string) :
  newData !! key = None →
  apply_updates newData retrievedData !! key = retrievedData !! key.
Proof.
  intros Hnone. rewrite apply_updates_lookup, Hnone.
  by destruct (retrievedData !! key).
Qed.

(** ** The engine *)

Lemma evaluate_valid (kp : string) (v : record) (k : idbkey) :
  evaluate_key_path kp v = ValidKey k ↔ v !! kp = Some (key_to_js k).
Proof.
  unfold evaluate_key_path.
  destruct (v !! kp) as [[]|]; destruct k; simpl; split; intros; simplify_eq; done.
Qed.

Lemma store_a_record_succeeded no st cur key value k st' :
  store_a_record no st cur key value = Succeeded k st' →
  k = key ∧ st' = with_records st cur (<[key := value]> (records st)) ∧
  (no = true → records st !! key = None) ∧
  existsb (fun ix => index_conflict ix key value (records st)) (indexes st) = false.
Proof.
  unfold store_a_record. intros H.
  destruct (no && bool_decide (is_Some (records st !! key))) eqn:Hno; [done|].
  destruct (existsb _ _) eqn:Hex; [done|]. simplify_eq.
  repeat split; try done. intros ->. simpl in Hno.
  apply bool_decide_eq_false in Hno. by apply eq_None_not_Some.
Qed.

(** What a successful [add] or [put] leaves: the value, with its key at the
    key path, under that key. *)
Lemma add_or_put_succeeded no fault st value key st' :
  add_or_put no fault st value = Succeeded key st' →
  fault = None ∧
  records st' = <[key := <[keyPath st := key_to_js key]> value]> (records st) ∧
  keyPath st' = keyPath st ∧ autoIncrement st' = autoIncrement st ∧
  indexes st' = indexes st ∧
  (no = true → records st !! key = None) ∧
  existsb (fun ix => index_conflict ix key (<[keyPath st := key_to_js key]> value)
                       (records st)) (indexes st) = false.
Proof.
  unfold add_or_put. intros H.
  destruct (evaluate_key_path (keyPath st) value) as [|k|] eqn:Hk; [| |done].
  - destruct (autoIncrement st) eqn:Hauto; [|done]. destruct fault; [done|].
    destruct (max_generated <? currentNumber st); [done|].
    apply store_a_record_succeeded in H as (-> & -> & Hno & Hex). simpl.
    repeat split; done.
  - destruct fault; [done|].
    apply store_a_record_succeeded in H as (-> & -> & Hno & Hex). simpl.
    apply evaluate_valid in Hk. rewrite (insert_id value) by done.
    repeat split; done.
Qed.

(** Under which key a successful [add] or [put] stores: the in-line key of
    the value, or else the current number of the key generator. *)
Lemma add_or_put_key no fault st value key st' :
  add_or_put no fault st value = Succeeded key st' →
  match evaluate_key_path (keyPath st) value with
  | ValidKey k => key = k
  | NoKey => key = KNum (currentNumber st) ∧ currentNumber st ≤ max_generated
  | InvalidKey => False
  end.
Proof.
  unfold add_or_put. intros H.
  destruct (evaluate_key_path (keyPath st) value) as [|k|]; [| |done].
  - destruct (autoIncrement st); [|done]. destruct fault; [done|].
    destruct (Z.ltb_spec max_generated (currentNumber st)); [done|].
    by apply store_a_record_succeeded in H as (-> & _).
  - destruct fault; [done|].
    by apply store_a_record_succeeded in H as (-> & _).
Qed.

(** ** [update] *)

(** What [update] does once the read has succeeded, whatever the read found:
    it hands the merged record to [put] and resolves it when [put] succeeds. *)
Lemma update_after_read io storeName id newData createDefault _db store store' key :
  transaction _db (Stores storeName) = Some store →
  io 0%nat = None →
  store_put (io 1%nat) store
    (apply_updates newData (default (createDefault tt) (records store !! KNum id)))
  = Succeeded key store' →
  update io storeName id newData createDefault _db
  = finish (commit _db (Stores storeName) store')
      (deliver EvComplete
         (success_event
            (resolve (Some (apply_updates newData
                              (default (createDefault tt) (records store !! KNum id)))))
            (deliver EvSuccess pending))).
Proof.
  intros Hst Hio Hput. unfold update. rewrite Hst. unfold store_get. rewrite Hio.
  destruct (records store !! KNum id); simpl in *; by rewrite Hput.
Qed.








(** A store without a unique index accepts every write of a record that
    carries a valid key, so on [users] and [skills] an update that leaves
    the id alone cannot be refused. *)
Lemma store_put_accepted st value k :
  evaluate_key_path (keyPath st) value = ValidKey k →
  Forall (fun ix => unique ix = false) (indexes st) →
  ∃ st', store_put None st value = Succeeded k st'.
Proof.
  intros Hk Hix. unfold store_put, add_or_put, store_a_record. rewrite Hk. simpl.
  assert (existsb (fun ix => index_conflict ix k value (records st)) (indexes st)
          = false) as ->; [|by eexists].
  induction Hix as [|ix ixs Hu _ IH]; [done|]. simpl.
  unfold index_conflict at 1. by rewrite Hu.
Qed.

Corollary update_without_unique_index
    storeName id newData existing createDefault _db store :
  transaction _db (Stores storeName) = Some store →
  Forall (fun ix => unique ix = false) (indexes store) →
  records store !! KNum id = Some existing →
  evaluate_key_path (keyPath store) existing = ValidKey (KNum id) →
  newData !! keyPath store = None →
  result (update no_faults storeName id newData createDefault _db)
  = Resolved (Some (apply_updates newData existing)).
Proof.
  intros Hst Hix Hex Hinline Hid.
  destruct (store_put_accepted store (apply_updates newData existing) (KNum id))
    as [st' Hput]; [|done|].
  { apply evaluate_valid. rewrite apply_updates_untouched by done.
    by apply (evaluate_valid _ _ (KNum id)). }
  pose proof (update_after_read no_faults storeName id newData createDefault _db
                store st' (KNum id) Hst eq_refl) as Hrun.
  rewrite Hex in Hrun. simpl in Hrun. by rewrite (Hrun Hput).
Qed.

(** ** [create] and [get] *)

Lemma transaction_commit db storeName st :
  transaction (commit db storeName st) storeName = Some st.
Proof. unfold transaction, commit. simpl. apply lookup_insert_eq. Qed.

(** When [create] resolves an id, the engine has added the record under it. *)
Lemma create_resolved io storeName data _db store addedId :
  transaction _db (Stores storeName) = Some store →
  result (create io storeName data _db) = Resolved (Some addedId) →
  ∃ store',
    store_add (io 0%nat) store data = Succeeded addedId store' ∧
    database (create io storeName data _db) = commit _db (Stores storeName) store'.
Proof.
  intros Hst. unfold create. rewrite Hst.
  destruct (store_add (io 0%nat) store data) as [e|e|k store'] eqn:Hadd;
    simpl; [done|done|].
  intros [= <-]. by exists store'.
Qed.

(** C4.  A record that [create] has stored under the numeric id it resolved
    is what [get] resolves for that id afterwards: the record as given, with
    the id at the store's key field.  For an id that is not in the store
    [get] resolves [null]. *)
Theorem create_then_get
    (io io' : faults) (storeName : StoresTypes) (r : record)
    (_db : IDBDatabase) (store : IDBObjectStore) (id : Z) :
  transaction _db (Stores storeName) = Some store →
  result (create io storeName r _db) = Resolved (Some (KNum id)) →
  io' 0%nat = None →
  result (get io' storeName id (database (create io storeName r _db)))
  = Resolved (Some (<[keyPath store := JNum id]> r)) ∧
  (∀ field, field ≠ keyPath store →
     (<[keyPath store := JNum id]> r) !! field = r !! field) ∧
  (∀ (io'' : faults) (absent : Z),
     records store !! KNum absent = None →
     result (get io'' storeName absent _db) = Resolved None).
Proof.
  intros Hst Hres Hio.
  destruct (create_resolved _ _ _ _ _ _ Hst Hres) as (store' & Hadd & ->).
  apply add_or_put_succeeded in Hadd as (_ & Hrecs & _).
  split; [|split].
  - unfold get. rewrite transaction_commit. unfold store_get. rewrite Hio.
    simpl. by rewrite Hrecs, lookup_insert_eq.
  - intros field Hne. by rewrite lookup_insert_ne.
  - intros io'' absent Habs. unfold get. rewrite Hst. unfold store_get.
    destruct (io'' 0%nat); simpl; [done|]. by rewrite Habs.
Qed.

Lemma create_then_get_witness :
  result (get no_faults Users 2
            (database (create no_faults Users {[ "name" := JStr "Alice" ]} abc_db)))
  = Resolved (Some (<["userId" := JNum 2]> {[ "name" := JStr "Alice" ]})).
Proof.
  refine (proj1 (create_then_get no_faults no_faults Users
                   {[ "name" := JStr "Alice" ]} abc_db abc_store 2 _ _ _));
    vm_compute; reflexivity.
Defined.

(** ** [getAll] *)

#[global] Instance key_le_total : Total key_le.
Proof.
  intros [x|x] [y|y]; simpl; [lia|by left|by right|apply String.leb_total].
Qed.

#[global] Instance entry_le_total : Total entry_le.
Proof. intros a b. apply (total key_le). Qed.

(** The cursor handler only collects: a success event never settles the
    promise. *)
Lemma getAll_collecting storeName steps s :
  cursor_failed steps = false →
  settled (getAll_promise (fold_left (getAll_step storeName) steps s))
  = settled (getAll_promise s).
Proof.
  revert s. induction steps as [|step steps IH]; intros s Hok; [done|].
  simpl in Hok. apply orb_false_iff in Hok as [Hstep Hrest].
  simpl. rewrite IH by done. by destruct step.
Qed.

Lemma openCursor_served io n entries :
  (∀ k, io k = None) →
  openCursor io n entries = ((CursorAt <$> entries.*2) ++ [CursorNull])%list.
Proof.
  intros Hio. revert n. induction entries as [|[k v] rest IH]; intros n; simpl.
  - by rewrite Hio.
  - by rewrite Hio, IH.
Qed.

Lemma cursor_failed_served (values : list record) :
  cursor_failed ((CursorAt <$> values) ++ [CursorNull])%list = false.
Proof. induction values; simpl; auto. Qed.

Lemma cursor_failed_take k steps :
  cursor_failed steps = false → cursor_failed (take k steps) = false.
Proof.
  revert k. induction steps as [|step steps IH]; intros [|k] H; simpl in *; try done.
  apply orb_false_iff in H as [-> H]. simpl. by apply IH.
Qed.

Lemma getAll_collected storeName (values : list record) s :
  allRetrievedData
    (fold_left (getAll_step storeName) ((CursorAt <$> values) ++ [CursorNull])%list s)
  = (allRetrievedData s ++ values)%list.
Proof.
  revert s. induction values as [|v values IH]; intros s; simpl.
  - by rewrite app_nil_r.
  - rewrite IH. simpl. by rewrite <- app_assoc.
Qed.

(** With every cursor step served, [getAll] resolves the records in cursor
    order, and it does so at the completion of the transaction. *)
Lemma getAll_served io storeName _db store :
  transaction _db (Stores storeName) = Some store →
  (∀ k, io k = None) →
  result (getAll io storeName _db) = Resolved (Some (cursor_entries store).*2) ∧
  last (delivered (getAll io storeName _db)) = Some EvComplete ∧
  ∀ k, settled (getAll_promise
                  (fold_left (getAll_step storeName)
                     (take k (openCursor io 0 (cursor_entries store)))
                     getAll_start)) = None.
Proof.
  intros Hst Hio. unfold getAll. rewrite Hst.
  rewrite (openCursor_served io 0 _ Hio).
  rewrite cursor_failed_served. unfold finish, complete_event, resolve. simpl.
  rewrite getAll_collecting by apply cursor_failed_served. simpl.
  rewrite getAll_collected. simpl. split; [done|]. split.
  - apply last_snoc.
  - intros k. rewrite getAll_collecting; [done|].
    apply cursor_failed_take, cursor_failed_served.
Qed.

(** What a run of successful creates leaves in the store. *)
Lemma create_all_store storeName calls : ∀ _db store ids db',
  transaction _db (Stores storeName) = Some store →
  create_all storeName calls _db = Some (ids, db') →
  ∃ store',
    transaction db' (Stores storeName) = Some store' ∧
    keyPath store' = keyPath store ∧
    (inline_keys store → inline_keys store') ∧
    length ids = length calls ∧
    (map_to_list (records store')).*1 ≡ₚ (ids ++ (map_to_list (records store)).*1)%list.
Proof.
  induction calls as [|[io data] rest IH]; intros _db store ids db' Hst Hall.
  - simpl in Hall. simplify_eq. exists store. by repeat split.
  - simpl in Hall.
    destruct (result (create io storeName data _db)) as [[addedId|]| |] eqn:Hres;
      try done.
    destruct (create_resolved _ _ _ _ _ _ Hst Hres) as (store1 & Hadd & Hdb).
    rewrite Hdb in Hall.
    destruct (create_all storeName rest (commit _db (Stores storeName) store1))
      as [[ids' db'']|] eqn:Hrest; [|done].
    simplify_eq.
    destruct (IH _ store1 _ _ (transaction_commit _ _ _) Hrest)
      as (store' & Hst' & Hkp & Hinl & Hlen & Hperm).
    pose proof Hadd as Hkey. apply add_or_put_key in Hkey.
    apply add_or_put_succeeded in Hadd as (_ & Hrecs & Hkp1 & _ & _ & Hfresh & _).
    exists store'. split; [done|]. split; [congruence|]. split; [|split].
    + intros Hinline. apply Hinl. intros k r. rewrite Hrecs, Hkp1.
      destruct (decide (k = addedId)) as [->|Hne].
      * rewrite lookup_insert_eq. intros [= <-].
        apply evaluate_valid, lookup_insert_eq.
      * rewrite lookup_insert_ne by done. apply Hinline.
    + simpl. by rewrite Hlen.
    + rewrite Hperm, Hrecs.
      rewrite map_to_list_insert by auto. simpl.
      by rewrite Permutation_middle.
Qed.

Lemma inline_rows store (entries : list (idbkey * record)) :
  inline_keys store →
  (∀ k r, (k, r) ∈ entries → records store !! k = Some r) →
  (fun row => prop row (keyPath store)) <$> entries.*2 = key_to_js <$> entries.*1.
Proof.
  intros Hinl. induction entries as [|[k r] rest IH]; intros Hin; [done|].
  simpl. f_equal.
  - unfold prop. specialize (Hinl k r (Hin k r ltac:(left))).
    apply evaluate_valid in Hinl. by rewrite Hinl.
  - apply IH. intros k' r' H'. apply Hin. by right.
Qed.

#[global] Instance key_to_js_inj : Inj (=) (=) key_to_js.
Proof. intros [x|x] [y|y]; simpl; congruence. Qed.

(** C5.  After a run of creates into an empty store that all succeeded,
    [getAll] resolves as many records as there were creates; the ids they
    carry are the ids the creates returned, pairwise distinct and in
    ascending order; the promise is still unsettled after every step of the
    cursor and is resolved by the completion event of the transaction. *)
Theorem getAll_after_creates
    (storeName : StoresTypes) (calls : list (faults * record))
    (_db db' : IDBDatabase) (store : IDBObjectStore) (ids : list idbkey)
    (io : faults) :
  transaction _db (Stores storeName) = Some store →
  records store = ∅ →
  create_all storeName calls _db = Some (ids, db') →
  (∀ k, io k = None) →
  ∃ (rows : list record) (keys : list idbkey) (store' : IDBObjectStore),
    transaction db' (Stores storeName) = Some store' ∧
    result (getAll io storeName db') = Resolved (Some rows) ∧
    length rows = length calls ∧
    (fun row => prop row (keyPath store)) <$> rows = key_to_js <$> keys ∧
    keys ≡ₚ ids ∧ NoDup keys ∧ Sorted key_le keys ∧
    NoDup ((fun row => prop row (keyPath store)) <$> rows) ∧
    last (delivered (getAll io storeName db')) = Some EvComplete ∧
    ∀ k, settled (getAll_promise
                    (fold_left (getAll_step storeName)
                       (take k (openCursor io 0 (cursor_entries store')))
                       getAll_start)) = None.
Proof.
  intros Hst Hempty Hall Hio.
  destruct (create_all_store _ _ _ _ _ _ Hst Hall)
    as (store' & Hst' & Hkp & Hinl & Hlen & Hperm).
  rewrite Hempty, map_to_list_empty, app_nil_r in Hperm.
  assert (inline_keys store') as Hinline.
  { apply Hinl. intros k r. by rewrite Hempty, lookup_empty. }
  destruct (getAll_served io storeName db' store' Hst' Hio) as (Hres & Hlast & Hlate).
  assert (cursor_entries store' ≡ₚ map_to_list (records store')) as Hsorted
    by apply merge_sort_Permutation.
  assert (NoDup (cursor_entries store').*1) as Hnodup.
  { rewrite Hsorted. apply NoDup_fst_map_to_list. }
  assert ((fun row => prop row (keyPath store)) <$> (cursor_entries store').*2
          = key_to_js <$> (cursor_entries store').*1) as Hrows.
  { rewrite <- Hkp. apply inline_rows; [done|].
    intros k r Hin. rewrite Hsorted in Hin. by apply elem_of_map_to_list. }
  exists (cursor_entries store').*2, (cursor_entries store').*1, store'.
  split; [done|]. split; [done|].
  split. { rewrite length_fmap, <- Hlen, <- Hperm, <- Hsorted. by rewrite length_fmap. }
  split; [done|].
  split. { by rewrite Hsorted. }
  split; [done|].
  split. { apply (Sorted_fmap fst entry_le key_le); [done|]. apply Sorted_merge_sort, _. }
  split. { rewrite Hrows. by apply (NoDup_fmap_2 _). }
  done.
Qed.

Lemma getAll_after_creates_witness :
  ∃ rows, result (getAll no_faults Users three_created.2) = Resolved (Some rows) ∧
          length rows = 3%nat.
Proof.
  destruct (getAll_after_creates Users three_calls ready three_created.2
              (createObjectStore (Keys Users) true) three_created.1 no_faults)
    as (rows & keys & store' & _ & Hres & Hlen & _);
    [vm_compute; reflexivity ..|].
  exists rows. split; [exact Hres|exact Hlen].
Defined.

(** ** Failure *)

(** Membership in an explicit list of events. *)
Ltac events_cases H :=
  repeat (apply elem_of_cons in H as [H|H]; [try discriminate H|]);
  try (by apply elem_of_nil in H).


(** The steps of a cursor: records, then either the [null] cursor or one
    error. *)
Lemma openCursor_shape io n entries :
  ∃ values,
    openCursor io n entries = ((CursorAt <$> values) ++ [CursorNull])%list ∨
    ∃ e, openCursor io n entries = ((CursorAt <$> values) ++ [CursorError e])%list.
Proof.
  revert n. induction entries as [|[k v] rest IH]; intros n; simpl.
  - exists []. destruct (io n) as [e|]; [right; by exists e|by left].
  - destruct (io n) as [e|].
    + exists []. right. by exists e.
    + destruct (IH (S n)) as (values & [->|(e & ->)]).
      * exists (v :: values). by left.
      * exists (v :: values). right. by exists e.
Qed.


Lemma getAll_failed_settles storeName (values : list record) e s :
  settled (getAll_promise s) = None →
  settled (getAll_promise
             (fold_left (getAll_step storeName)
                ((CursorAt <$> values) ++ [CursorError e])%list s))
  = Some None.
Proof.
  revert s. induction values as [|v values IH]; intros s Hs; simpl.
  - unfold onerror, resolve. simpl. by rewrite Hs.
  - by apply IH.
Qed.

Lemma cursor_failed_error (values : list record) e :
  cursor_failed ((CursorAt <$> values) ++ [CursorError e])%list = true.
Proof. induction values; simpl; auto. Qed.

(** Each of the two observers is enough on its own: with only the handler
    of the request installed, or only the handler of the transaction, an
    error event settles a pending promise with the failure value. *)
Lemma either_observer_settles {R : Type} operation storeName (failure : R) e
    (p : promise R) :
  settled p = None →
  settled (error_event e (onerror operation storeName failure) (fun _ q => q)
             globalDatabaseErrorHandler p) = Some failure ∧
  settled (error_event e (fun _ q => q) (onerror operation storeName failure)
             globalDatabaseErrorHandler p) = Some failure.
Proof.
  intros Hp. unfold error_event, onerror, resolve. simpl. by rewrite Hp.
Qed.



(** An exception at the call that issues a request is not an error event:
    a record whose key field holds [null] makes [store.add] throw, the
    promise of db.ts is rejected, and it is [executeOperation] of the context
    that turns the rejection into [null]. *)
Example create_invalid_key_rejects :
  result (create no_faults Users {[ "userId" := JNull ]} abc_db) = Rejected DataError ∧
  delivered (create no_faults Users {[ "userId" := JNull ]} abc_db) = [] ∧
  result (DatabaseContext.create no_faults Users {[ "userId" := JNull ]} abc_db)
  = Resolved None.
Proof. repeat split; vm_compute; reflexivity. Qed.

(** A [put] that throws inside the success handler of the read leaves the
    promise of [update] pending. *)
Example update_invalid_key_hangs :
  result (update no_faults Users 1 {[ "userId" := JNull ]} (fun _ => ∅) abc_db) = Hung ∧
  database (update no_faults Users 1 {[ "userId" := JNull ]} (fun _ => ∅) abc_db)
  = abc_db.
Proof. split; vm_compute; reflexivity. Qed.

(** An update that would give a second record the pair of a first one is
    refused by the unique index and resolves [null]. *)
Example update_duplicate_pair_fails :
  result (update no_faults UserSkills 2 {[ "skillId" := JNum 1 ]} (fun _ => ∅)
            (database (create no_faults UserSkills
                         {[ "userId" := JNum 1; "skillId" := JNum 2 ]} linked)))
  = Resolved None.
Proof. vm_compute. reflexivity. Qed.

(** ** The context wrapper *)

Lemma context_create_result io store data _db :
  result (DatabaseContext.create io store data _db)
  = match result (create io store data _db) with
    | Resolved v => Resolved v
    | Rejected _ => Resolved None
    | Hung => Hung
    end ∧
  database (DatabaseContext.create io store data _db)
  = database (create io store data _db).
Proof.
  unfold DatabaseContext.create, DatabaseContext.nullable,
    DatabaseContext.executeOperation.
  by destruct (result (create io store data _db)).
Qed.

Lemma context_update_result io store id data createDefault _db :
  result (DatabaseContext.update io store id data createDefault _db)
  = match result (update io store id data createDefault _db) with
    | Resolved v => Resolved v
    | Rejected _ => Resolved None
    | Hung => Hung
    end ∧
  database (DatabaseContext.update io store id data createDefault _db)
  = database (update io store id data createDefault _db).
Proof.
  unfold DatabaseContext.update, DatabaseContext.nullable,
    DatabaseContext.executeOperation.
  by destruct (result (update io store id data createDefault _db)).
Qed.

Lemma context_remove_result io store id _db :
  result (DatabaseContext.remove io store id _db)
  = match result (remove io store id _db) with
    | Resolved v => Resolved (Some v)
    | Rejected _ => Resolved None
    | Hung => Hung
    end ∧
  database (DatabaseContext.remove io store id _db)
  = database (remove io store id _db).
Proof.
  unfold DatabaseContext.remove, DatabaseContext.executeOperation.
  by destruct (result (remove io store id _db)).
Qed.

(** An operation of the adapter that does not resolve its success value has
    left the database as it was: its transaction was aborted or never
    opened. *)
Lemma create_unchanged io store data _db :
  (∀ k, result (create io store data _db) ≠ Resolved (Some k)) →
  database (create io store data _db) = _db.
Proof.
  unfold create. destruct (transaction _db (Stores store)); [|done].
  destruct (store_add _ _ _) as [e|e|k st']; simpl; [done|done|].
  intros H. by destruct (H k).
Qed.

Lemma update_unchanged io store id data createDefault _db :
  (∀ r, result (update io store id data createDefault _db) ≠ Resolved (Some r)) →
  database (update io store id data createDefault _db) = _db.
Proof.
  unfold update. destruct (transaction _db (Stores store)); [|done].
  destruct (store_get _ _ _) as [e|e|found st0]; simpl; [done|done|].
  destruct (store_put _ _ _) as [e|e|k st']; simpl; [done|done|].
  intros H. by edestruct H.
Qed.

Lemma remove_unchanged io store id _db :
  result (remove io store id _db) ≠ Resolved true →
  database (remove io store id _db) = _db.
Proof.
  unfold remove. destruct (transaction _db (Stores store)); [|done].
  destruct (store_delete _ _ _) as [e|e|k st']; simpl; done.
Qed.

(** The optimistic operations change the database only through the adapter. *)
Lemma optimistic_stored store keyField io now random call prev _db :
  ∃ op, Hook.stored (optimistic store keyField io now random call prev _db)
        = database (perform io op _db).
Proof.
  destruct call as [newItem|id updates originalItem createDefault|id originalItem];
    simpl.
  - exists (OpCreate store newItem). simpl.
    unfold Hook.optimisticCreate, Hook.optimisticCreate_resume, Hook.failed.
    repeat case_match; simpl; apply context_create_result.
  - exists (OpUpdate store id updates createDefault). simpl.
    unfold Hook.optimisticUpdate, Hook.optimisticUpdate_resume, Hook.failed.
    repeat case_match; simpl; apply context_update_result.
  - exists (OpRemove store id). simpl.
    unfold Hook.optimisticDelete, Hook.optimisticDelete_resume, Hook.failed.
    repeat case_match; simpl; apply context_remove_result.
Qed.

(** ** The unique index of [userSkills] *)

Lemma Stores_inj s1 s2 : Stores s1 = Stores s2 → s1 = s2.
Proof. by destruct s1, s2. Qed.

Lemma transaction_commit_ne db s1 s2 st :
  s1 ≠ s2 → transaction (commit db (Stores s1) st) (Stores s2) = transaction db (Stores s2).
Proof.
  intros Hne. unfold transaction, commit. simpl.
  apply lookup_insert_ne. intros H. by apply Hne, Stores_inj.
Qed.

(** A write that the engine accepts keeps the pairs unique when the store has
    the unique index. *)
Lemma add_or_put_pairs no fault st value key st' :
  add_or_put no fault st value = Succeeded key st' →
  userSkill ∈ indexes st → pairs_unique st → pairs_unique st'.
Proof.
  intros Hput Hix Huniq.
  apply add_or_put_succeeded in Hput as (_ & Hrecs & _ & _ & _ & _ & Hok).
  set (stored := <[keyPath st := key_to_js key]> value) in *.
  assert (index_conflict userSkill key stored (records st) = false) as Hfree.
  { destruct (index_conflict userSkill key stored (records st)) eqn:Hc; [|done].
    assert (existsb (fun ix => index_conflict ix key stored (records st)) (indexes st)
            = true) as Hex; [|congruence].
    apply existsb_exists. exists userSkill. split; [|done].
    by apply list_elem_of_In. }
  unfold index_conflict in Hfree. simpl in Hfree.
  assert (∀ k r pair, records st !! k = Some r → k ≠ key →
            index_key userSkill r = Some pair →
            index_key userSkill stored = Some pair → False) as Hnew.
  { intros k r pair Hk Hne Hr Hs. rewrite Hs in Hfree.
    apply bool_decide_eq_false in Hfree. apply Hfree.
    exists k, r. split; [done|]. by split. }
  intros k1 k2 r1 r2 pair. rewrite Hrecs.
  destruct (decide (k1 = key)) as [->|Hne1], (decide (k2 = key)) as [->|Hne2];
    [done| | |].
  - rewrite lookup_insert_eq, lookup_insert_ne by done.
    intros [= <-] H2 Hp1 Hp2. exfalso. by eapply (Hnew k2 r2 pair).
  - rewrite lookup_insert_eq, lookup_insert_ne by done.
    intros H1 [= <-] Hp1 Hp2. exfalso. by eapply (Hnew k1 r1 pair).
  - rewrite !lookup_insert_ne by done. apply Huniq.
Qed.

Lemma add_or_put_indexes no fault st value key st' :
  add_or_put no fault st value = Succeeded key st' →
  keyPath st' = keyPath st ∧ autoIncrement st' = autoIncrement st ∧
  indexes st' = indexes st.
Proof. intros H. by apply add_or_put_succeeded in H as (_ & _ & ? & ? & ? & _). Qed.

(** The upgrade leaves an existing [userSkills] store alone and otherwise
    creates it empty, with the three indexes. *)
Lemma onupgradeneeded_userSkills db :
  transaction (onupgradeneeded db) (Stores UserSkills)
  = Some (default
            (createIndex "userSkill" ["userId"; "skillId"] true
               (createIndex "skillId" ["skillId"] false
                  (createIndex "userId" ["userId"] false
                     (createObjectStore (Keys UserSkills) true))))
            (transaction db (Stores UserSkills))).
Proof.
  unfold onupgradeneeded, add_store.
  set (db1 := if contains db (Stores Users) then db else _).
  set (db2 := if contains db1 (Stores Skills) then db1 else _).
  assert (transaction db2 (Stores UserSkills) = transaction db (Stores UserSkills))
    as Hsame.
  { unfold db2, db1.
    repeat match goal with |- context [contains ?d ?n] => destruct (contains d n) end;
      by rewrite ?(transaction_commit_ne _ Skills UserSkills),
                 ?(transaction_commit_ne _ Users UserSkills). }
  unfold contains. fold (transaction db2 (Stores UserSkills)). rewrite Hsame.
  destruct (transaction db (Stores UserSkills)) as [st|] eqn:Hst.
  - rewrite bool_decide_eq_true_2 by eauto. by rewrite Hsame.
  - rewrite bool_decide_eq_false_2 by (by intros [? ?]).
    by rewrite transaction_commit.
Qed.

Lemma commit_keeps db s st st' :
  transaction db (Stores s) = Some st →
  (keyPath st' = keyPath st ∧ autoIncrement st' = autoIncrement st ∧
   indexes st' = indexes st ∧
   (userSkill ∈ indexes st → pairs_unique st → pairs_unique st')) →
  declared db → one_per_pair db →
  declared (commit db (Stores s) st') ∧ one_per_pair (commit db (Stores s) st').
Proof.
  intros Hst (Hkp & Hauto & Hix & Hpairs) Hdecl Hone.
  destruct (decide (s = UserSkills)) as [->|Hne].
  - destruct (Hdecl st Hst) as (? & ? & ?).
    split; intros st2; rewrite transaction_commit; intros [= <-].
    + rewrite Hkp, Hauto, Hix. done.
    + apply Hpairs; [done|]. by apply Hone.
  - split; intros st2; rewrite transaction_commit_ne by done; auto.
Qed.

Lemma subset_keeps_pairs st cur (recs : gmap idbkey record) :
  recs ⊆ records st → pairs_unique st → pairs_unique (with_records st cur recs).
Proof.
  intros Hsub Huniq k1 k2 r1 r2 pair H1 H2. simpl in *.
  apply Huniq; by eapply lookup_weaken.
Qed.

(** Every operation of the adapter keeps the declaration of the store and
    the uniqueness of the pairs. *)
Lemma perform_keeps_pairs io op _db :
  declared _db → one_per_pair _db →
  declared (database (perform io op _db)) ∧
  one_per_pair (database (perform io op _db)).
Proof.
  intros Hdecl Hone.
  destruct op as [v|s data|s id|s|s id newData createDefault|s id|s]; simpl.
  - unfold initDB.
    destruct (_ <? 1); simpl; [done|].
    destruct (io 0%nat); simpl; [done|].
    destruct (_ <? version _db); simpl; [done|].
    destruct (version _db <? _); simpl; [|done].
    assert (∀ v', transaction {| version := v'; objectStores := objectStores _db |}
                    (Stores UserSkills)
                  = transaction _db (Stores UserSkills)) as Hsame by done.
    split; intros st; rewrite onupgradeneeded_userSkills, Hsame; intros [= <-];
      change (Stores UserSkills) with "userSkills" in *.
    + destruct (transaction _db "userSkills") as [st|] eqn:Hst; simpl.
      * by apply Hdecl.
      * split; [done|]. split; [done|]. set_solver.
    + destruct (transaction _db "userSkills") as [st|] eqn:Hst; simpl.
      * by apply Hone.
      * intros k1 k2 r1 r2 pair H1. simpl in H1. by rewrite lookup_empty in H1.
  - unfold create. destruct (transaction _db (Stores s)) as [store|] eqn:Hst; [|done].
    destruct (store_add (io 0%nat) store data) as [e|e|k store'] eqn:Hadd;
      simpl; [done|done|].
    apply (commit_keeps _ _ store); try done.
    destruct (add_or_put_indexes _ _ _ _ _ _ Hadd) as (? & ? & ?).
    repeat split; try done. by apply (add_or_put_pairs _ _ _ _ _ _ Hadd).
  - unfold get. destruct (transaction _db (Stores s)) as [store|]; [|done].
    by destruct (store_get (io 0%nat) store (KNum id)).
  - unfold getAll. destruct (transaction _db (Stores s)) as [store|]; [|done].
    by destruct (cursor_failed _).
  - unfold update. destruct (transaction _db (Stores s)) as [store|] eqn:Hst; [|done].
    destruct (store_get (io 0%nat) store (KNum id)) as [e|e|found st0];
      simpl; [done|done|].
    destruct (store_put _ _ _) as [e|e|k store'] eqn:Hput; simpl; [done|done|].
    apply (commit_keeps _ _ store); try done.
    destruct (add_or_put_indexes _ _ _ _ _ _ Hput) as (? & ? & ?).
    repeat split; try done. by apply (add_or_put_pairs _ _ _ _ _ _ Hput).
  - unfold remove. destruct (transaction _db (Stores s)) as [store|] eqn:Hst; [|done].
    unfold store_delete. destruct (io 0%nat); simpl; [done|].
    apply (commit_keeps _ _ store); try done.
    repeat split; try done.
    intros _ Huniq. apply subset_keeps_pairs; [apply delete_subseteq|done].
  - unfold clearStore. destruct (transaction _db (Stores s)) as [store|] eqn:Hst; [|done].
    unfold store_clear. destruct (io 0%nat); simpl; [done|].
    by apply (commit_keeps _ _ store).
Qed.

(** A second record with the pair of a stored one is refused by [add]. *)
Lemma store_add_duplicate_pair fault st k r data pair :
  autoIncrement st = true →
  userSkill ∈ indexes st →
  keyPath st ∉ indexKeyPath userSkill →
  records st !! k = Some r →
  index_key userSkill r = Some pair →
  index_key userSkill data = Some pair →
  evaluate_key_path (keyPath st) data ≠ InvalidKey →
  ∃ e, store_add fault st data = Failed e.
Proof.
  intros Hauto Hix Hkp Hk Hr Hdata Hvalid.
  destruct (store_add fault st data) as [e|e|key st'] eqn:Hadd.
  - exfalso. unfold store_add, add_or_put, store_a_record in Hadd.
    rewrite Hauto in Hadd. repeat case_match; done.
  - by exists e.
  - exfalso.
    apply add_or_put_succeeded in Hadd as (_ & _ & _ & _ & _ & Hfresh & Hok).
    specialize (Hfresh eq_refl).
    assert (index_conflict userSkill key (<[keyPath st := key_to_js key]> data)
              (records st) = true) as Hc.
    { unfold index_conflict. simpl.
      assert (index_key userSkill (<[keyPath st := key_to_js key]> data) = Some pair)
        as ->.
      { rewrite <- Hdata. unfold index_key, userSkill, evaluate_key_path. simpl.
        simpl in Hkp. rewrite !lookup_insert_ne by set_solver. done. }
      apply bool_decide_eq_true. exists k, r. split; [done|]. split; [|done].
      intros ->. congruence. }
    assert (existsb (fun ix => index_conflict ix key
                                 (<[keyPath st := key_to_js key]> data) (records st))
              (indexes st) = true) as Hex; [|congruence].
    apply existsb_exists. exists userSkill. split; [by apply list_elem_of_In|done].
Qed.

(** C6.  On a database whose [userSkills] store is as [initDB] declares it,
    at most one record per (userId, skillId) pair is an invariant of every
    operation of the adapter and of every optimistic operation on top of it;
    and a [create] of a record whose pair is already stored resolves [null]
    and leaves the database as it was. *)
Theorem userSkills_pairs_stay_unique
    (io : faults) (op : operation) (_db : IDBDatabase) :
  declared _db → one_per_pair _db →
  (declared (database (perform io op _db)) ∧
   one_per_pair (database (perform io op _db))) ∧
  (∀ store keyField now random call prev,
     one_per_pair (Hook.stored (optimistic store keyField io now random call prev _db))) ∧
  ∀ (st : IDBObjectStore) (k : idbkey) (r data : record) (pair : list idbkey),
    transaction _db (Stores UserSkills) = Some st →
    records st !! k = Some r →
    index_key userSkill r = Some pair →
    index_key userSkill data = Some pair →
    evaluate_key_path (keyPath st) data ≠ InvalidKey →
    result (create io UserSkills data _db) = Resolved None ∧
    database (create io UserSkills data _db) = _db.
Proof.
  intros Hdecl Hone. split; [by apply perform_keeps_pairs|]. split.
  { intros store keyField now random call prev.
    destruct (optimistic_stored store keyField io now random call prev _db)
      as [op' ->].
    by apply perform_keeps_pairs. }
  intros st k r data pair Hst Hk Hr Hdata Hvalid.
  destruct (Hdecl st Hst) as (Hkp & Hauto & Hix).
  destruct (store_add_duplicate_pair (io 0%nat) st k r data pair) as [e Hadd];
    try done.
  { rewrite Hkp. simpl. intros Hin. events_cases Hin. }
  unfold create. rewrite Hst, Hadd. done.
Qed.

(** The database that [initDB] sets up where there was none satisfies both. *)
Lemma initDB_declares v :
  declared (database (initDB None v blank)) ∧
  one_per_pair (database (initDB None v blank)).
Proof.
  apply (perform_keeps_pairs (fun _ => None) (OpInitDB v) blank);
    intros st Hst; unfold transaction in Hst; simpl in Hst;
    by rewrite lookup_empty in Hst.
Qed.

Lemma userSkills_pairs_stay_unique_witness :
  result (create no_faults UserSkills
            {[ "userId" := JNum 1; "skillId" := JNum 1;
               "proficiencyLevel" := JStr "expert" ]} linked)
  = Resolved None ∧
  database (create no_faults UserSkills
              {[ "userId" := JNum 1; "skillId" := JNum 1;
                 "proficiencyLevel" := JStr "expert" ]} linked)
  = linked.
Proof.
  assert (declared ready ∧ one_per_pair ready) as [Hdecl Hone]
    by apply initDB_declares.
  destruct (userSkills_pairs_stay_unique no_faults
              (OpCreate UserSkills link) ready Hdecl Hone) as [[Hdecl' Hone'] _].
  refine (proj2 (proj2 (userSkills_pairs_stay_unique no_faults (OpGetAll UserSkills)
                          linked Hdecl' Hone'))
            linked_store (KNum 1) (<["userSkillId" := JNum 1]> link) _ [KNum 1; KNum 1]
            _ _ _ _ _);
    vm_compute; try reflexivity. discriminate.
Defined.

(** ** The pending map *)

Lemma JSMap_get_set {V : Type} (key : string) (v : V) (m : JSMap.t V) :
  JSMap.get key (JSMap.set key v m) = Some v.
Proof.
  unfold JSMap.get. induction m as [|[k x] m IH]; simpl.
  - by rewrite String.eqb_refl.
  - destruct (String.eqb k key) eqn:Hk; simpl.
    + by rewrite String.eqb_refl.
    + by rewrite Hk.
Qed.

Lemma JSMap_set_set {V : Type} (key : string) (v w : V) (m : JSMap.t V) :
  JSMap.set key w (JSMap.set key v m) = JSMap.set key w m.
Proof.
  induction m as [|[k x] m IH]; simpl.
  - by rewrite String.eqb_refl.
  - destruct (String.eqb k key) eqn:Hk; simpl.
    + by rewrite String.eqb_refl.
    + by rewrite Hk, IH.
Qed.




(** ** [getOptimisticState] *)

(** What the code computes: the status of the first entry, in insertion
    order, whose snapshot id equals the id asked for or equals the temporary
    id of the entry itself. *)
Lemma getOptimisticState_first_match keyField itemId pending_ :
  Hook.getOptimisticState keyField itemId pending_ = None ↔
  ∀ op, In op (JSMap.values pending_) →
    prop (Hook.item op) keyField ≠ itemId ∧
    prop (Hook.item op) keyField ≠ Hook.temp_id (Hook.id op).
Proof.
  unfold Hook.getOptimisticState. split.
  - destruct (find _ _) eqn:Hfind; [done|]. intros _ op Hin.
    pose proof (find_none _ _ Hfind op Hin) as Hno.
    unfold Hook.matches, strict_eq in Hno.
    apply orb_false_iff in Hno as [H1 H2].
    by apply bool_decide_eq_false in H1, H2.
  - intros Hall. destruct (find _ _) as [op|] eqn:Hfind; [|done].
    apply find_some in Hfind as [Hin Hm]. destruct (Hall op Hin) as [H1 H2].
    unfold Hook.matches, strict_eq in Hm.
    apply orb_true_iff in Hm as [Hm|Hm]; by apply bool_decide_eq_true in Hm.
Qed.

(** A status that is returned is derived from an entry of the map that
    passes one of the two tests of the callback. *)
Lemma getOptimisticState_found keyField itemId pending_ state :
  Hook.getOptimisticState keyField itemId pending_ = Some state →
  ∃ op, In op (JSMap.values pending_) ∧
    (prop (Hook.item op) keyField = itemId ∨
     prop (Hook.item op) keyField = Hook.temp_id (Hook.id op)) ∧
    OptimisticState.isConfirmed state = Hook.confirmed op ∧
    OptimisticState.isError state = Hook.truthy_error (Hook.error op) ∧
    OptimisticState.isPending state
    = negb (Hook.confirmed op) && negb (Hook.truthy_error (Hook.error op)) ∧
    OptimisticState.action state = Hook.action op.
Proof.
  unfold Hook.getOptimisticState.
  destruct (find _ _) as [op|] eqn:Hfind; [|done]. intros [= <-].
  apply find_some in Hfind as [Hin Hm]. exists op. split; [done|].
  split; [|done]. unfold Hook.matches, strict_eq in Hm.
  apply orb_true_iff in Hm as [Hm|Hm]; apply bool_decide_eq_true in Hm; auto.
Qed.

(** [hasPendingOperation] says whether [getOptimisticState] finds an entry. *)
Lemma hasPendingOperation_getOptimisticState keyField itemId pending_ :
  Hook.hasPendingOperation keyField itemId pending_
  = bool_decide (is_Some (Hook.getOptimisticState keyField itemId pending_)).
Proof.
  unfold Hook.hasPendingOperation, Hook.getOptimisticState.
  induction (JSMap.values pending_) as [|op ops IH]; simpl.
  - done.
  - by destruct (Hook.matches keyField itemId op).
Qed.

(** C2, at a concrete input.  One create is pending, so its snapshot carries
    its own temporary id.  Asked about record 42, which no entry is about, the
    lookup answers with the status of that create: the second test of the
    callback does not mention the id that is asked for. *)
Theorem getOptimisticState_answers_for_unrelated_record :
  Hook.getOptimisticState "userId" (JNum 42) alice_pending
  = Some {| OptimisticState.isPending := true;
            OptimisticState.isError := false;
            OptimisticState.isConfirmed := false;
            OptimisticState.error := None;
            OptimisticState.action := OptimisticState.Create |} ∧
  (∀ op, In op (JSMap.values alice_pending) →
     prop (Hook.item op) "userId" ≠ JNum 42) ∧
  Hook.getOptimisticState "userId" (JNum 42)
    (alice_pending ++ [(Hook.id bob_confirmed, bob_confirmed)])%list
  = Some {| OptimisticState.isPending := true;
            OptimisticState.isError := false;
            OptimisticState.isConfirmed := false;
            OptimisticState.error := None;
            OptimisticState.action := OptimisticState.Create |}.
Proof.
  split; [vm_compute; reflexivity|]. split; [|vm_compute; reflexivity].
  intros op [<-|[]]. vm_compute. discriminate.
Qed.

(** A create that failed stays in the map with its temporary id until it is
    cleared, and answers every later lookup: here the lookup of the id that
    a second, successful create was given. *)
Example failed_create_shadows_later_lookups :
  let after_failure :=
    Hook.pendingOperations
      (Hook.optimisticCreate Users "userId" failing 1700000000000 "k3j9x2m1q"
         {[ "name" := JStr "Alice" ]} [] abc_db) in
  let after_success :=
    Hook.pendingOperations
      (Hook.optimisticCreate Users "userId" no_faults 1700000000500 "p0o9i8u7y"
         {[ "name" := JStr "Bob" ]} after_failure abc_db) in
  OptimisticState.isError <$> Hook.getOptimisticState "userId" (JNum 2) after_success
  = Some true ∧
  OptimisticState.isConfirmed <$> Hook.getOptimisticState "userId" (JNum 2) after_success
  = Some false.
Proof. split; vm_compute; reflexivity. Qed.

(** ** The optimistic operations *)

Lemma mark_error_registered (entry : Hook.PendingOperation) msg prev operationId :
  Hook.id entry = operationId →
  JSMap.get operationId
    (Hook.mark_error operationId msg (Hook.register entry prev))
  = Some {| Hook.id := Hook.id entry; Hook.action := Hook.action entry;
            Hook.item := Hook.item entry;
            Hook.originalItem := Hook.originalItem entry;
            Hook.confirmed := Hook.confirmed entry; Hook.error := Some msg |}.
Proof.
  intros <-. unfold Hook.mark_error, Hook.register.
  rewrite JSMap_get_set. apply JSMap_get_set.
Qed.

Local Opaque DatabaseContext.create DatabaseContext.update DatabaseContext.remove.

(** C9.  When the storage call under an optimistic create, update or delete
    fails, the database is what it was before the call, so that [getAll]
    gives the same before and after; the entry of the operation in the
    pending map carries the error and is not confirmed; and the caller gets
    [{ success: false, error, operationId }]. *)
Theorem optimistic_failure_leaves_storage
    (store : StoresTypes) (keyField : string) (io : faults) (now : Z)
    (random : string) (call : optimistic_call)
    (prev : JSMap.t Hook.PendingOperation) (_db : IDBDatabase) :
  storage_failed store io call _db →
  Hook.stored (optimistic store keyField io now random call prev _db) = _db ∧
  (∀ io' s,
     getAll io' s (Hook.stored (optimistic store keyField io now random call prev _db))
     = getAll io' s _db) ∧
  Hook.returned (optimistic store keyField io now random call prev _db)
  = Resolved {| Hook.success := false; Hook.returned_item := None;
                Hook.returned_error := Some Hook.operation_failed;
                Hook.operationId := Hook.generateOperationId now random |} ∧
  ∃ entry,
    JSMap.get (Hook.generateOperationId now random)
      (Hook.pendingOperations (optimistic store keyField io now random call prev _db))
    = Some entry ∧
    Hook.error entry = Some Hook.operation_failed ∧
    Hook.confirmed entry = false.
Proof.
  intros Hfail.
  assert (Hook.stored (optimistic store keyField io now random call prev _db) = _db)
    as Hsame.
  { destruct call as [newItem|id updates originalItem createDefault|id originalItem];
      unfold storage_failed, optimistic in *.
    - unfold Hook.optimisticCreate, Hook.optimisticCreate_resume. rewrite Hfail.
      destruct (context_create_result io store newItem _db) as [Hres Hdb].
      rewrite Hfail in Hres. simpl. rewrite Hdb.
      apply create_unchanged. intros k Hk. by rewrite Hk in Hres.
    - unfold Hook.optimisticUpdate, Hook.optimisticUpdate_resume. rewrite Hfail.
      destruct (context_update_result io store id updates createDefault _db)
        as [Hres Hdb].
      rewrite Hfail in Hres. simpl. rewrite Hdb.
      apply update_unchanged. intros k Hk. by rewrite Hk in Hres.
    - unfold Hook.optimisticDelete, Hook.optimisticDelete_resume.
      destruct (context_remove_result io store id _db) as [Hres Hdb].
      assert (result (remove io store id _db) ≠ Resolved true) as Hnot.
      { intros Hk. rewrite Hk in Hres. destruct Hfail; congruence. }
      destruct Hfail as [Hfail|Hfail]; rewrite Hfail; simpl; rewrite Hdb;
        by apply remove_unchanged. }
  split; [done|]. split; [intros io' s; by rewrite Hsame|].
  destruct call as [newItem|id updates originalItem createDefault|id originalItem];
    unfold storage_failed, optimistic in *.
  - unfold Hook.optimisticCreate, Hook.optimisticCreate_resume,
      Hook.optimisticCreate_begin.
    rewrite Hfail. simpl. split; [done|].
    eexists. split; [by apply mark_error_registered|done].
  - unfold Hook.optimisticUpdate, Hook.optimisticUpdate_resume,
      Hook.optimisticUpdate_begin.
    rewrite Hfail. simpl. split; [done|].
    eexists. split; [by apply mark_error_registered|done].
  - unfold Hook.optimisticDelete, Hook.optimisticDelete_resume,
      Hook.optimisticDelete_begin.
    destruct Hfail as [Hfail|Hfail]; rewrite Hfail; simpl; (split; [done|]);
      eexists; (split; [by apply mark_error_registered|done]).
Qed.

Local Transparent DatabaseContext.create DatabaseContext.update DatabaseContext.remove.

Lemma optimistic_failure_leaves_storage_witness :
  Hook.stored (optimistic Users "userId" failing 1700000000000 "k3j9x2m1q"
                 (OptimisticDelete 1 abc) [] abc_db) = abc_db.
Proof.
  refine (proj1 (optimistic_failure_leaves_storage Users "userId" failing
                   1700000000000 "k3j9x2m1q" (OptimisticDelete 1 abc) [] abc_db _)).
  right. vm_compute. reflexivity.
Defined.

Lemma mark_confirmed_registered (entry : Hook.PendingOperation) snapshot prev :
  Hook.mark_confirmed (Hook.id entry) snapshot (Hook.register entry prev)
  = JSMap.set (Hook.id entry)
      {| Hook.id := Hook.id entry; Hook.action := Hook.action entry;
         Hook.item := default (Hook.item entry) snapshot;
         Hook.originalItem := Hook.originalItem entry;
         Hook.confirmed := true; Hook.error := Hook.error entry |} prev.
Proof.
  unfold Hook.mark_confirmed, Hook.register.
  rewrite JSMap_get_set. apply JSMap_set_set.
Qed.




(** * Further properties *)

(** ** Soundness of the stores *)

Lemma add_or_put_generator no fault st value key st' :
  autoIncrement st = true →
  add_or_put no fault st value = Succeeded key st' →
  currentNumber st ≤ currentNumber st' ∧
  match key with
  | KNum n => Z.min n max_generated < currentNumber st'
  | KStr _ => True
  end.
Proof.
  intros Hauto. unfold add_or_put. rewrite Hauto.
  destruct (evaluate_key_path (keyPath st) value) as [|k|]; [| |done].
  - destruct fault; [done|].
    destruct (Z.ltb_spec max_generated (currentNumber st)); [done|].
    intros (-> & -> & _)%store_a_record_succeeded. simpl. lia.
  - destruct fault; [done|].
    intros (-> & -> & _)%store_a_record_succeeded. simpl.
    unfold possibly_update_key_generator. destruct k as [n|s]; [|split; [lia|done]].
    simpl. destruct (Z.leb_spec (currentNumber st) (Z.min n max_generated)); lia.
Qed.

Lemma add_or_put_sound s no fault st value key st' :
  add_or_put no fault st value = Succeeded key st' →
  store_sound s st → store_sound s st'.
Proof.
  intros Hput (Hkp & Hauto & Hpos & Hahead & Hinline).
  destruct (add_or_put_generator _ _ _ _ _ _ Hauto Hput) as [Hmono Hkey].
  apply add_or_put_succeeded in Hput as (_ & Hrecs & Hkp' & Hauto' & _).
  split; [congruence|]. split; [congruence|]. split; [lia|]. split.
  - intros n r. rewrite Hrecs.
    destruct (decide (key = KNum n)) as [->|Hne].
    + done.
    + rewrite lookup_insert_ne by done. intros Hn%Hahead. lia.
  - intros k r. rewrite Hrecs, Hkp'.
    destruct (decide (key = k)) as [->|Hne].
    + rewrite lookup_insert_eq. intros [= <-].
      apply evaluate_valid, lookup_insert_eq.
    + rewrite lookup_insert_ne by done. apply Hinline.
Qed.

Lemma subset_sound s st cur (recs : gmap idbkey record) :
  recs ⊆ records st → currentNumber st ≤ cur →
  store_sound s st → store_sound s (with_records st cur recs).
Proof.
  intros Hsub Hcur (Hkp & Hauto & Hpos & Hahead & Hinline).
  split; [done|]. split; [done|]. split; [simpl; lia|]. split.
  - intros n r Hn. simpl in Hn. eapply lookup_weaken in Hn; [|done].
    apply Hahead in Hn. simpl. lia.
  - intros k r Hk. simpl in Hk. eapply lookup_weaken in Hk; [|done]. by apply Hinline.
Qed.

Lemma createObjectStore_sound s :
  store_sound s (createObjectStore (Keys s) true).
Proof. repeat split; simpl; try done; intros ? ? H; by rewrite lookup_empty in H. Qed.

Lemma createIndex_sound s name path u st :
  store_sound s st → store_sound s (createIndex name path u st).
Proof. intros (? & ? & ? & ? & ?). by repeat split. Qed.

Lemma commit_sound db s st' :
  store_sound s st' → sound db → sound (commit db (Stores s) st').
Proof.
  intros Hst' Hdb s2 st2. destruct (decide (s = s2)) as [<-|Hne].
  - rewrite transaction_commit. by intros [= <-].
  - rewrite transaction_commit_ne by done. apply Hdb.
Qed.

Lemma onupgradeneeded_sound db : sound db → sound (onupgradeneeded db).
Proof.
  intros Hdb. unfold onupgradeneeded, add_store.
  repeat match goal with
         | |- context [contains ?d ?n] => destruct (contains d n)
         end;
    repeat first
      [ assumption
      | apply (commit_sound _ Users); [apply createObjectStore_sound|]
      | apply (commit_sound _ Skills); [apply createObjectStore_sound|]
      | apply (commit_sound _ UserSkills);
        [repeat apply createIndex_sound; apply createObjectStore_sound|] ].
Qed.

Lemma sound_blank : sound blank.
Proof. intros s st H. unfold transaction in H. simpl in H. by rewrite lookup_empty in H. Qed.

Lemma perform_sound (io : faults) (op : operation) (_db : IDBDatabase) :
  sound _db → sound (database (perform io op _db)).
Proof.
  intros Hdb.
  destruct op as [v|s data|s id|s|s id newData createDefault|s id|s]; simpl.
  - unfold initDB.
    destruct (_ <? 1); simpl; [done|].
    destruct (io 0%nat); simpl; [done|].
    destruct (_ <? version _db); simpl; [done|].
    destruct (version _db <? _); simpl; [|done].
    by apply onupgradeneeded_sound.
  - unfold create. destruct (transaction _db (Stores s)) as [store|] eqn:Hst; [|done].
    destruct (store_add (io 0%nat) store data) as [e|e|k store'] eqn:Hadd;
      simpl; [done|done|].
    apply commit_sound; [|done]. eapply add_or_put_sound; [exact Hadd|by apply Hdb].
  - unfold get. destruct (transaction _db (Stores s)) as [store|]; [|done].
    by destruct (store_get (io 0%nat) store (KNum id)).
  - unfold getAll. destruct (transaction _db (Stores s)) as [store|]; [|done].
    by destruct (cursor_failed _).
  - unfold update. destruct (transaction _db (Stores s)) as [store|] eqn:Hst; [|done].
    destruct (store_get (io 0%nat) store (KNum id)) as [e|e|found st0];
      simpl; [done|done|].
    destruct (store_put _ _ _) as [e|e|k store'] eqn:Hput; simpl; [done|done|].
    apply commit_sound; [|done]. eapply add_or_put_sound; [exact Hput|by apply Hdb].
  - unfold remove. destruct (transaction _db (Stores s)) as [store|] eqn:Hst; [|done].
    unfold store_delete. destruct (io 0%nat); simpl; [done|].
    apply commit_sound; [|done].
    apply subset_sound; [apply delete_subseteq|lia|by apply Hdb].
  - unfold clearStore. destruct (transaction _db (Stores s)) as [store|] eqn:Hst; [|done].
    unfold store_clear. destruct (io 0%nat); simpl; [done|].
    apply commit_sound; [|done].
    apply subset_sound; [apply map_empty_subseteq|lia|by apply Hdb].
Qed.

Lemma perform_all_sound calls : ∀ _db, sound _db → sound (perform_all calls _db).
Proof.
  induction calls as [|[io op] rest IH]; intros _db Hdb; [done|].
  apply IH. by apply perform_sound.
Qed.

Lemma sound_ready : sound ready.
Proof. apply (perform_sound no_faults (OpInitDB None) blank), sound_blank. Qed.

(** X1.  Whatever the application does through the adapter, and whatever
    faults the engine raises meanwhile, the stores stay as [initDB] made
    them: each keeps its key field and its key generator, the generator is
    positive and ahead of every numeric key in the store, and every record
    carries its own key at the key field. *)
Theorem history_keeps_stores_sound
    (calls : list (faults * operation)) (_db : IDBDatabase) :
  sound _db → sound (perform_all calls _db).
Proof.
  revert _db. induction calls as [|[io op] rest IH]; intros _db Hdb; [done|].
  apply IH. by apply perform_sound.
Qed.

Lemma history_keeps_stores_sound_witness :
  sound (perform_all [ (no_faults, OpInitDB None);
                       (no_faults, OpCreate Users {[ "name" := JStr "Alice" ]});
                       (failing, OpCreate Users {[ "name" := JStr "Bob" ]});
                       (no_faults, OpRemove Users 1) ] blank).
Proof.
  apply history_keeps_stores_sound.
  intros s st H. vm_compute in H. discriminate.
Defined.

(** ** The key generator *)

Lemma add_or_put_monotone no fault st value key st' :
  add_or_put no fault st value = Succeeded key st' →
  currentNumber st ≤ currentNumber st'.
Proof.
  unfold add_or_put.
  destruct (evaluate_key_path (keyPath st) value) as [|k|]; [| |done].
  - destruct (autoIncrement st); [|done]. destruct fault; [done|].
    destruct (Z.ltb_spec max_generated (currentNumber st)); [done|].
    intros (-> & -> & _)%store_a_record_succeeded. simpl. lia.
  - destruct fault; [done|].
    intros (-> & -> & _)%store_a_record_succeeded. simpl.
    destruct (autoIncrement st); [|lia].
    unfold possibly_update_key_generator. destruct k as [n|s]; [|lia].
    simpl. destruct (Z.leb_spec (currentNumber st) (Z.min n max_generated)); lia.
Qed.

Lemma onupgradeneeded_keeps db name st :
  transaction db name = Some st → transaction (onupgradeneeded db) name = Some st.
Proof.
  intros Hst. unfold onupgradeneeded, add_store.
  assert (∀ d n x, transaction d name = Some st →
            transaction (if contains d n then d else commit d n x) name = Some st)
    as Hstep.
  { intros d n x Hd. unfold contains. case_bool_decide as Hn; [done|].
    unfold transaction, commit in *. simpl.
    rewrite lookup_insert_ne; [done|]. intros ->. apply Hn. by rewrite Hd. }
  by repeat apply Hstep.
Qed.

Lemma commit_generator db name name' st st' old :
  transaction db name = Some old → currentNumber old ≤ currentNumber st' →
  transaction db name' = Some st →
  ∃ st2, transaction (commit db name st') name' = Some st2 ∧
         currentNumber st ≤ currentNumber st2.
Proof.
  intros Hold Hle Hst. unfold transaction, commit in *. simpl.
  destruct (decide (name = name')) as [<-|Hne].
  - rewrite lookup_insert_eq. exists st'. split; [done|]. by simplify_eq.
  - rewrite lookup_insert_ne by done. by exists st.
Qed.

(** No operation drops a store or moves its key generator back. *)
Lemma perform_generator io op _db name st :
  transaction _db name = Some st →
  ∃ st', transaction (database (perform io op _db)) name = Some st' ∧
         currentNumber st ≤ currentNumber st'.
Proof.
  intros Hst.
  assert (∃ st', transaction _db name = Some st' ∧
                 currentNumber st ≤ currentNumber st') as Hsame
    by (by exists st).
  destruct op as [v|s data|s id|s|s id newData createDefault|s id|s]; simpl.
  - unfold initDB.
    destruct (_ <? 1); simpl; [done|].
    destruct (io 0%nat); simpl; [done|].
    destruct (_ <? version _db); simpl; [done|].
    destruct (version _db <? _); simpl; [|done].
    exists st. split; [|done]. by apply onupgradeneeded_keeps.
  - unfold create. destruct (transaction _db (Stores s)) as [store|] eqn:Hs; [|done].
    destruct (store_add (io 0%nat) store data) as [e|e|k store'] eqn:Hadd;
      simpl; [done|done|].
    eapply commit_generator; [done| |done]. by eapply add_or_put_monotone.
  - unfold get. destruct (transaction _db (Stores s)) as [store|]; [|done].
    by destruct (store_get (io 0%nat) store (KNum id)).
  - unfold getAll. destruct (transaction _db (Stores s)) as [store|]; [|done].
    by destruct (cursor_failed _).
  - unfold update. destruct (transaction _db (Stores s)) as [store|] eqn:Hs; [|done].
    destruct (store_get (io 0%nat) store (KNum id)) as [e|e|found st0];
      simpl; [done|done|].
    destruct (store_put _ _ _) as [e|e|k store'] eqn:Hput; simpl; [done|done|].
    eapply commit_generator; [done| |done]. by eapply add_or_put_monotone.
  - unfold remove. destruct (transaction _db (Stores s)) as [store|] eqn:Hs; [|done].
    unfold store_delete. destruct (io 0%nat); simpl; [done|].
    eapply commit_generator; [done| |done]. simpl. lia.
  - unfold clearStore. destruct (transaction _db (Stores s)) as [store|] eqn:Hs; [|done].
    unfold store_clear. destruct (io 0%nat); simpl; [done|].
    eapply commit_generator; [done| |done]. simpl. lia.
Qed.

Lemma perform_all_generator calls : ∀ _db name st,
  transaction _db name = Some st →
  ∃ st', transaction (perform_all calls _db) name = Some st' ∧
         currentNumber st ≤ currentNumber st'.
Proof.
  induction calls as [|[io op] rest IH]; intros _db name st Hst; [by exists st|].
  destruct (perform_generator io op _db name st Hst) as (st1 & Hst1 & Hle1).
  destruct (IH _ name st1 Hst1) as (st2 & Hst2 & Hle2).
  exists st2. split; [done|lia].
Qed.

(** A record without a key gets the current number of the generator. *)
Lemma create_generated io s data _db store addedId :
  transaction _db (Stores s) = Some store →
  evaluate_key_path (keyPath store) data = NoKey →
  result (create io s data _db) = Resolved (Some addedId) →
  addedId = KNum (currentNumber store) ∧
  ∃ store', transaction (database (create io s data _db)) (Stores s) = Some store' ∧
            currentNumber store' = currentNumber store + 1.
Proof.
  intros Hst Hkey Hres.
  destruct (create_resolved _ _ _ _ _ _ Hst Hres) as (store' & Hadd & ->).
  unfold store_add, add_or_put in Hadd. rewrite Hkey in Hadd.
  destruct (autoIncrement store); [|done]. destruct (io 0%nat); [done|].
  destruct (max_generated <? currentNumber store); [done|].
  apply store_a_record_succeeded in Hadd as (-> & -> & _).
  split; [done|]. exists (with_records store (currentNumber store + 1)
    (<[KNum (currentNumber store) :=
         <[keyPath store := JNum (currentNumber store)]> data]> (records store))).
  by rewrite transaction_commit.
Qed.

(** X2.  An id that [create] generated is never generated again: whatever
    happens in between, removals and [clearStore] included, a later [create]
    of a record without id in the same store resolves a greater number. *)
Theorem generated_ids_never_reused
    (s : StoresTypes) (io1 io2 : faults) (data1 data2 : record)
    (between : list (faults * operation)) (_db : IDBDatabase) (id1 id2 : idbkey) :
  sound _db →
  evaluate_key_path (Keys s) data1 = NoKey →
  evaluate_key_path (Keys s) data2 = NoKey →
  result (create io1 s data1 _db) = Resolved (Some id1) →
  result (create io2 s data2
            (perform_all between (database (create io1 s data1 _db))))
  = Resolved (Some id2) →
  ∃ n1 n2, id1 = KNum n1 ∧ id2 = KNum n2 ∧ n1 < n2.
Proof.
  intros Hdb Hk1 Hk2 Hres1 Hres2.
  destruct (transaction _db (Stores s)) as [store|] eqn:Hst;
    [|by unfold create in Hres1; rewrite Hst in Hres1].
  destruct (Hdb s store Hst) as (Hkp & _).
  rewrite <- Hkp in Hk1.
  destruct (create_generated _ _ _ _ _ _ Hst Hk1 Hres1) as (-> & store1 & Hst1 & Hcur1).
  destruct (perform_all_generator between _ _ _ Hst1) as (store2 & Hst2 & Hle).
  assert (sound (perform_all between (database (create io1 s data1 _db)))) as Hdb2.
  { apply perform_all_sound. by apply (perform_sound io1 (OpCreate s data1)). }
  destruct (Hdb2 s store2 Hst2) as (Hkp2 & _).
  rewrite <- Hkp2 in Hk2.
  destruct (create_generated _ _ _ _ _ _ Hst2 Hk2 Hres2) as (-> & _).
  eexists _, _. split; [done|]. split; [done|]. lia.
Qed.

Lemma generated_ids_never_reused_witness :
  ∃ n1 n2, KNum 1 = KNum n1 ∧ KNum 2 = KNum n2 ∧ n1 < n2.
Proof.
  apply (generated_ids_never_reused Users no_faults no_faults
           {[ "name" := JStr "Alice" ]} {[ "name" := JStr "Bob" ]}
           [ (no_faults, OpRemove Users 1); (no_faults, OpClearStore Users) ]
           ready (KNum 1) (KNum 2)).
  - apply sound_ready.
  - reflexivity.
  - reflexivity.
  - vm_compute. reflexivity.
  - vm_compute. reflexivity.
Defined.

(** ** [create] on a store without unique index *)

Lemma no_conflict st key value :
  no_unique_index st →
  existsb (fun ix => index_conflict ix key value (records st)) (indexes st) = false.
Proof.
  unfold no_unique_index. induction 1 as [|ix ixs Hu _ IH]; [done|]. simpl.
  unfold index_conflict at 1. by rewrite Hu.
Qed.

Lemma create_generates (fault : faults) (s : StoresTypes) (data : record)
    (_db : IDBDatabase) (store : IDBObjectStore) :
  sound _db →
  transaction _db (Stores s) = Some store →
  no_unique_index store →
  evaluate_key_path (Keys s) data = NoKey →
  fault 0%nat = None →
  currentNumber store ≤ max_generated →
  records store !! KNum (currentNumber store) = None ∧
  create fault s data _db
  = finish (commit _db (Stores s)
              (with_records store (currentNumber store + 1)
                 (<[KNum (currentNumber store) :=
                      <[Keys s := JNum (currentNumber store)]> data]>
                    (records store))))
      (deliver EvComplete
         (success_event (resolve (Some (KNum (currentNumber store)))) pending)).
Proof.
  intros Hdb Hst Hix Hkey Hio Hmax.
  destruct (Hdb s store Hst) as (Hkp & Hauto & _ & Hahead & _).
  assert (records store !! KNum (currentNumber store) = None) as Hfresh.
  { destruct (records store !! KNum (currentNumber store)) as [r|] eqn:Hr; [|done].
    apply Hahead in Hr. lia. }
  split; [done|].
  unfold create. rewrite Hst. unfold store_add, add_or_put.
  rewrite Hkp, Hkey, Hauto, Hio.
  destruct (Z.ltb_spec max_generated (currentNumber store)); [lia|].
  unfold store_a_record. rewrite Hfresh.
  rewrite bool_decide_eq_false_2 by (by intros [? ?]). simpl.
  by rewrite no_conflict.
Qed.



(** ** [remove] and [clearStore] *)

Lemma with_records_same st :
  with_records st (currentNumber st) (records st) = st.
Proof. by destruct st. Qed.

Lemma commit_same db name st :
  transaction db name = Some st → commit db name st = db.
Proof.
  intros Hst. destruct db as [v stores]. unfold commit, transaction in *. simpl in *.
  f_equal. by apply insert_id.
Qed.

Lemma remove_deletes_record io s id _db store :
  transaction _db (Stores s) = Some store →
  io 0%nat = None →
  result (remove io s id _db) = Resolved true ∧
  ∀ io' : faults, io' 0%nat = None →
    result (get io' s id (database (remove io s id _db))) = Resolved None.
Proof.
  intros Hst Hio. unfold remove. rewrite Hst. unfold store_delete.
  rewrite Hio. simpl. split; [done|].
  intros io' Hio'. unfold get. rewrite transaction_commit. unfold store_get.
  rewrite Hio'. simpl. by rewrite lookup_delete_eq.
Qed.

(** X4.  [remove] resolves [true] whether or not the id is in the store.
    Afterwards [get] resolves [null] for that id, every other record of the
    store reads as before, and no other store has changed: nothing that
    refers to the removed record is removed with it.  Removing an id that is
    not in the store leaves the database exactly as it was. *)
Theorem remove_deletes_only_that_record
    (io : faults) (s : StoresTypes) (id : Z) (_db : IDBDatabase)
    (store : IDBObjectStore) :
  transaction _db (Stores s) = Some store →
  io 0%nat = None →
  let db' := database (remove io s id _db) in
  result (remove io s id _db) = Resolved true ∧
  (∀ io' : faults, io' 0%nat = None → result (get io' s id db') = Resolved None) ∧
  (∀ (io' : faults) (other : Z), other ≠ id →
     result (get io' s other db') = result (get io' s other _db)) ∧
  (∀ s', s' ≠ s → transaction db' (Stores s') = transaction _db (Stores s')) ∧
  (records store !! KNum id = None → db' = _db).
Proof.
  intros Hst Hio db'. subst db'. unfold remove. rewrite Hst. unfold store_delete.
  rewrite Hio. simpl. split; [done|]. split; [|split; [|split]].
  - intros io' Hio'. unfold get. rewrite transaction_commit. unfold store_get.
    rewrite Hio'. simpl. by rewrite lookup_delete_eq.
  - intros io' other Hne. unfold get. rewrite transaction_commit, Hst.
    unfold store_get. destruct (io' 0%nat); simpl; [done|].
    rewrite lookup_delete_ne; [done|]. congruence.
  - intros s' Hne. by rewrite transaction_commit_ne.
  - intros Habs. rewrite delete_id by done. rewrite with_records_same.
    by apply commit_same.
Qed.

Lemma remove_deletes_only_that_record_witness :
  result (remove no_faults Users 7 abc_db) = Resolved true ∧
  database (remove no_faults Users 7 abc_db) = abc_db.
Proof.
  destruct (remove_deletes_only_that_record no_faults Users 7 abc_db abc_store)
    as (Hres & _ & _ & _ & Hsame); [reflexivity|reflexivity|].
  split; [exact Hres|]. apply Hsame. reflexivity.
Defined.

(** X5.  Once [clearStore] has resolved [true], [getAll] on that store
    resolves the empty list, not [null]; the other stores are untouched, and
    the key generator of the cleared store stays where it was, so ids handed
    out before the clearing are not handed out again. *)
Theorem clearStore_empties_one_store
    (io : faults) (s : StoresTypes) (_db : IDBDatabase) (store : IDBObjectStore) :
  transaction _db (Stores s) = Some store →
  io 0%nat = None →
  let db' := database (clearStore io s _db) in
  result (clearStore io s _db) = Resolved true ∧
  (∀ io' : faults, (∀ k, io' k = None) →
     result (getAll io' s db') = Resolved (Some [])) ∧
  (∀ s', s' ≠ s → transaction db' (Stores s') = transaction _db (Stores s')) ∧
  ∃ store', transaction db' (Stores s) = Some store' ∧
            currentNumber store' = currentNumber store.
Proof.
  intros Hst Hio db'. subst db'. unfold clearStore. rewrite Hst. unfold store_clear.
  rewrite Hio. simpl. split; [done|]. split; [|split].
  - intros io' Hio'.
    destruct (getAll_served io' s _ _ (transaction_commit _db (Stores s)
                (with_records store (currentNumber store) ∅)) Hio') as (-> & _).
    unfold cursor_entries. simpl. by rewrite map_to_list_empty.
  - intros s' Hne. by rewrite transaction_commit_ne.
  - eexists. by rewrite transaction_commit.
Qed.

Lemma clearStore_empties_one_store_witness :
  result (getAll no_faults Users (database (clearStore no_faults Users three_created.2)))
  = Resolved (Some []).
Proof.
  destruct (clearStore_empties_one_store no_faults Users three_created.2
              (default (createObjectStore "" false)
                 (transaction three_created.2 (Stores Users))))
    as (_ & Hall & _); [vm_compute; reflexivity|reflexivity|].
  apply Hall. reflexivity.
Defined.

(** ** [update] and the key field *)

Lemma update_put_accepted io s id newData createDefault _db store k :
  transaction _db (Stores s) = Some store →
  no_unique_index store →
  io 0%nat = None → io 1%nat = None →
  let merged :=
    apply_updates newData (default (createDefault tt) (records store !! KNum id)) in
  evaluate_key_path (keyPath store) merged = ValidKey k →
  result (update io s id newData createDefault _db) = Resolved (Some merged) ∧
  ∃ store',
    transaction (database (update io s id newData createDefault _db)) (Stores s)
    = Some store' ∧
    records store' = <[k := merged]> (records store).
Proof.
  intros Hst Hix Hio0 Hio1 merged Hk.
  destruct (store_put_accepted store merged k Hk Hix) as [st' Hput].
  rewrite <- Hio1 in Hput.
  rewrite (update_after_read io s id newData createDefault _db store st' k Hst Hio0 Hput).
  split; [done|]. exists st'. simpl. rewrite transaction_commit. split; [done|].
  apply add_or_put_succeeded in Hput as (_ & -> & _).
  f_equal. apply insert_id. by apply evaluate_valid.
Qed.

Lemma sound_abc_db : sound abc_db.
Proof.
  intros s st H. destruct s; try (vm_compute in H; discriminate).
  assert (st = abc_store) as -> by (vm_compute in H; by injection H as <-).
  split; [done|]. split; [done|]. split; [simpl; lia|]. split.
  - intros n r Hn. simpl in Hn. apply lookup_singleton_Some in Hn as [[= <-] _].
    vm_compute. reflexivity.
  - intros k r Hk. simpl in Hk. by apply lookup_singleton_Some in Hk as [<- <-].
Qed.

(** X6.  The id passed to [update] only selects the record to read.  When
    the update data carry another id in the key field, the merge loop writes
    it into the record, and the engine files the merged record under that
    other id, replacing whatever was there, while the record that was read
    stays in the store unchanged. *)
Theorem update_files_under_id_in_data
    (io : faults) (s : StoresTypes) (id other : Z) (newData existing : record)
    (createDefault : unit → record) (_db : IDBDatabase) (store : IDBObjectStore) :
  sound _db →
  transaction _db (Stores s) = Some store →
  no_unique_index store →
  records store !! KNum id = Some existing →
  newData !! Keys s = Some (JNum other) →
  other ≠ id →
  (∀ k, io k = None) →
  let db' := database (update io s id newData createDefault _db) in
  result (update io s id newData createDefault _db)
  = Resolved (Some (apply_updates newData existing)) ∧
  result (get io s other db') = Resolved (Some (apply_updates newData existing)) ∧
  result (get io s id db') = Resolved (Some existing).
Proof.
  intros Hdb Hst Hix Hex Hnew Hne Hio db'. subst db'.
  destruct (Hdb s store Hst) as (Hkp & _ & _ & _ & Hinl).
  pose proof (Hinl _ _ Hex) as Hid. apply evaluate_valid in Hid.
  destruct (update_put_accepted io s id newData createDefault _db store (KNum other)
              Hst Hix (Hio _) (Hio _)) as (Hres & store' & Hst' & Hrecs).
  { rewrite Hex. simpl. apply evaluate_valid.
    rewrite apply_updates_lookup, Hid, Hkp, Hnew. done. }
  rewrite Hex in Hres, Hrecs. simpl in Hres, Hrecs.
  split; [done|]. unfold get. rewrite Hst'. unfold store_get. rewrite Hio. simpl.
  rewrite Hrecs. split.
  - by rewrite lookup_insert_eq.
  - rewrite lookup_insert_ne by congruence. by rewrite Hex.
Qed.

Lemma update_files_under_id_in_data_witness :
  result (get no_faults Users 1
            (database (update no_faults Users 1
                         {[ "userId" := JNum 5; "a" := JStr "X" ]} default_user abc_db)))
  = Resolved (Some abc).
Proof.
  refine (proj2 (proj2 (update_files_under_id_in_data no_faults Users 1 5
            {[ "userId" := JNum 5; "a" := JStr "X" ]} abc default_user abc_db abc_store
            _ _ _ _ _ _ _))).
  - apply sound_abc_db.
  - reflexivity.
  - constructor.
  - reflexivity.
  - reflexivity.
  - lia.
  - reflexivity.
Defined.

(** X7.  On an id that is not in the store, with a default record that has
    no key field, the id passed to [update] is lost: the merge loop drops
    the key field of the update data, the engine generates the key, and the
    record is filed under the current number of the generator.  The resolved
    record has no id, and unless the requested id happens to be that number
    [get] still resolves [null] for it afterwards. *)
Theorem update_absent_id_files_under_generated_id
    (io : faults) (s : StoresTypes) (id : Z) (newData : record)
    (createDefault : unit → record) (_db : IDBDatabase) (store : IDBObjectStore) :
  sound _db →
  transaction _db (Stores s) = Some store →
  no_unique_index store →
  records store !! KNum id = None →
  createDefault tt !! Keys s = None →
  currentNumber store ≤ max_generated →
  (∀ k, io k = None) →
  let merged := apply_updates newData (createDefault tt) in
  let db' := database (update io s id newData createDefault _db) in
  result (update io s id newData createDefault _db) = Resolved (Some merged) ∧
  merged !! Keys s = None ∧
  result (get io s (currentNumber store) db')
  = Resolved (Some (<[Keys s := JNum (currentNumber store)]> merged)) ∧
  (id ≠ currentNumber store → result (get io s id db') = Resolved None).
Proof.
  intros Hdb Hst Hix Habs Hdef Hmax Hio merged db'. subst db'.
  destruct (Hdb s store Hst) as (Hkp & Hauto & _ & Hahead & _).
  assert (merged !! Keys s = None) as Hnone.
  { subst merged. by rewrite apply_updates_lookup, Hdef. }
  assert (∃ st', store_put (io 1%nat) store merged
                 = Succeeded (KNum (currentNumber store)) st') as [st' Hput].
  { unfold store_put, add_or_put, evaluate_key_path. rewrite Hkp, Hnone, Hauto, Hio.
    destruct (Z.ltb_spec max_generated (currentNumber store)); [lia|].
    unfold store_a_record. simpl. rewrite no_conflict by done. by eexists. }
  pose proof (update_after_read io s id newData createDefault _db store st'
                (KNum (currentNumber store)) Hst (Hio _)) as Hrun.
  rewrite Habs in Hrun. simpl in Hrun. rewrite (Hrun Hput). simpl.
  split; [done|]. split; [done|].
  apply add_or_put_succeeded in Hput as (_ & Hrecs & _). rewrite Hkp in Hrecs.
  unfold get. rewrite transaction_commit. unfold store_get. rewrite Hio. simpl.
  rewrite Hrecs. split.
  - by rewrite lookup_insert_eq.
  - intros Hne. rewrite lookup_insert_ne by congruence. by rewrite Habs.
Qed.

Lemma update_absent_id_files_under_generated_id_witness :
  result (get no_faults Users 9
            (database (update no_faults Users 9
                         {[ "userId" := JNum 9; "name" := JStr "Bob" ]}
                         default_user ready)))
  = Resolved None.
Proof.
  refine (proj2 (proj2 (proj2 (update_absent_id_files_under_generated_id no_faults
            Users 9 {[ "userId" := JNum 9; "name" := JStr "Bob" ]} default_user ready
            (createObjectStore (Keys Users) true) _ _ _ _ _ _ _))) _).
  - apply sound_ready.
  - reflexivity.
  - constructor.
  - reflexivity.
  - reflexivity.
  - vm_compute. discriminate.
  - reflexivity.
  - simpl. lia.
Defined.

(** ** Which calls do not resolve *)

Lemma getAll_resolves io s _db store :
  transaction _db (Stores s) = Some store →
  ∃ v, result (getAll io s _db) = Resolved v.
Proof.
  intros Hst. unfold getAll. rewrite Hst.
  destruct (openCursor_shape io 0 (cursor_entries store))
    as (values & [->|(e & ->)]).
  - rewrite cursor_failed_served. unfold finish, complete_event, resolve. simpl.
    rewrite getAll_collecting by apply cursor_failed_served. simpl. by eexists.
  - rewrite cursor_failed_error. unfold finish.
    rewrite getAll_failed_settles by done. by eexists.
Qed.



(** ** [initDB] *)











(** ** [getAll] on any store *)



(** ** The optimistic operations, continued *)

Lemma JSMap_get_set_ne {V : Type} (key other : string) (v : V) (m : JSMap.t V) :
  key ≠ other → JSMap.get other (JSMap.set key v m) = JSMap.get other m.
Proof.
  intros Hne. unfold JSMap.get. induction m as [|[k x] m IH]; simpl.
  - by apply String.eqb_neq in Hne as ->.
  - destruct (String.eqb k key) eqn:Hk; simpl.
    + apply String.eqb_eq in Hk as ->.
      by apply String.eqb_neq in Hne as ->.
    + destruct (String.eqb k other); [done|]. apply IH.
Qed.

Lemma mark_error_others operationId msg prev other :
  operationId ≠ other →
  JSMap.get other (Hook.mark_error operationId msg prev) = JSMap.get other prev.
Proof.
  intros Hne. unfold Hook.mark_error.
  destruct (JSMap.get operationId prev); [|done]. by apply JSMap_get_set_ne.
Qed.

Lemma mark_confirmed_others operationId snapshot prev other :
  operationId ≠ other →
  JSMap.get other (Hook.mark_confirmed operationId snapshot prev)
  = JSMap.get other prev.
Proof.
  intros Hne. unfold Hook.mark_confirmed.
  destruct (JSMap.get operationId prev); [|done]. by apply JSMap_get_set_ne.
Qed.

(** X12.  An optimistic create, update or delete changes the pending map
    only at its own operation id: the entry of every other operation is what
    it was, however the storage call ends. *)
Theorem optimistic_touches_only_its_entry
    (store : StoresTypes) (keyField : string) (io : faults) (now : Z)
    (random : string) (call : optimistic_call)
    (prev : JSMap.t Hook.PendingOperation) (_db : IDBDatabase) (other : string) :
  other ≠ Hook.generateOperationId now random →
  JSMap.get other
    (Hook.pendingOperations (optimistic store keyField io now random call prev _db))
  = JSMap.get other prev.
Proof.
  intros Hne.
  destruct call as [newItem|id updates originalItem createDefault|id originalItem];
    simpl.
  - unfold Hook.optimisticCreate, Hook.optimisticCreate_resume,
      Hook.optimisticCreate_begin, Hook.failed, Hook.register.
    repeat case_match; simpl;
      rewrite ?mark_error_others, ?mark_confirmed_others by done;
      by apply JSMap_get_set_ne.
  - unfold Hook.optimisticUpdate, Hook.optimisticUpdate_resume,
      Hook.optimisticUpdate_begin, Hook.failed, Hook.register.
    repeat case_match; simpl;
      rewrite ?mark_error_others, ?mark_confirmed_others by done;
      by apply JSMap_get_set_ne.
  - unfold Hook.optimisticDelete, Hook.optimisticDelete_resume,
      Hook.optimisticDelete_begin, Hook.failed, Hook.register.
    repeat case_match; simpl;
      rewrite ?mark_error_others, ?mark_confirmed_others by done;
      by apply JSMap_get_set_ne.
Qed.

Lemma optimistic_touches_only_its_entry_witness :
  JSMap.get "op_1700000000000_k3j9x2m1q"
    (Hook.pendingOperations
       (optimistic Users "userId" no_faults 1700000000500 "p0o9i8u7y"
          (OptimisticDelete 1 abc) alice_pending abc_db))
  = JSMap.get "op_1700000000000_k3j9x2m1q" alice_pending.
Proof.
  apply optimistic_touches_only_its_entry. vm_compute. discriminate.
Defined.

(** X13.  The snapshot an optimistic update shows while it is pending is
    [{...originalItem, ...updates}]; the record that storage resolves is the
    result of the merge loop, which drops the fields the record does not
    have.  On the same record the two agree exactly when every field of the
    update is a field of the record. *)
Theorem optimistic_snapshot_agrees_iff_fields_exist
    (operationId : string) (updates existing : record) :
  Hook.item (Hook.update_entry operationId updates existing)
  = apply_updates updates existing
  ↔ ∀ field, is_Some (updates !! field) → is_Some (existing !! field).
Proof.
  simpl. unfold spread. split.
  - intros Heq field [v Hv].
    assert ((updates ∪ existing) !! field = Some v) as Hl
      by (apply lookup_union_Some_raw; by left).
    rewrite Heq, apply_updates_lookup in Hl.
    destruct (existing !! field); [by eexists|done].
  - intros Hsub. apply map_eq. intros field. rewrite apply_updates_lookup.
    rewrite lookup_union.
    destruct (updates !! field) as [v|] eqn:Hv.
    + destruct (Hsub field) as [old Hold]; [by rewrite Hv|]. by rewrite Hold.
    + by destruct (existing !! field).
Qed.

Local Opaque DatabaseContext.create DatabaseContext.update DatabaseContext.remove.

(** X14.  An optimistic update of a record that is in the store, with data
    that leave the id alone, succeeds when the engine raises no fault and no
    unique index stands in the way: the caller gets the merged record, the
    entry of the operation is confirmed and holds that record in place of
    the optimistic snapshot, with the original kept beside it, and [get]
    reads the same record from storage. *)
Theorem optimisticUpdate_round_trip
    (store : StoresTypes) (io : faults) (now : Z) (random : string)
    (id : Z) (updates originalItem existing : record) (createDefault : unit → record)
    (prev : JSMap.t Hook.PendingOperation) (_db : IDBDatabase) (st : IDBObjectStore) :
  sound _db →
  transaction _db (Stores store) = Some st →
  no_unique_index st →
  records st !! KNum id = Some existing →
  updates !! Keys store = None →
  (∀ k, io k = None) →
  let merged := apply_updates updates existing in
  let done_ :=
    Hook.optimisticUpdate store io now random id updates originalItem createDefault
      prev _db in
  Hook.returned done_
  = Resolved {| Hook.success := true; Hook.returned_item := Some merged;
                Hook.returned_error := None;
                Hook.operationId := Hook.generateOperationId now random |} ∧
  JSMap.get (Hook.generateOperationId now random) (Hook.pendingOperations done_)
  = Some {| Hook.id := Hook.generateOperationId now random;
            Hook.action := OptimisticState.Update;
            Hook.item := merged; Hook.originalItem := Some originalItem;
            Hook.confirmed := true; Hook.error := None |} ∧
  result (get io store id (Hook.stored done_)) = Resolved (Some merged).
Proof.
  intros Hdb Hst Hix Hex Hupd Hio merged done_.
  destruct (Hdb store st Hst) as (Hkp & _ & _ & _ & Hinl).
  pose proof (Hinl _ _ Hex) as Hid. apply evaluate_valid in Hid.
  destruct (update_put_accepted io store id updates createDefault _db st (KNum id)
              Hst Hix (Hio _) (Hio _)) as (Hres & st' & Hst' & Hrecs).
  { rewrite Hex. simpl. apply evaluate_valid.
    rewrite apply_updates_untouched; [done|]. by rewrite Hkp. }
  rewrite Hex in Hres, Hrecs. simpl in Hres, Hrecs. fold merged in Hres, Hrecs.
  destruct (context_update_result io store id updates createDefault _db)
    as [Hctx Hctxdb].
  rewrite Hres in Hctx.
  subst done_. unfold Hook.optimisticUpdate, Hook.optimisticUpdate_resume,
    Hook.optimisticUpdate_begin.
  rewrite Hctx. simpl. split; [done|]. split.
  - rewrite (mark_confirmed_registered
               (Hook.update_entry (Hook.generateOperationId now random)
                  updates originalItem)).
    simpl. apply JSMap_get_set.
  - rewrite Hctxdb. unfold get. rewrite Hst'. unfold store_get. rewrite Hio. simpl.
    by rewrite Hrecs, lookup_insert_eq.
Qed.

Local Transparent DatabaseContext.create DatabaseContext.update DatabaseContext.remove.

Lemma optimisticUpdate_round_trip_witness :
  result (get no_faults Users 1
            (Hook.stored
               (Hook.optimisticUpdate Users no_faults 1700000000000 "k3j9x2m1q" 1
                  {[ "b" := JStr "newB" ]} abc default_user [] abc_db)))
  = Resolved (Some (apply_updates {[ "b" := JStr "newB" ]} abc)).
Proof.
  refine (proj2 (proj2 (optimisticUpdate_round_trip Users no_faults 1700000000000
            "k3j9x2m1q" 1 {[ "b" := JStr "newB" ]} abc abc default_user [] abc_db
            abc_store _ _ _ _ _ _))).
  - apply sound_abc_db.
  - reflexivity.
  - constructor.
  - reflexivity.
  - reflexivity.
  - reflexivity.
Defined.

Local Opaque DatabaseContext.create DatabaseContext.update DatabaseContext.remove.

(** X15.  An optimistic delete on a store that exists succeeds whenever the
    engine raises no fault, whether or not the id was in the store: the
    caller gets success without an item, the entry of the operation is
    confirmed and still holds the original record as item and as original,
    and [get] resolves [null] for the id afterwards. *)
Theorem optimisticDelete_round_trip
    (store : StoresTypes) (io : faults) (now : Z) (random : string)
    (id : Z) (originalItem : record)
    (prev : JSMap.t Hook.PendingOperation) (_db : IDBDatabase) (st : IDBObjectStore) :
  transaction _db (Stores store) = Some st →
  io 0%nat = None →
  let done_ := Hook.optimisticDelete store io now random id originalItem prev _db in
  Hook.returned done_
  = Resolved {| Hook.success := true; Hook.returned_item := None;
                Hook.returned_error := None;
                Hook.operationId := Hook.generateOperationId now random |} ∧
  JSMap.get (Hook.generateOperationId now random) (Hook.pendingOperations done_)
  = Some {| Hook.id := Hook.generateOperationId now random;
            Hook.action := OptimisticState.Delete;
            Hook.item := originalItem; Hook.originalItem := Some originalItem;
            Hook.confirmed := true; Hook.error := None |} ∧
  result (get io store id (Hook.stored done_)) = Resolved None.
Proof.
  intros Hst Hio done_.
  destruct (remove_deletes_record io store id _db st Hst Hio) as (Hres & Hget).
  destruct (context_remove_result io store id _db) as [Hctx Hctxdb].
  rewrite Hres in Hctx.
  subst done_. unfold Hook.optimisticDelete, Hook.optimisticDelete_resume,
    Hook.optimisticDelete_begin.
  rewrite Hctx. simpl. split; [done|]. split.
  - rewrite (mark_confirmed_registered
               (Hook.delete_entry (Hook.generateOperationId now random) originalItem)).
    simpl. apply JSMap_get_set.
  - rewrite Hctxdb. by apply Hget.
Qed.

Local Transparent DatabaseContext.create DatabaseContext.update DatabaseContext.remove.

Lemma optimisticDelete_round_trip_witness :
  result (get no_faults Users 1
            (Hook.stored
               (Hook.optimisticDelete Users no_faults 1700000000000 "k3j9x2m1q" 1
                  abc [] abc_db)))
  = Resolved None.
Proof.
  refine (proj2 (proj2 (optimisticDelete_round_trip Users no_faults 1700000000000
            "k3j9x2m1q" 1 abc [] abc_db abc_store _ _))); reflexivity.
Defined.


Local Opaque DatabaseContext.create DatabaseContext.update DatabaseContext.remove.

(** X17.  [optimisticCreate] takes a falsy id for a failure.  When the new
    item carries the id 0 and the engine files it under that id, the caller
    is told that the operation failed and the entry carries the error, and
    yet the record is in the store. *)
Theorem optimisticCreate_reports_failure_for_id_zero
    (store : StoresTypes) (keyField : string) (io : faults) (now : Z)
    (random : string) (newItem : record)
    (prev : JSMap.t Hook.PendingOperation) (_db : IDBDatabase) (st : IDBObjectStore) :
  transaction _db (Stores store) = Some st →
  no_unique_index st →
  evaluate_key_path (keyPath st) newItem = ValidKey (KNum 0) →
  records st !! KNum 0 = None →
  io 0%nat = None →
  let done_ := Hook.optimisticCreate store keyField io now random newItem prev _db in
  Hook.returned done_
  = Resolved (Hook.failure (Hook.generateOperationId now random) Hook.operation_failed) ∧
  (∃ entry,
     JSMap.get (Hook.generateOperationId now random) (Hook.pendingOperations done_)
     = Some entry ∧
     Hook.error entry = Some Hook.operation_failed ∧ Hook.confirmed entry = false) ∧
  result (get io store 0 (Hook.stored done_)) = Resolved (Some newItem).
Proof.
  intros Hst Hix Hkey Hfree Hio done_.
  assert (create io store newItem _db
          = finish (commit _db (Stores store)
                      (with_records st
                         (if autoIncrement st
                          then possibly_update_key_generator st (KNum 0)
                          else currentNumber st)
                         (<[KNum 0 := newItem]> (records st))))
              (deliver EvComplete (success_event (resolve (Some (KNum 0))) pending)))
    as Hcreate.
  { unfold create. rewrite Hst. unfold store_add, add_or_put. rewrite Hkey, Hio.
    unfold store_a_record. rewrite Hfree.
    rewrite bool_decide_eq_false_2 by (by intros [? ?]). simpl.
    by rewrite no_conflict. }
  destruct (context_create_result io store newItem _db) as [Hctx Hctxdb].
  rewrite Hcreate in Hctx, Hctxdb. simpl in Hctx, Hctxdb.
  subst done_. unfold Hook.optimisticCreate, Hook.optimisticCreate_resume,
    Hook.optimisticCreate_begin.
  rewrite Hctx. simpl. split; [done|]. split.
  - eexists. split; [by apply mark_error_registered|done].
  - rewrite Hctxdb. unfold get. rewrite transaction_commit. unfold store_get.
    rewrite Hio. simpl. by rewrite lookup_insert_eq.
Qed.

Local Transparent DatabaseContext.create DatabaseContext.update DatabaseContext.remove.

Lemma optimisticCreate_reports_failure_for_id_zero_witness :
  result (get no_faults Users 0
            (Hook.stored
               (Hook.optimisticCreate Users "userId" no_faults 1700000000000
                  "k3j9x2m1q" {[ "userId" := JNum 0; "name" := JStr "Zed" ]} []
                  abc_db)))
  = Resolved (Some {[ "userId" := JNum 0; "name" := JStr "Zed" ]}).
Proof.
  refine (proj2 (proj2 (optimisticCreate_reports_failure_for_id_zero Users "userId"
            no_faults 1700000000000 "k3j9x2m1q"
            {[ "userId" := JNum 0; "name" := JStr "Zed" ]} [] abc_db abc_store
            _ _ _ _ _))).
  - reflexivity.
  - constructor.
  - reflexivity.
  - reflexivity.
  - reflexivity.
Defined.

(** ** Bulk selection *)

Local Set Warnings "-clear-no-such-hyp".

(** X18.  Toggling an id flips its membership and nothing else; toggling it
    twice gives the selection back. *)
Theorem toggleSelection_flips_one_id (id : jsval) (prev : gset jsval) :
  BulkSelection.toggleSelection id (BulkSelection.toggleSelection id prev) = prev ∧
  BulkSelection.isSelected (BulkSelection.toggleSelection id prev) id
  = negb (BulkSelection.isSelected prev id) ∧
  ∀ other, other ≠ id →
    BulkSelection.isSelected (BulkSelection.toggleSelection id prev) other
    = BulkSelection.isSelected prev other.
Proof.
  unfold BulkSelection.toggleSelection, BulkSelection.isSelected, BulkSelection.has.
  destruct (decide (id ∈ prev)) as [Hin|Hin].
  - rewrite (bool_decide_eq_true_2 (id ∈ prev)) by done.
    assert (id ∉ prev ∖ {[id]}) as Hout by set_solver.
    rewrite (bool_decide_eq_false_2 _ Hout). split; [|split; [done|]].
    + apply set_eq. intros x. destruct (decide (x = id)) as [->|]; set_solver.
    + intros other Hne. apply bool_decide_ext. set_solver.
  - rewrite (bool_decide_eq_false_2 (id ∈ prev)) by done.
    assert (id ∈ prev ∪ {[id]}) as Hnow by set_solver.
    rewrite (bool_decide_eq_true_2 _ Hnow). split; [|split; [done|]].
    + set_solver.
    + intros other Hne. apply bool_decide_ext. set_solver.
Qed.

Lemma forallb_has_subseteq (selectedIds : gset jsval) (ids : list jsval) :
  forallb (BulkSelection.has selectedIds) ids = true
  ↔ list_to_set ids ⊆ selectedIds.
Proof.
  rewrite forallb_forall. unfold BulkSelection.has. split.
  - intros Hall x Hx. apply elem_of_list_to_set in Hx.
    apply list_elem_of_In, Hall in Hx. by apply bool_decide_eq_true in Hx.
  - intros Hsub x Hx. apply bool_decide_eq_true_2, Hsub.
    by apply elem_of_list_to_set, list_elem_of_In.
Qed.

Lemma selects_exactly (selectedIds : gset jsval) (ids : list jsval) :
  NoDup ids →
  ((size selectedIds =? length ids)%nat
   && forallb (BulkSelection.has selectedIds) ids)
  = bool_decide (selectedIds = list_to_set ids).
Proof.
  intros Hnd. apply eq_true_iff_eq.
  rewrite andb_true_iff, Nat.eqb_eq, forallb_has_subseteq, bool_decide_eq_true.
  split.
  - intros [Hsize Hsub]. symmetry. apply set_subseteq_size_eq; [done|].
    rewrite size_list_to_set by done. lia.
  - intros ->. split; [by apply size_list_to_set|done].
Qed.

(** X19.  With pairwise distinct ids in the list, the select-all toggle
    clears the selection exactly when the selection is the set of the listed
    ids, and otherwise replaces it by that set.  So ids that are selected but
    no longer listed are dropped by it, and as long as one of them is
    selected a toggle on a fully selected list leaves the list fully
    selected. *)
Theorem toggleSelectAll_clears_only_exact_selection
    (data : list record) (keyField : string) (selectedIds : gset jsval) :
  NoDup (BulkSelection.allIds data keyField) →
  let ids : gset jsval := list_to_set (BulkSelection.allIds data keyField) in
  BulkSelection.toggleSelectAll data keyField selectedIds
  = (if bool_decide (selectedIds = ids) then ∅ else ids) ∧
  BulkSelection.isAllSelected data keyField
    (BulkSelection.toggleSelectAll data keyField selectedIds)
  = negb (bool_decide (selectedIds = ids))
    && negb (bool_decide (BulkSelection.allIds data keyField = [])).
Proof.
  unfold BulkSelection.isAllSelected, BulkSelection.toggleSelectAll.
  generalize (BulkSelection.allIds data keyField). intros all Hnd.
  rewrite selects_exactly by done. split; [done|].
  destruct all as [|id rest]; [simpl; by rewrite andb_false_r|].
  rewrite (bool_decide_eq_false_2 (id :: rest = [])) by done.
  change (0 <? length (id :: rest))%nat with true.
  rewrite andb_true_r, andb_true_l.
  case_bool_decide as Hsel.
  - apply not_true_is_false. rewrite forallb_has_subseteq. intros Hsub.
    assert (id ∈ (list_to_set (id :: rest) : gset jsval)) as Hin
      by (apply elem_of_list_to_set; left).
    apply Hsub in Hin. by apply not_elem_of_empty in Hin.
  - by apply forallb_has_subseteq.
Qed.

Lemma toggleSelectAll_clears_only_exact_selection_witness :
  BulkSelection.isAllSelected [abc] "userId"
    (BulkSelection.toggleSelectAll [abc] "userId" {[ JNum 1; JNum 7 ]}) = true.
Proof.
  rewrite (proj2 (toggleSelectAll_clears_only_exact_selection [abc] "userId"
                    {[ JNum 1; JNum 7 ]} ltac:(vm_compute; repeat constructor;
                                                 set_solver))).
  vm_compute. reflexivity.
Defined.

Lemma selectedItems_ids (data : list record) (keyField : string)
    (selectedIds : gset jsval) :
  NoDup (BulkSelection.allIds data keyField) →
  NoDup (BulkSelection.allIds (BulkSelection.selectedItems data keyField selectedIds)
           keyField) ∧
  list_to_set (BulkSelection.allIds
                 (BulkSelection.selectedItems data keyField selectedIds) keyField)
  = selectedIds ∩ list_to_set (BulkSelection.allIds data keyField) ∧
  length (BulkSelection.selectedItems data keyField selectedIds)
  = length (BulkSelection.allIds
              (BulkSelection.selectedItems data keyField selectedIds) keyField).
Proof.
  unfold BulkSelection.allIds, BulkSelection.selectedItems, BulkSelection.has.
  induction data as [|item rest IH]; simpl.
  - intros _. split; [constructor|]. split; [set_solver|done].
  - destruct (strict_eq (prop item keyField) JUndefined) eqn:Hundef; simpl.
    + intros Hnd. by apply IH.
    + intros Hnd. apply NoDup_cons in Hnd as [Hfresh Hnd].
      destruct (IH Hnd) as (IHnd & IHset & IHlen).
      case_bool_decide as Hsel; simpl.
      * rewrite Hundef. simpl. split; [|split].
        -- apply NoDup_cons. split; [|done]. intros Hin. apply Hfresh.
           assert (prop item keyField
                   ∈ selectedIds ∩ list_to_set
                       (List.filter (fun id => negb (strict_eq id JUndefined))
                          (map (fun item => prop item keyField) rest))) as Hin'.
           { rewrite <- IHset. by apply elem_of_list_to_set. }
           apply elem_of_intersection in Hin' as [_ Hin'].
           by apply elem_of_list_to_set in Hin'.
        -- rewrite IHset. set_solver.
        -- by rewrite IHlen.
      * split; [done|]. split; [|done]. rewrite IHset. set_solver.
Qed.

(** X20.  With pairwise distinct ids in the list, the selected items are the
    listed items whose id is selected, one for each selected id that is
    listed.  The count the hook reports is the size of the selection, so it
    exceeds the number of selected items by the number of selected ids that
    are not listed, and the two agree exactly when every selected id is
    listed. *)
Theorem selectedCount_counts_unlisted_ids
    (data : list record) (keyField : string) (selectedIds : gset jsval) :
  NoDup (BulkSelection.allIds data keyField) →
  let ids : gset jsval := list_to_set (BulkSelection.allIds data keyField) in
  BulkSelection.selectedCount selectedIds
  = (length (BulkSelection.selectedItems data keyField selectedIds)
     + size (selectedIds ∖ ids))%nat ∧
  (BulkSelection.selectedCount selectedIds
   = length (BulkSelection.selectedItems data keyField selectedIds)
   ↔ selectedIds ⊆ ids).
Proof.
  intros Hnd ids.
  destruct (selectedItems_ids data keyField selectedIds Hnd) as (Hnd' & Hset & Hlen).
  assert (length (BulkSelection.selectedItems data keyField selectedIds)
          = size (selectedIds ∩ ids)) as Hitems.
  { rewrite Hlen. subst ids. rewrite <- Hset. symmetry. by apply size_list_to_set. }
  assert (size selectedIds = (size (selectedIds ∩ ids) + size (selectedIds ∖ ids))%nat)
    as Hsplit.
  { rewrite <- size_union by set_solver. f_equal. apply set_eq. intros x.
    destruct (decide (x ∈ ids)); set_solver. }
  unfold BulkSelection.selectedCount. rewrite Hitems. split; [done|].
  rewrite Hsplit. split.
  - intros Hsame. assert (size (selectedIds ∖ ids) = 0%nat) as H0 by lia.
    apply size_empty_inv in H0. intros x Hx.
    destruct (decide (x ∈ ids)) as [|Hout]; [done|]. exfalso.
    apply (not_elem_of_empty (C:=gset jsval) x), H0.
    by apply elem_of_difference.
  - intros Hsub. assert (selectedIds ∖ ids = ∅) as -> by set_solver.
    rewrite size_empty. lia.
Qed.

Lemma selectedCount_counts_unlisted_ids_witness :
  BulkSelection.selectedCount ({[ JNum 1; JNum 7 ]} : gset jsval)
  = (length (BulkSelection.selectedItems [abc] "userId" {[ JNum 1; JNum 7 ]})
     + size (({[ JNum 1; JNum 7 ]} : gset jsval)
             ∖ list_to_set (BulkSelection.allIds [abc] "userId")))%nat.
Proof.
  apply (selectedCount_counts_unlisted_ids [abc] "userId" {[ JNum 1; JNum 7 ]}).
  vm_compute. repeat constructor. set_solver.
Defined.

(** ** Export *)

Lemma context_getAll_resolves fault s _db :
  database (DatabaseContext.getAll fault s _db) = _db ∧
  ∃ v, result (DatabaseContext.getAll fault s _db) = Resolved v.
Proof.
  unfold DatabaseContext.getAll, DatabaseContext.nullable,
    DatabaseContext.executeOperation.
  destruct (transaction _db (Stores s)) as [store|] eqn:Hst.
  - destruct (getAll_resolves fault s _db store Hst) as [v Hv].
    assert (database (getAll fault s _db) = _db) as Hdb.
    { unfold getAll. rewrite Hst. by destruct (cursor_failed _). }
    rewrite Hv. simpl. split; [done|by eexists].
  - unfold getAll. rewrite Hst. simpl. split; [done|by eexists].
Qed.

Lemma context_getAll_served fault s _db store :
  transaction _db (Stores s) = Some store →
  (∀ k, fault k = None) →
  result (DatabaseContext.getAll fault s _db) = Resolved (Some (rows store)).
Proof.
  intros Hst Hio.
  unfold DatabaseContext.getAll, DatabaseContext.nullable,
    DatabaseContext.executeOperation.
  destruct (getAll_served fault s _db store Hst Hio) as (-> & _). done.
Qed.


Lemma rows_length store : length (rows store) = size (records store).
Proof.
  unfold rows. rewrite length_fmap.
  assert (cursor_entries store ≡ₚ map_to_list (records store)) as ->
    by apply merge_sort_Permutation.
  apply length_map_to_list.
Qed.


Lemma context_getAll_missing fault s _db :
  transaction _db (Stores s) = None →
  result (DatabaseContext.getAll fault s _db) = Resolved None.
Proof.
  intros Hst.
  unfold DatabaseContext.getAll, DatabaseContext.nullable,
    DatabaseContext.executeOperation, getAll.
  by rewrite Hst.
Qed.

Lemma context_getAll_read fault s _db :
  (∀ k, fault k = None) →
  result (DatabaseContext.getAll fault s _db) = Resolved (read_served _db s).
Proof.
  intros Hio. unfold read_served.
  destruct (transaction _db (Stores s)) as [store|] eqn:Hst; simpl.
  - by apply context_getAll_served.
  - by apply context_getAll_missing.
Qed.

Lemma context_clearStore_served fault s _db store :
  transaction _db (Stores s) = Some store →
  fault 0%nat = None →
  result (DatabaseContext.clearStore fault s _db) = Resolved (Some true) ∧
  database (DatabaseContext.clearStore fault s _db)
  = commit _db (Stores s) (with_records store (currentNumber store) ∅).
Proof.
  intros Hst Hio.
  unfold DatabaseContext.clearStore, DatabaseContext.executeOperation, clearStore.
  rewrite Hst. unfold store_clear. by rewrite Hio.
Qed.

Local Opaque DatabaseContext.getAll DatabaseContext.create DatabaseContext.clearStore.


(** ** Validation of an import file *)

Lemma member_truthy item key v :
  dataImport.member item key = dataImport.Returns v →
  dataImport.truthy_json v = true →
  ∃ fields, item = dataImport.JObj fields ∧ fields !! key = Some v.
Proof.
  destruct item as [[]| |fields]; simpl; intros [= <-]; try done.
  intros Hv. exists fields. split; [done|].
  by destruct (fields !! key).
Qed.

Lemma lacks_nothing item key keys :
  dataImport.lacks item (key :: keys) = dataImport.Returns false
  ↔ has_all (key :: keys) item.
Proof.
  split.
  - intros Hl.
    assert (∃ fields, item = dataImport.JObj fields) as [fields ->].
    { simpl in Hl. destruct (dataImport.member item key) as [v|] eqn:Hm; [|done].
      destruct (dataImport.truthy_json v) eqn:Hv; [|done].
      destruct (member_truthy _ _ _ Hm Hv) as (fields & -> & _). by eexists. }
    exists fields. split; [done|].
    revert Hl. generalize (key :: keys). intros l.
    induction l as [|k l IH]; simpl; [constructor|].
    destruct (dataImport.truthy_json (default (dataImport.JPrim JUndefined)
                                        (fields !! k))) eqn:Hv; simpl; [|done].
    intros Hl. constructor; [|by apply IH].
    destruct (fields !! k) as [v|]; [by exists v|done].
  - intros (fields & -> & Hall).
    induction Hall as [|k l (v & Hk & Hv) _ IH]; [done|].
    simpl. rewrite Hk. simpl. by rewrite Hv.
Qed.

Lemma forEach_check_returns keys complaint items : ∀ index errors errors',
  dataImport.forEach_check keys complaint items index errors
  = dataImport.Returns errors' →
  ∃ added, errors' = (errors ++ added)%list ∧
    (added = [] ↔
     Forall (fun item => dataImport.lacks item keys = dataImport.Returns false) items).
Proof.
  induction items as [|item rest IH]; intros index errors errors'; simpl.
  - intros [= <-]. exists []. by rewrite app_nil_r.
  - destruct (dataImport.lacks item keys) as [[]|] eqn:Hl; [| |done].
    + intros (added & -> & _)%IH. exists (complaint index :: added).
      rewrite <- app_assoc. split; [done|]. split; [done|].
      intros Hall. apply Forall_cons in Hall as [Hitem _]. congruence.
    + intros (added & -> & Hadded)%IH. exists added. split; [done|].
      rewrite Hadded. split; [by constructor|]. by intros [_ ?]%Forall_cons.
Qed.

Lemma forEach_check_clean keys complaint items : ∀ index errors,
  Forall (fun item => dataImport.lacks item keys = dataImport.Returns false) items →
  dataImport.forEach_check keys complaint items index errors
  = dataImport.Returns errors.
Proof.
  induction items as [|item rest IH]; intros index errors Hall; [done|].
  apply Forall_cons in Hall as [Hitem Hrest]. simpl. rewrite Hitem. by apply IH.
Qed.

Lemma check_section_returns section not_array key keys complaint errors errors' :
  dataImport.check_section section not_array (key :: keys) complaint errors
  = dataImport.Returns errors' →
  ∃ added, errors' = (errors ++ added)%list ∧
    (added = [] ↔
     ∃ items, section = dataImport.JArr items ∧ Forall (has_all (key :: keys)) items).
Proof.
  destruct section as [v|items|fields]; simpl.
  - intros [= <-]. eexists. split; [done|]. split; [done|]. by intros (? & ? & _).
  - intros (added & -> & Hadded)%forEach_check_returns. exists added.
    split; [done|]. rewrite Hadded. split.
    + intros Hall. exists items. split; [done|].
      eapply Forall_impl; [exact Hall|]. intros item. apply lacks_nothing.
    + intros (? & [= <-] & Hall).
      eapply Forall_impl; [exact Hall|]. intros item. apply lacks_nothing.
  - intros [= <-]. eexists. split; [done|]. split; [done|]. by intros (? & ? & _).
Qed.

Lemma forEach_check_has_all items key keys complaint index errors :
  Forall (has_all (key :: keys)) items →
  dataImport.forEach_check (key :: keys) complaint items index errors
  = dataImport.Returns errors.
Proof.
  intros Hall. apply forEach_check_clean.
  eapply Forall_impl; [exact Hall|]. intros item. apply lacks_nothing.
Qed.

Lemma validate_well_formed data :
  well_formed data →
  dataImport.validateImportData data
  = dataImport.Returns {| dataImport.Validation.isValid := true;
                          dataImport.Validation.errors := [] |}.
Proof.
  intros (fields & version & section & users & skills & userSkills & -> &
          Hfv & Hv & Hfd & Hsu & Hss & Hsus & Hu & Hs & Hus).
  unfold dataImport.validateImportData, dataImport.property. simpl.
  rewrite Hfv, Hfd. simpl. rewrite Hv, Hsu, Hss, Hsus. simpl.
  by rewrite !forEach_check_has_all by done.
Qed.

(** X22.  [validateImportData] accepts a value exactly when it has the
    shape of an export: an object with a truthy version and a data section
    whose three entries are arrays of objects, each user with a name and an
    email, each skill with a name, a category and a level, each assignment
    with a user id, a skill id and a proficiency level.  Whenever it returns,
    it reports the value valid exactly when it lists no error. *)
Theorem validateImportData_accepts_exports_only (data : dataImport.json) :
  (dataImport.validateImportData data
   = dataImport.Returns {| dataImport.Validation.isValid := true;
                           dataImport.Validation.errors := [] |}
   ↔ well_formed data) ∧
  (∀ validation,
     dataImport.validateImportData data = dataImport.Returns validation →
     dataImport.Validation.isValid validation
     = bool_decide (dataImport.Validation.errors validation = [])).
Proof.
  split.
  - split.
    + unfold dataImport.validateImportData.
      destruct (negb (dataImport.truthy_json data)
                || negb (dataImport.typeof_object data)) eqn:Hobj; [done|].
      destruct (dataImport.truthy_json (dataImport.property data "data"))
        eqn:Hdata; simpl; [|done].
      destruct (dataImport.check_section _ _ ["name"; "email"] _ _)
        as [errors1|] eqn:H1; [|done].
      destruct (dataImport.check_section _ _ ["name"; "category"; "level"] _ _)
        as [errors2|] eqn:H2; [|done].
      destruct (dataImport.check_section _ _
                  ["userId"; "skillId"; "proficiencyLevel"] _ _)
        as [errors3|] eqn:H3; [|done].
      intros [= _ ->].
      apply check_section_returns in H3 as (added3 & Heq3 & Hadded3).
      symmetry in Heq3. apply app_eq_nil in Heq3 as [-> ->].
      apply check_section_returns in H2 as (added2 & Heq2 & Hadded2).
      symmetry in Heq2. apply app_eq_nil in Heq2 as [-> ->].
      apply check_section_returns in H1 as (added1 & Heq1 & Hadded1).
      symmetry in Heq1. apply app_eq_nil in Heq1 as [Hversion ->].
      destruct (proj1 Hadded1 eq_refl) as (users & Husers & Hu).
      destruct (proj1 Hadded2 eq_refl) as (skills & Hskills & Hs).
      destruct (proj1 Hadded3 eq_refl) as (userSkills & HuserSkills & Hus).
      destruct (dataImport.truthy_json (dataImport.property data "version"))
        eqn:Hv; [|done].
      assert (∀ x key v, dataImport.property x key = v →
                dataImport.truthy_json v = true →
                ∃ fields, x = dataImport.JObj fields ∧ fields !! key = Some v)
        as Hprop.
      { intros x key v <-. unfold dataImport.property.
        destruct (dataImport.member x key) as [w|] eqn:Hm; [|done].
        by apply member_truthy. }
      destruct (Hprop data "version" _ eq_refl Hv) as (fields & -> & Hfv).
      destruct (Hprop (dataImport.JObj fields) "data" _ eq_refl Hdata)
        as (fields' & [= <-] & Hfd).
      destruct (Hprop (dataImport.property (dataImport.JObj fields) "data") "users"
                  (dataImport.JArr users) Husers eq_refl) as (section & Hsec & Hsu).
      rewrite Hsec in *.
      destruct (Hprop (dataImport.JObj section) "skills"
                  (dataImport.JArr skills) Hskills eq_refl) as (? & [= <-] & Hss).
      destruct (Hprop (dataImport.JObj section) "userSkills"
                  (dataImport.JArr userSkills) HuserSkills eq_refl)
        as (? & [= <-] & Hsus).
      by exists fields, (dataImport.property (dataImport.JObj fields) "version"),
        section, users, skills, userSkills.
    + apply validate_well_formed.
  - intros validation. unfold dataImport.validateImportData.
    destruct (negb (dataImport.truthy_json data)
              || negb (dataImport.typeof_object data)); [by intros [= <-]|].
    destruct (dataImport.truthy_json (dataImport.property data "data")); simpl.
    + destruct (dataImport.check_section _ _ ["name"; "email"] _ _); [|done].
      destruct (dataImport.check_section _ _ ["name"; "category"; "level"] _ _);
        [|done].
      destruct (dataImport.check_section _ _
                  ["userId"; "skillId"; "proficiencyLevel"] _ _) as [errors|];
        [|done].
      intros [= <-]. simpl. by destruct errors.
    + intros [= <-]. simpl. symmetry. apply bool_decide_eq_false_2.
      by intros [_ [=]]%app_eq_nil.
Qed.

Lemma forEach_check_cons keys complaint item rest index errors :
  dataImport.forEach_check keys complaint (item :: rest) index errors
  = match dataImport.lacks item keys with
    | dataImport.Throws e => dataImport.Throws e
    | dataImport.Returns missing =>
        dataImport.forEach_check keys complaint rest (S index)
          (if missing then (errors ++ [complaint index])%list else errors)
    end.
Proof. reflexivity. Qed.

(** X23.  Validation does not report a [null] among the users: it throws.
    On an object whose data section is an object with an array of users, one
    [null] element anywhere in that array makes [validateImportData] raise a
    TypeError instead of returning a list of errors. *)
Theorem validateImportData_throws_on_null_user
    (fields section : gmap string dataImport.json) (users : list dataImport.json) :
  fields !! "data" = Some (dataImport.JObj section) →
  section !! "users" = Some (dataImport.JArr users) →
  dataImport.JPrim JNull ∈ users →
  ∃ e, dataImport.validateImportData (dataImport.JObj fields) = dataImport.Throws e ∧
       name e = "TypeError".
Proof.
  intros Hfd Hsu Hnull.
  assert (∀ index errors,
            ∃ e, dataImport.forEach_check ["name"; "email"]
                   (fun index => "User at index " +:+ pretty index +:+
                                 ": missing name or email") users index errors
                 = dataImport.Throws e ∧ name e = "TypeError") as Hthrows.
  { clear Hsu. induction users as [|item rest IH]; intros index errors.
    - by apply elem_of_nil in Hnull.
    - apply elem_of_cons in Hnull as [<-|Hin]; [simpl; by eexists|].
      rewrite forEach_check_cons.
      destruct (dataImport.lacks item ["name"; "email"]) as [missing|e] eqn:Hl.
      + by apply IH.
      + exists e. split; [done|]. simpl in Hl.
        destruct item as [[]| |f]; simpl in Hl; simplify_eq; try done;
          repeat case_match; simplify_eq. }
  unfold dataImport.validateImportData, dataImport.property. simpl.
  rewrite Hfd. simpl. rewrite Hsu. simpl.
  destruct (Hthrows 0%nat
              (if negb (dataImport.truthy_json
                          (default (dataImport.JPrim JUndefined) (fields !! "version")))
               then ["Missing version information"] else []))
    as (e & -> & He).
  by exists e.
Qed.

Lemma validateImportData_throws_on_null_user_witness :
  ∃ e, dataImport.validateImportData
         (dataImport.JObj
            {[ "version" := dataImport.JPrim (JStr "1.0.0");
               "data" := dataImport.JObj
                           {[ "users" := dataImport.JArr [dataImport.JPrim JNull] ]} ]})
       = dataImport.Throws e ∧ name e = "TypeError".
Proof.
  apply (validateImportData_throws_on_null_user _
           {[ "users" := dataImport.JArr [dataImport.JPrim JNull] ]}
           [dataImport.JPrim JNull]).
  - reflexivity.
  - reflexivity.
  - left.
Defined.

(** ** Import *)

Lemma create_never_hangs fault s data _db :
  result (create fault s data _db) ≠ Hung.
Proof.
  unfold create. destruct (transaction _db (Stores s)); [|done].
  by destruct (store_add _ _ _).
Qed.

Lemma create_grows fault s data _db name st :
  transaction _db name = Some st →
  ∃ st', transaction (database (create fault s data _db)) name = Some st' ∧
         records st ⊆ records st' ∧ (name ≠ Stores s → st' = st).
Proof.
  intros Hst. unfold create.
  destruct (transaction _db (Stores s)) as [store|] eqn:Hs; [|by exists st].
  destruct (store_add (fault 0%nat) store data) as [e|e|k store'] eqn:Hadd;
    simpl; [by exists st|by exists st|].
  destruct (decide (name = Stores s)) as [->|Hne].
  - exists store'. rewrite transaction_commit. split; [done|]. split; [|done].
    apply add_or_put_succeeded in Hadd as (_ & -> & _ & _ & _ & Hfresh & _).
    assert (st = store) as -> by congruence.
    apply insert_subseteq. by apply Hfresh.
  - exists st. unfold transaction, commit in *. simpl.
    by rewrite lookup_insert_ne.
Qed.

Lemma context_create_grows fault s data _db :
  (∃ v, result (DatabaseContext.create fault s data _db) = Resolved v) ∧
  ∀ name st, transaction _db name = Some st →
    ∃ st', transaction (database (DatabaseContext.create fault s data _db)) name
           = Some st' ∧
           records st ⊆ records st' ∧ (name ≠ Stores s → st' = st).
Proof.
  destruct (context_create_result fault s data _db) as [Hres Hdb]. split.
  - rewrite Hres. pose proof (create_never_hangs fault s data _db).
    destruct (result (create fault s data _db)); by eauto.
  - intros name st Hst. rewrite Hdb. by apply create_grows.
Qed.

Lemma only_added_refl db : only_added db db.
Proof. intros s store Hst. by exists store. Qed.

Lemma only_added_create fault s data before _db :
  s ≠ UserSkills →
  only_added before _db →
  only_added before (database (DatabaseContext.create fault s data _db)).
Proof.
  intros Hs Hgrown s' store Hst.
  destruct (Hgrown s' store Hst) as (store1 & Hst1 & Hsub1 & Hsame1).
  destruct (proj2 (context_create_grows fault s data _db) _ _ Hst1)
    as (store2 & Hst2 & Hsub2 & Hsame2).
  exists store2. split; [done|]. split; [by etrans|].
  intros ->. rewrite Hsame2; [by apply Hsame1|].
  intros Heq%Stores_inj. by apply Hs.
Qed.

Lemma keeps_bind {L A B : Type} (P : Async.state L → Prop)
    (m : Async.async L A) (f : A → Async.async L B) :
  keeps P m → (∀ a, keeps P (f a)) → keeps P (m ≫= f).
Proof.
  intros Hm Hf s Hs. destruct (Hm s Hs) as (a & Ha & Hp).
  unfold mbind, Async.async_bind, Async.bind.
  destruct (m s) as [o s']. simpl in *. subst o. by apply Hf.
Qed.

Lemma keeps_for_of {L A : Type} (P : Async.state L → Prop)
    (items : list A) (body : A → Async.async L unit) :
  (∀ item, keeps P (body item)) → keeps P (Async.for_of items body).
Proof.
  intros Hbody. induction items as [|item rest IH]; simpl.
  - intros s Hs. by exists tt.
  - apply (keeps_bind P (body item) (fun _ => Async.for_of rest body)); auto.
Qed.

Lemma keeps_all2 {L A B : Type} (P : Async.state L → Prop)
    (m1 : Async.async L A) (m2 : Async.async L B) :
  keeps P m1 → keeps P m2 → keeps P (Async.all2 m1 m2).
Proof.
  intros H1 H2 s Hs. unfold Async.all2.
  destruct (H1 s Hs) as (a & Ha & Hp1). destruct (m1 s) as [o1 s1].
  simpl in Ha, Hp1. subst o1.
  destruct (H2 s1 Hp1) as (b & Hb & Hp2). destruct (m2 s1) as [o2 s2].
  simpl in Hb, Hp2. subst o2. by exists (a, b).
Qed.

Lemma keeps_modify {L : Type} (P : Async.state L → Prop) (f : L → L) :
  (∀ s, P s → P {| Async.db := Async.db s; Async.calls := Async.calls s;
                   Async.local := f (Async.local s) |}) →
  keeps P (Async.modify f).
Proof. intros Hf s Hs. exists tt. split; [done|]. by apply Hf. Qed.

Lemma keeps_ret {L A : Type} (P : Async.state L → Prop) (a : A) :
  keeps P (mret a : Async.async L A).
Proof. intros s Hs. by exists a. Qed.

Lemma keeps_try_catch {L A : Type} (P : Async.state L → Prop)
    (m : Async.async L A) (handler : DOMException → Async.async L A) :
  keeps P m → keeps P (Async.try_catch m handler).
Proof.
  intros Hm s Hs. destruct (Hm s Hs) as (a & Ha & Hp).
  unfold Async.try_catch. destruct (m s) as [o s']. simpl in *. subst o.
  by exists a.
Qed.

Lemma keeps_getAll io before s :
  keeps (importing before) (useDatabase.getAll io s).
Proof.
  intros st Hst. unfold useDatabase.getAll, Async.await. simpl.
  destruct (context_getAll_resolves (io (Async.calls st)) s (Async.db st))
    as [Hdb [v Hv]].
  exists v. split; [done|]. unfold importing. simpl. by rewrite Hdb.
Qed.

Lemma keeps_import_item io before s duplicate skip count item :
  s ≠ UserSkills →
  (∀ c, dataImport.userSkills (count c) = dataImport.userSkills c) →
  keeps (importing before) (import_item (useDatabase.create io) s duplicate skip
                              count item).
Proof.
  intros Hs Hcount. unfold import_item.
  destruct (duplicate item && skip).
  - apply keeps_modify. intros st (Hdb & Hi & Hk). repeat split; simpl; try done.
    by rewrite Hcount.
  - apply keeps_bind.
    + intros st (Hdb & Hi & Hk). unfold useDatabase.create, Async.await. simpl.
      destruct (proj1 (context_create_grows (io (Async.calls st)) s
                         (delete (Keys s) item) (Async.db st))) as [v Hv].
      exists v. split; [done|]. repeat split; simpl; try done.
      by apply only_added_create.
    + intros newId. destruct (dataImport.truthy_id newId); [|apply keeps_ret].
      apply keeps_modify. intros st (Hdb & Hi & Hk). repeat split; simpl; try done.
      by rewrite Hcount.
Qed.

Lemma keeps_import_all io before file options :
  keeps (importing before)
    (dataImport.import_all file options (useDatabase.getAll io)
       (useDatabase.create io)).
Proof.
  unfold dataImport.import_all. apply keeps_bind.
  - apply keeps_all2; apply keeps_getAll.
  - intros [existingUsers existingSkills]. apply keeps_bind.
    + apply keeps_for_of. intros user.
      by apply (keeps_import_item io before Users
                  (dataImport.duplicate_user existingUsers)
                  (dataImport.skipDuplicates options) dataImport.count_user).
    + intros _. apply keeps_bind.
      * apply keeps_for_of. intros skill.
        by apply (keeps_import_item io before Skills
                    (dataImport.duplicate_skill existingSkills)
                    (dataImport.skipDuplicates options) dataImport.count_skill).
      * intros _. apply keeps_modify. by intros st (Hdb & Hi & Hk).
Qed.

Lemma import_into_attempt io file options _db :
  (import_attempt io file options (Async.start _db dataImport.initial)).1
  = Resolved tt →
  import_into io file options _db
  = (Resolved (Async.local
                 (import_attempt io file options
                    (Async.start _db dataImport.initial)).2),
     (import_attempt io file options (Async.start _db dataImport.initial)).2).
Proof.
  intros Hres. unfold import_into, dataImport.importData.
  fold (import_attempt io file options).
  unfold mbind, Async.async_bind, Async.bind, Async.modify, Async.read, Async.start.
  simpl. fold (Async.start _db dataImport.initial).
  destruct (import_attempt io file options (Async.start _db dataImport.initial))
    as [o s'].
  simpl in Hres. by subst o.
Qed.

(** X24.  However an import goes, whatever the file, the options and the
    faults of the engine, it resolves a result, and all it has done to the
    database is add records to the users and the skills: every record that
    was there is still there under its id, and the assignments of skills to
    users are untouched.  The assignments in the file are neither imported
    nor counted as skipped. *)
Theorem import_only_adds_users_and_skills
    (io : nat → faults) (file : dataExport.DatabaseExport)
    (options : dataImport.ImportOptions) (_db : IDBDatabase) :
  only_added _db (Async.db (import_into io file options _db).2) ∧
  ∃ answer,
    (import_into io file options _db).1 = Resolved answer ∧
    dataImport.userSkills (dataImport.ImportResult.imported answer) = 0%nat ∧
    dataImport.userSkills (dataImport.ImportResult.skipped answer) = 0%nat.
Proof.
  assert (keeps (importing _db) (import_attempt io file options)) as Hkeeps.
  { unfold import_attempt.
    destruct (dataImport.validateData options);
      [|apply keeps_try_catch, keeps_import_all].
    destruct (dataImport.validateImportData (dataImport.to_json file))
      as [validation|e].
    - apply keeps_try_catch.
      destruct (dataImport.Validation.isValid validation); simpl;
        [apply keeps_import_all|].
      apply keeps_modify. by intros st (Hdb & Hi & Hk).
    - apply keeps_modify. by intros st (Hdb & Hi & Hk). }
  destruct (Hkeeps (Async.start _db dataImport.initial)) as ([] & Hres & Hp).
  { split; [apply only_added_refl|done]. }
  rewrite (import_into_attempt io file options _db Hres).
  simpl. destruct Hp as (Hdb & Hi & Hk). split; [done|]. by eexists.
Qed.

(** ** An import that is served *)

Lemma getAll_read {L : Type} (io : nat → faults) (s : StoresTypes)
    (st : Async.state L) :
  (∀ k, io (Async.calls st) k = None) →
  useDatabase.getAll io s st
  = (Resolved (read_served (Async.db st) s),
     {| Async.db := Async.db st; Async.calls := S (Async.calls st);
        Async.local := Async.local st |}).
Proof.
  intros Hio. unfold useDatabase.getAll, Async.await.
  rewrite (context_getAll_read _ _ _ Hio).
  by rewrite (proj1 (context_getAll_resolves _ _ _)).
Qed.

Lemma context_create_generated fault s data _db store :
  sound _db →
  transaction _db (Stores s) = Some store →
  no_unique_index store →
  evaluate_key_path (Keys s) data = NoKey →
  fault 0%nat = None →
  currentNumber store ≤ max_generated →
  records store !! KNum (currentNumber store) = None ∧
  result (DatabaseContext.create fault s data _db)
  = Resolved (Some (KNum (currentNumber store))) ∧
  database (DatabaseContext.create fault s data _db)
  = commit _db (Stores s)
      (with_records store (currentNumber store + 1)
         (<[KNum (currentNumber store) :=
              <[Keys s := JNum (currentNumber store)]> data]> (records store))) ∧
  sound (database (DatabaseContext.create fault s data _db)).
Proof.
  intros Hdb Hst Hix Hkey Hio Hmax.
  destruct (create_generates fault s data _db store Hdb Hst Hix Hkey Hio Hmax)
    as [Hfresh Hrun].
  destruct (context_create_result fault s data _db) as [Hres Hsame].
  split; [done|]. split; [by rewrite Hres, Hrun|]. split; [by rewrite Hsame, Hrun|].
  rewrite Hsame. apply (perform_sound fault (OpCreate s data) _db Hdb).
Qed.

Lemma iter_count_user n c :
  dataImport.users (Nat.iter n dataImport.count_user c) = (dataImport.users c + n)%nat ∧
  dataImport.skills (Nat.iter n dataImport.count_user c) = dataImport.skills c.
Proof. induction n as [|n [IH1 IH2]]; simpl; [by rewrite Nat.add_0_r|]. split; [lia|done]. Qed.

Lemma iter_count_skill n c :
  dataImport.skills (Nat.iter n dataImport.count_skill c)
  = (dataImport.skills c + n)%nat ∧
  dataImport.users (Nat.iter n dataImport.count_skill c) = dataImport.users c.
Proof. induction n as [|n [IH1 IH2]]; simpl; [by rewrite Nat.add_0_r|]. split; [lia|done]. Qed.

Lemma iter_succ_r {A : Type} (f : A → A) n a :
  Nat.iter n f (f a) = f (Nat.iter n f a).
Proof. induction n as [|n IH]; simpl; [done|]. by rewrite IH. Qed.

(** One loop of the import when every [create] is served. *)
Lemma import_loop_served io s duplicate skip count items :
  ∀ (st : Async.state dataImport.ImportResult.t) store,
    sound (Async.db st) →
    transaction (Async.db st) (Stores s) = Some store →
    no_unique_index store →
    room store (length (created_of duplicate skip items)) →
    (∀ k, io k 0%nat = None) →
    ∃ st' store',
      Async.for_of items (import_item (useDatabase.create io) s duplicate skip count) st
      = (Resolved tt, st') ∧
      sound (Async.db st') ∧
      transaction (Async.db st') (Stores s) = Some store' ∧
      no_unique_index store' ∧
      records store ⊆ records store' ∧
      (∀ s2, s2 ≠ s →
         transaction (Async.db st') (Stores s2) = transaction (Async.db st) (Stores s2)) ∧
      size (records store')
      = (size (records store) + length (created_of duplicate skip items))%nat ∧
      dataImport.ImportResult.imported (Async.local st')
      = Nat.iter (length (created_of duplicate skip items)) count
          (dataImport.ImportResult.imported (Async.local st)) ∧
      dataImport.ImportResult.skipped (Async.local st')
      = Nat.iter (length (skipped_of duplicate skip items)) count
          (dataImport.ImportResult.skipped (Async.local st)) ∧
      dataImport.ImportResult.errors (Async.local st')
      = dataImport.ImportResult.errors (Async.local st).
Proof.
  induction items as [|item rest IH]; intros st store Hdb Hst Hix Hroom Hio.
  - exists st, store. simpl. rewrite Nat.add_0_r. by split_and!.
  - unfold created_of, skipped_of in *. simpl in Hroom |- *.
    unfold import_item at 1.
    destruct (duplicate item && skip) eqn:Hdup; simpl in Hroom |- *.
    + unfold mbind, Async.async_bind, Async.bind, Async.modify. simpl.
      destruct (IH {| Async.db := Async.db st; Async.calls := Async.calls st;
                      Async.local := dataImport.with_skipped count (Async.local st) |}
                  store Hdb Hst Hix Hroom Hio)
        as (st' & store' & Hrun & Hdb' & Hst' & Hix' & Hsub & Hothers & Hsize &
            Himp & Hskip & Herr).
      exists st', store'. rewrite Hrun. simpl in *.
      split_and!; try done. by rewrite Hskip, iter_succ_r.
    + unfold room in Hroom. rewrite Nat2Z.inj_succ in Hroom.
      destruct (context_create_generated (io (Async.calls st)) s
                  (delete (Keys s) item) (Async.db st) store Hdb Hst Hix)
        as (Hfresh & Hres & Hnew & Hsound).
      { unfold evaluate_key_path. by rewrite lookup_delete_eq. }
      { apply Hio. }
      { lia. }
      destruct (Hdb s store Hst) as (_ & _ & Hpos & _).
      unfold mbind, Async.async_bind, Async.bind, useDatabase.create, Async.await.
      rewrite Hres. simpl.
      destruct (Z.eqb_spec (currentNumber store) 0) as [|_]; [lia|]. simpl.
      set (store1 := with_records store (currentNumber store + 1)
                       (<[KNum (currentNumber store) :=
                            <[Keys s := JNum (currentNumber store)]>
                              (delete (Keys s) item)]> (records store))) in *.
      destruct (IH {| Async.db := database
                                    (DatabaseContext.create (io (Async.calls st)) s
                                       (delete (Keys s) item) (Async.db st));
                      Async.calls := S (Async.calls st);
                      Async.local :=
                        dataImport.with_imported count (Async.local st) |}
                  store1)
        as (st' & store' & Hrun & Hdb' & Hst' & Hix' & Hsub & Hothers & Hsize &
            Himp & Hskip & Herr); simpl.
      { done. }
      { rewrite Hnew. apply transaction_commit. }
      { done. }
      { unfold room. simpl. lia. }
      { done. }
      exists st', store'. split; [exact Hrun|]. simpl in *.
      split; [done|]. split; [done|]. split; [done|].
      split; [|split; [|split; [|split; [|split]]]]; try done.
      * etrans; [|exact Hsub]. by apply insert_subseteq.
      * intros s2 Hne. rewrite Hothers by done. rewrite Hnew.
        by rewrite transaction_commit_ne.
      * rewrite Hsize. rewrite map_size_insert_None by done. lia.
      * by rewrite Himp, iter_succ_r.
Qed.

Lemma import_user_item options create existingUsers :
  dataImport.import_user options create existingUsers
  = import_item create Users (dataImport.duplicate_user existingUsers)
      (dataImport.skipDuplicates options) dataImport.count_user.
Proof. reflexivity. Qed.

Lemma import_skill_item options create existingSkills :
  dataImport.import_skill options create existingSkills
  = import_item create Skills (dataImport.duplicate_skill existingSkills)
      (dataImport.skipDuplicates options) dataImport.count_skill.
Proof. reflexivity. Qed.

Lemma created_of_length duplicate skip items :
  (length (created_of duplicate skip items) ≤ length items)%nat.
Proof.
  unfold created_of. induction items as [|item rest IH]; simpl; [done|].
  destruct (negb _); simpl; lia.
Qed.

Lemma created_skipped_length duplicate skip items :
  (length (created_of duplicate skip items)
   + length (skipped_of duplicate skip items))%nat = length items.
Proof.
  unfold created_of, skipped_of. induction items as [|item rest IH]; simpl; [done|].
  destruct (duplicate item && skip); simpl; lia.
Qed.

Lemma import_attempt_all io file options :
  (dataImport.validateData options = true → well_formed (dataImport.to_json file)) →
  import_attempt io file options
  = Async.try_catch
      (dataImport.import_all file options (useDatabase.getAll io)
         (useDatabase.create io))
      (fun error => Async.modify (dataImport.import_failed error)).
Proof.
  intros Hvalid. unfold import_attempt.
  destruct (dataImport.validateData options); [|done].
  by rewrite (validate_well_formed _ (Hvalid eq_refl)).
Qed.

(** X25.  An import that is served: the stores of the users and the skills
    are sound and have no unique index, the generators have room for the
    file, the engine raises no fault, and validation is off or passes.  Then
    the import succeeds without errors.  An entry is skipped exactly when
    duplicates are to be skipped and a record that was in the store before
    the import has the same email (for a skill: the same name and category);
    every other entry is created, so entries that repeat each other within
    the file are all imported.  Each store has grown by the number of
    entries reported as imported. *)
Theorem import_counts_what_it_stores
    (io : nat → faults) (file : dataExport.DatabaseExport)
    (options : dataImport.ImportOptions) (_db : IDBDatabase)
    (users_ skills_ : IDBObjectStore) :
  sound _db →
  transaction _db (Stores Users) = Some users_ →
  transaction _db (Stores Skills) = Some skills_ →
  no_unique_index users_ → no_unique_index skills_ →
  room users_ (length (dataExport.users (dataExport.data file))) →
  room skills_ (length (dataExport.skills (dataExport.data file))) →
  (∀ k n, io k n = None) →
  (dataImport.validateData options = true → well_formed (dataImport.to_json file)) →
  let skip := dataImport.skipDuplicates options in
  let known_user := dataImport.duplicate_user (Some (rows users_)) in
  let known_skill := dataImport.duplicate_skill (Some (rows skills_)) in
  ∃ answer users' skills',
    (import_into io file options _db).1 = Resolved answer ∧
    dataImport.ImportResult.success answer = true ∧
    dataImport.ImportResult.errors answer = [] ∧
    dataImport.users (dataImport.ImportResult.imported answer)
    = length (created_of known_user skip (dataExport.users (dataExport.data file))) ∧
    dataImport.users (dataImport.ImportResult.skipped answer)
    = length (skipped_of known_user skip (dataExport.users (dataExport.data file))) ∧
    dataImport.skills (dataImport.ImportResult.imported answer)
    = length (created_of known_skill skip (dataExport.skills (dataExport.data file))) ∧
    dataImport.skills (dataImport.ImportResult.skipped answer)
    = length (skipped_of known_skill skip (dataExport.skills (dataExport.data file))) ∧
    transaction (Async.db (import_into io file options _db).2) (Stores Users)
    = Some users' ∧
    transaction (Async.db (import_into io file options _db).2) (Stores Skills)
    = Some skills' ∧
    size (records users')
    = (size (records users_)
       + dataImport.users (dataImport.ImportResult.imported answer))%nat ∧
    size (records skills')
    = (size (records skills_)
       + dataImport.skills (dataImport.ImportResult.imported answer))%nat.
Proof.
  intros Hdb Hu Hs Hixu Hixs Hroomu Hrooms Hio Hvalid skip known_user known_skill.
  set (file_users := dataExport.users (dataExport.data file)) in *.
  set (file_skills := dataExport.skills (dataExport.data file)) in *.
  set (st2 := {| Async.db := _db; Async.calls := 2;
                 Async.local := dataImport.initial |}).
  destruct (import_loop_served io Users known_user skip dataImport.count_user
              file_users st2 users_)
    as (st3 & users' & Hrun3 & Hdb3 & Hu3 & _ & _ & Hothers3 & Hsize3 & Himp3 &
        Hskip3 & Herr3); try done.
  { pose proof (created_of_length known_user skip file_users).
    unfold room in *. lia. }
  assert (transaction (Async.db st3) (Stores Skills) = Some skills_) as Hs3
    by (by rewrite Hothers3).
  destruct (import_loop_served io Skills known_skill skip dataImport.count_skill
              file_skills st3 skills_)
    as (st4 & skills' & Hrun4 & Hdb4 & Hs4 & _ & _ & Hothers4 & Hsize4 & Himp4 &
        Hskip4 & Herr4); try done.
  { pose proof (created_of_length known_skill skip file_skills).
    unfold room in *. lia. }
  assert (dataImport.import_all file options (useDatabase.getAll io)
            (useDatabase.create io) (Async.start _db dataImport.initial)
          = (Resolved tt,
             {| Async.db := Async.db st4; Async.calls := Async.calls st4;
                Async.local :=
                  {| dataImport.ImportResult.success := true;
                     dataImport.ImportResult.message :=
                       "Successfully imported " +:+
                       pretty (dataImport.users
                                 (dataImport.ImportResult.imported (Async.local st4)))
                       +:+ " users and " +:+
                       pretty (dataImport.skills
                                 (dataImport.ImportResult.imported (Async.local st4)))
                       +:+ " skills";
                     dataImport.ImportResult.errors :=
                       dataImport.ImportResult.errors (Async.local st4);
                     dataImport.ImportResult.imported :=
                       dataImport.ImportResult.imported (Async.local st4);
                     dataImport.ImportResult.skipped :=
                       dataImport.ImportResult.skipped (Async.local st4) |} |}))
    as Hall.
  { unfold dataImport.import_all, mbind, Async.async_bind, Async.bind, Async.all2.
    rewrite getAll_read by (intros k; apply Hio).
    rewrite getAll_read by (intros k; apply Hio).
    unfold read_served, Async.start. cbn [Async.db Async.calls Async.local].
    rewrite Hu, Hs. cbn [fmap option_fmap option_map].
    rewrite import_user_item, import_skill_item.
    fold file_users file_skills skip known_user known_skill st2.
    by rewrite Hrun3, Hrun4. }
  assert ((import_attempt io file options (Async.start _db dataImport.initial))
          = (Resolved tt,
             (dataImport.import_all file options (useDatabase.getAll io)
                (useDatabase.create io) (Async.start _db dataImport.initial)).2))
    as Hattempt.
  { rewrite import_attempt_all by done. unfold Async.try_catch. by rewrite Hall. }
  rewrite import_into_attempt by (by rewrite Hattempt).
  rewrite Hattempt, Hall. simpl.
  destruct (iter_count_user (length (created_of known_user skip file_users))
              (dataImport.ImportResult.imported (Async.local st2))) as [Hiu Hiu'].
  destruct (iter_count_user (length (skipped_of known_user skip file_users))
              (dataImport.ImportResult.skipped (Async.local st2))) as [Hsu Hsu'].
  destruct (iter_count_skill (length (created_of known_skill skip file_skills))
              (dataImport.ImportResult.imported (Async.local st3))) as [His His'].
  destruct (iter_count_skill (length (skipped_of known_skill skip file_skills))
              (dataImport.ImportResult.skipped (Async.local st3))) as [Hss Hss'].
  assert (transaction (Async.db st4) (Stores Users) = Some users') as Hu4
    by (by rewrite Hothers4).
  eexists _, users', skills'. split; [done|]. simpl.
  rewrite Himp4, Hskip4, Herr4, Herr3, His, His', Hss, Hss', Himp3, Hskip3,
    Hiu, Hiu', Hsu, Hsu'.
  simpl. split_and!; try done; lia.
Qed.

Lemma import_counts_what_it_stores_witness :
  ∃ answer,
    (import_into (fun _ => no_faults)
       {| dataExport.version := "1.0.0"; dataExport.timestamp := "";
          dataExport.data :=
            {| dataExport.users :=
                 [ {[ "name" := JStr "Ann"; "email" := JStr "a@example.com" ]};
                   {[ "name" := JStr "Anna"; "email" := JStr "a@example.com" ]} ];
               dataExport.skills := []; dataExport.userSkills := [] |};
          dataExport.metadata :=
            {| dataExport.totalRecords := 2; dataExport.exportedBy := "" |} |}
       {| dataImport.skipDuplicates := true; dataImport.createBackup := false;
          dataImport.validateData := false |} ready).1 = Resolved answer ∧
    dataImport.users (dataImport.ImportResult.imported answer) = 2%nat.
Proof.
  destruct (import_counts_what_it_stores (fun _ => no_faults)
              {| dataExport.version := "1.0.0"; dataExport.timestamp := "";
                 dataExport.data :=
                   {| dataExport.users :=
                        [ {[ "name" := JStr "Ann"; "email" := JStr "a@example.com" ]};
                          {[ "name" := JStr "Anna"; "email" := JStr "a@example.com" ]} ];
                      dataExport.skills := []; dataExport.userSkills := [] |};
                 dataExport.metadata :=
                   {| dataExport.totalRecords := 2; dataExport.exportedBy := "" |} |}
              {| dataImport.skipDuplicates := true; dataImport.createBackup := false;
                 dataImport.validateData := false |} ready
              (createObjectStore (Keys Users) true)
              (createObjectStore (Keys Skills) true))
    as (answer & _ & _ & Hres & _ & _ & Hcount & _).
  - apply sound_ready.
  - reflexivity.
  - reflexivity.
  - constructor.
  - constructor.
  - vm_compute. discriminate.
  - vm_compute. discriminate.
  - reflexivity.
  - discriminate.
  - exists answer. split; [exact Hres|]. rewrite Hcount. vm_compute. reflexivity.
Defined.

(** ** Importing an export again *)

Lemma export_served_sections (io : nat → faults) timestamp _db file :
  (dataExport.exportAllData (L := unit) (useDatabase.getAll io) timestamp
     (Async.start _db tt)).1 = Resolved file →
  (∀ k n, io k n = None) →
  ∀ s, exported s (dataExport.data file) = default [] (read_served _db s).
Proof.
  intros Hfile Hio.
  unfold dataExport.exportAllData, mbind, Async.async_bind, Async.bind, Async.all3
    in Hfile.
  rewrite !getAll_read in Hfile by (intros k; apply Hio).
  simpl in Hfile. injection Hfile as <-. by intros [].
Qed.

Lemma duplicate_user_self existing (user : record) :
  user ∈ existing → dataImport.duplicate_user (Some existing) user = true.
Proof.
  intros Hin. simpl. apply existsb_exists. exists user.
  split; [by apply list_elem_of_In|]. by apply bool_decide_eq_true_2.
Qed.

Lemma duplicate_skill_self existing (skill : record) :
  skill ∈ existing → dataImport.duplicate_skill (Some existing) skill = true.
Proof.
  intros Hin. simpl. apply existsb_exists. exists skill.
  split; [by apply list_elem_of_In|].
  apply andb_true_iff. split; by apply bool_decide_eq_true_2.
Qed.

Lemma import_loop_skipped create s duplicate count items :
  ∀ st : Async.state dataImport.ImportResult.t,
    Forall (fun item => duplicate item = true) items →
    ∃ st',
      Async.for_of items (import_item create s duplicate true count) st
      = (Resolved tt, st') ∧
      Async.db st' = Async.db st ∧ Async.calls st' = Async.calls st ∧
      dataImport.ImportResult.imported (Async.local st')
      = dataImport.ImportResult.imported (Async.local st).
Proof.
  induction items as [|item rest IH]; intros st Hall.
  - by exists st.
  - apply Forall_cons in Hall as [Hitem Hrest]. simpl.
    unfold import_item at 1. rewrite Hitem. simpl.
    unfold mbind, Async.async_bind, Async.bind, Async.modify.
    destruct (IH {| Async.db := Async.db st; Async.calls := Async.calls st;
                    Async.local := dataImport.with_skipped count (Async.local st) |}
                Hrest) as (st' & Hrun & Hdb & Hcalls & Himp).
    exists st'. by rewrite Hrun.
Qed.

(** X26.  Importing an export of the database into that same database, with
    duplicates skipped, changes nothing: when the engine serves the reads of
    the export and of the import, no record is created, whatever the
    database holds and whether or not the file is validated first. *)
Theorem reimport_of_export_changes_nothing
    (io_export io : nat → faults) (timestamp : string)
    (file : dataExport.DatabaseExport) (options : dataImport.ImportOptions)
    (_db : IDBDatabase) :
  (dataExport.exportAllData (L := unit) (useDatabase.getAll io_export) timestamp
     (Async.start _db tt)).1 = Resolved file →
  (∀ k n, io_export k n = None) →
  (∀ n, io 0%nat n = None) → (∀ n, io 1%nat n = None) →
  dataImport.skipDuplicates options = true →
  Async.db (import_into io file options _db).2 = _db ∧
  ∃ answer,
    (import_into io file options _db).1 = Resolved answer ∧
    dataImport.ImportResult.imported answer
    = {| dataImport.users := 0; dataImport.skills := 0; dataImport.userSkills := 0 |}.
Proof.
  intros Hfile Hexport Hio0 Hio1 Hskip.
  pose proof (export_served_sections io_export timestamp _db file Hfile Hexport)
    as Hsections.
  assert (∃ st',
            dataImport.import_all file options (useDatabase.getAll io)
              (useDatabase.create io) (Async.start _db dataImport.initial)
            = (Resolved tt, st') ∧
            Async.db st' = _db ∧
            dataImport.ImportResult.imported (Async.local st')
            = dataImport.ImportResult.imported dataImport.initial) as Hall.
  { unfold dataImport.import_all, mbind, Async.async_bind, Async.bind, Async.all2.
    rewrite getAll_read by done. rewrite getAll_read by done.
    unfold Async.start. cbn [Async.db Async.calls Async.local].
    rewrite import_user_item, import_skill_item, Hskip.
    pose proof (Hsections Users) as Husers. pose proof (Hsections Skills) as Hskills.
    simpl in Husers, Hskills. rewrite Husers, Hskills.
    set (st2 := {| Async.db := _db; Async.calls := 2;
                   Async.local := dataImport.initial |}).
    destruct (import_loop_skipped (useDatabase.create io) Users
                (dataImport.duplicate_user (read_served _db Users))
                dataImport.count_user (default [] (read_served _db Users)) st2)
      as (st3 & -> & Hdb3 & _ & Himp3).
    { destruct (read_served _db Users) as [existing|]; simpl; [|constructor].
      apply Forall_forall. intros user Hin. by apply duplicate_user_self. }
    destruct (import_loop_skipped (useDatabase.create io) Skills
                (dataImport.duplicate_skill (read_served _db Skills))
                dataImport.count_skill (default [] (read_served _db Skills)) st3)
      as (st4 & -> & Hdb4 & _ & Himp4).
    { destruct (read_served _db Skills) as [existing|]; simpl; [|constructor].
      apply Forall_forall. intros skill Hin. by apply duplicate_skill_self. }
    eexists. split; [done|]. simpl. split; [by rewrite Hdb4, Hdb3|].
    by rewrite Himp4, Himp3. }
  destruct Hall as (st' & Hall & Hdb' & Himp').
  assert (∃ st'',
            import_attempt io file options (Async.start _db dataImport.initial)
            = (Resolved tt, st'') ∧
            Async.db st'' = _db ∧
            dataImport.ImportResult.imported (Async.local st'')
            = dataImport.ImportResult.imported dataImport.initial) as Hattempt.
  { unfold import_attempt, Async.try_catch.
    destruct (dataImport.validateData options).
    - destruct (dataImport.validateImportData (dataImport.to_json file))
        as [validation|e].
      + destruct (dataImport.Validation.isValid validation); simpl.
        * rewrite Hall. by exists st'.
        * by eexists.
      + simpl. by eexists.
    - rewrite Hall. by exists st'. }
  destruct Hattempt as (st'' & Hattempt & Hdb'' & Himp'').
  rewrite import_into_attempt by (by rewrite Hattempt).
  rewrite Hattempt. simpl. split; [done|]. by eexists.
Qed.

Lemma reimport_of_export_changes_nothing_witness :
  Async.db
    (import_into (fun _ => no_faults)
       {| dataExport.version := "1.0.0"; dataExport.timestamp := "";
          dataExport.data :=
            {| dataExport.users := [abc]; dataExport.skills := [];
               dataExport.userSkills := [] |};
          dataExport.metadata :=
            {| dataExport.totalRecords := 1;
               dataExport.exportedBy := "IndexedDB Demo App" |} |}
       {| dataImport.skipDuplicates := true; dataImport.createBackup := false;
          dataImport.validateData := false |} abc_db).2 = abc_db.
Proof.
  refine (proj1 (reimport_of_export_changes_nothing (fun _ => no_faults)
                   (fun _ => no_faults) "" _ _ abc_db _ _ _ _ _)).
  - vm_compute. reflexivity.
  - reflexivity.
  - reflexivity.
  - reflexivity.
  - reflexivity.
Defined.

(** ** The Home page *)

Lemma bind_resolved {L A B : Type} (m : Async.async L A) (f : A → Async.async L B)
    (s s' : Async.state L) (a : A) :
  m s = (Resolved a, s') → (m ≫= f) s = f a s'.
Proof. intros Hm. unfold mbind, Async.async_bind, Async.bind. by rewrite Hm. Qed.

Lemma try_resolved {L A : Type} (m : Async.async L A)
    (handler : DOMException → Async.async L A) (cleanup : L → L)
    (s s' : Async.state L) (a : A) :
  m s = (Resolved a, s') →
  Async.try_finally (Async.try_catch m handler) cleanup s
  = (Resolved a, {| Async.db := Async.db s'; Async.calls := Async.calls s';
                    Async.local := cleanup (Async.local s') |}).
Proof. intros Hm. unfold Async.try_finally, Async.try_catch. by rewrite Hm. Qed.

Lemma getAll_answer {L : Type} (io : nat → faults) (s : StoresTypes)
    (st : Async.state L) :
  useDatabase.getAll io s st
  = (Resolved (read_answer (io (Async.calls st)) s (Async.db st)),
     {| Async.db := Async.db st; Async.calls := S (Async.calls st);
        Async.local := Async.local st |}).
Proof.
  unfold useDatabase.getAll, Async.await, read_answer.
  destruct (context_getAll_resolves (io (Async.calls st)) s (Async.db st))
    as [-> [v ->]].
  done.
Qed.

Lemma only_added_trans a b c : only_added a b → only_added b c → only_added a c.
Proof.
  intros Hab Hbc s store Hst.
  destruct (Hab s store Hst) as (store1 & Hst1 & Hsub1 & Hsame1).
  destruct (Hbc s store1 Hst1) as (store2 & Hst2 & Hsub2 & Hsame2).
  exists store2. split; [done|]. split; [by etrans|].
  intros Hs. by rewrite Hsame2, Hsame1.
Qed.

Lemma create_loop {L : Type} (io : nat → faults) (s : StoresTypes) (items : list record) :
  s ≠ UserSkills →
  ∀ st : Async.state L,
    ∃ st',
      Async.for_of items (fun item => _ ← useDatabase.create io s item; mret tt) st
      = (Resolved tt, st') ∧
      Async.calls st' = (Async.calls st + length items)%nat ∧
      Async.local st' = Async.local st ∧
      only_added (Async.db st) (Async.db st').
Proof.
  intros Hs. induction items as [|item rest IH]; intros st.
  - exists st. simpl. rewrite Nat.add_0_r. split_and!; try done.
    apply only_added_refl.
  - simpl. unfold mbind at 1 2. unfold Async.async_bind, Async.bind.
    unfold useDatabase.create at 1. unfold Async.await.
    destruct (proj1 (context_create_grows (io (Async.calls st)) s item (Async.db st)))
      as [v ->].
    simpl.
    destruct (IH {| Async.db := database
                                  (DatabaseContext.create (io (Async.calls st)) s item
                                     (Async.db st));
                    Async.calls := S (Async.calls st);
                    Async.local := Async.local st |})
      as (st' & Hrun & Hcalls & Hlocal & Hadded).
    exists st'. split; [exact Hrun|]. simpl in *. split; [lia|]. split; [done|].
    eapply only_added_trans; [|exact Hadded].
    apply only_added_create; [done|apply only_added_refl].
Qed.

(** X27.  [populateSampleData] takes the answers of its two reads at face
    value.  When neither read gives back a non-empty list, because the
    stores are empty or because the reads failed, it hands every sample to
    [create], users first, and then reports success, whatever the creates
    answered; all it can have done to the database is add records to the
    users and the skills. *)
Theorem populateSampleData_trusts_its_reads
    (sampleUsers sampleSkills : list record) (io : nat → faults)
    (_db : IDBDatabase) (shown : Home.home_state) :
  Home.non_empty (read_answer (io 0%nat) Users _db)
  || Home.non_empty (read_answer (io 1%nat) Skills _db) = false →
  let ended :=
    Home.populateSampleData sampleUsers sampleSkills true io
      (Async.start _db shown) in
  ended.1 = Resolved tt ∧
  Async.local ended.2
  = {| Home.isPopulating := false;
       Home.populateStatus := Some "Sample data populated successfully! 🎉" |} ∧
  Async.calls ended.2 = (2 + length sampleUsers + length sampleSkills)%nat ∧
  only_added _db (Async.db ended.2).
Proof.
  intros Hempty ended. subst ended.
  unfold Home.populateSampleData. cbn [negb].
  erewrite bind_resolved by reflexivity. erewrite bind_resolved by reflexivity.
  cbn [Async.start Async.db Async.calls Async.local].
  set (st0 := {| Async.db := _db; Async.calls := 0;
                 Async.local :=
                   Home.setPopulateStatus "Checking existing data..."
                     (Home.setIsPopulating true shown) |}).
  destruct (create_loop io Users sampleUsers ltac:(done)
              {| Async.db := _db; Async.calls := 2;
                 Async.local :=
                   Home.setPopulateStatus
                     ("Adding " +:+ pretty (length sampleUsers) +:+ " sample users...")
                     (Async.local st0) |})
    as (st3 & Hrun3 & Hcalls3 & Hlocal3 & Hadded3).
  destruct (create_loop io Skills sampleSkills ltac:(done)
              {| Async.db := Async.db st3; Async.calls := Async.calls st3;
                 Async.local :=
                   Home.setPopulateStatus
                     ("Adding " +:+ pretty (length sampleSkills) +:+ " sample skills...")
                     (Async.local st3) |})
    as (st4 & Hrun4 & Hcalls4 & Hlocal4 & Hadded4).
  erewrite try_resolved.
  2:{ erewrite bind_resolved by apply getAll_answer.
      erewrite bind_resolved by apply getAll_answer.
      cbn [Async.db Async.calls Async.local]. subst st0.
      cbn [Async.db Async.calls Async.local]. rewrite Hempty.
      erewrite bind_resolved by reflexivity.
      erewrite bind_resolved by exact Hrun3.
      erewrite bind_resolved by reflexivity.
      erewrite bind_resolved by exact Hrun4.
      reflexivity. }
  simpl in *. split; [done|]. split; [done|]. split; [lia|].
  by eapply only_added_trans.
Qed.

Lemma populateSampleData_trusts_its_reads_witness :
  Async.calls
    (Home.populateSampleData [ {[ "name" := JStr "Alice Johnson" ]} ] [] true reads_fail
       (Async.start abc_db {| Home.isPopulating := false;
                              Home.populateStatus := None |})).2 = 3%nat.
Proof.
  refine (proj1 (proj2 (proj2 (populateSampleData_trusts_its_reads
            [ {[ "name" := JStr "Alice Johnson" ]} ] [] reads_fail abc_db
            {| Home.isPopulating := false; Home.populateStatus := None |} _)))).
  vm_compute. reflexivity.
Defined.

(** X28.  When the two reads are served and the users or the skills hold a
    record, [populateSampleData] issues no further call: the database is
    left as it is and the page says that sample data already exist. *)
Theorem populateSampleData_skips_when_data_exist
    (sampleUsers sampleSkills : list record) (io : nat → faults)
    (_db : IDBDatabase) (shown : Home.home_state)
    (s : StoresTypes) (store : IDBObjectStore) :
  (∀ n, io 0%nat n = None) → (∀ n, io 1%nat n = None) →
  s ≠ UserSkills →
  transaction _db (Stores s) = Some store →
  records store ≠ ∅ →
  let ended :=
    Home.populateSampleData sampleUsers sampleSkills true io
      (Async.start _db shown) in
  ended.1 = Resolved tt ∧
  Async.db ended.2 = _db ∧ Async.calls ended.2 = 2%nat ∧
  Async.local ended.2
  = {| Home.isPopulating := false;
       Home.populateStatus :=
         Some "Sample data already exists. Clear data first if you want to repopulate." |}.
Proof.
  intros Hio0 Hio1 Hs Hst Hrecords ended. subst ended.
  assert (Home.non_empty (read_served _db s) = true) as Hfull.
  { unfold read_served. rewrite Hst. simpl. rewrite rows_length.
    apply Nat.ltb_lt. apply map_size_non_empty_iff in Hrecords. lia. }
  assert (Home.non_empty (read_served _db Users)
          || Home.non_empty (read_served _db Skills) = true) as Hfound.
  { destruct s; [by rewrite Hfull|by rewrite Hfull, orb_true_r|done]. }
  unfold Home.populateSampleData. cbn [negb].
  erewrite bind_resolved by reflexivity. erewrite bind_resolved by reflexivity.
  cbn [Async.start Async.db Async.calls Async.local].
  erewrite try_resolved.
  2:{ erewrite bind_resolved by (by apply getAll_read).
      erewrite bind_resolved by (by apply getAll_read).
      cbn [Async.db Async.calls Async.local]. rewrite Hfound.
      erewrite bind_resolved by reflexivity. reflexivity. }
  done.
Qed.

Lemma populateSampleData_skips_when_data_exist_witness :
  Async.db
    (Home.populateSampleData [ {[ "name" := JStr "Alice Johnson" ]} ] [] true
       (fun _ => no_faults)
       (Async.start abc_db {| Home.isPopulating := false;
                              Home.populateStatus := None |})).2 = abc_db.
Proof.
  refine (proj1 (proj2 (populateSampleData_skips_when_data_exist
            [ {[ "name" := JStr "Alice Johnson" ]} ] [] (fun _ => no_faults) abc_db
            {| Home.isPopulating := false; Home.populateStatus := None |}
            Users abc_store _ _ _ _ _))).
  - reflexivity.
  - reflexivity.
  - discriminate.
  - reflexivity.
  - intros Hempty. apply (f_equal (fun m => m !! KNum 1)) in Hempty.
    vm_compute in Hempty. discriminate.
Defined.

(** X29.  [clearAllData] empties the users and the skills and nothing else:
    when the engine serves the two requests, both stores are left without
    records, their key generators where they were, and the page reports
    success, while the assignments of skills to users stay in their store,
    now pointing at records that are gone. *)
Theorem clearAllData_leaves_the_assignments
    (io : nat → faults) (_db : IDBDatabase) (shown : Home.home_state)
    (users_ skills_ : IDBObjectStore) :
  transaction _db (Stores Users) = Some users_ →
  transaction _db (Stores Skills) = Some skills_ →
  io 0%nat 0%nat = None → io 1%nat 0%nat = None →
  let ended := Home.clearAllData true io (Async.start _db shown) in
  ended.1 = Resolved tt ∧
  Async.local ended.2
  = {| Home.isPopulating := false;
       Home.populateStatus := Some "All data cleared successfully! 🗑️" |} ∧
  transaction (Async.db ended.2) (Stores Users)
  = Some (with_records users_ (currentNumber users_) ∅) ∧
  transaction (Async.db ended.2) (Stores Skills)
  = Some (with_records skills_ (currentNumber skills_) ∅) ∧
  transaction (Async.db ended.2) (Stores UserSkills)
  = transaction _db (Stores UserSkills).
Proof.
  intros Hu Hs Hio0 Hio1 ended. subst ended.
  destruct (context_clearStore_served (io 0%nat) Users _db users_ Hu Hio0)
    as [Hres0 Hdb0].
  assert (transaction (commit _db (Stores Users)
                         (with_records users_ (currentNumber users_) ∅))
            (Stores Skills) = Some skills_) as Hs1
    by (by rewrite transaction_commit_ne).
  destruct (context_clearStore_served (io 1%nat) Skills _ skills_ Hs1 Hio1)
    as [Hres1 Hdb1].
  unfold Home.clearAllData. cbn [negb].
  erewrite bind_resolved by reflexivity. erewrite bind_resolved by reflexivity.
  cbn [Async.start Async.db Async.calls Async.local].
  erewrite try_resolved.
  2:{ erewrite bind_resolved.
      2:{ unfold useDatabase.clearStore, Async.await.
          cbn [Async.db Async.calls Async.local]. by rewrite Hres0, Hdb0. }
      erewrite bind_resolved.
      2:{ unfold useDatabase.clearStore, Async.await.
          cbn [Async.db Async.calls Async.local]. by rewrite Hres1, Hdb1. }
      reflexivity. }
  cbn [Async.db Async.calls Async.local fst snd].
  split; [done|]. split; [done|].
  split; [by rewrite transaction_commit_ne, transaction_commit|].
  split; [by rewrite transaction_commit|].
  by rewrite !transaction_commit_ne.
Qed.

Lemma clearAllData_leaves_the_assignments_witness :
  transaction
    (Async.db (Home.clearAllData true (fun _ => no_faults)
                 (Async.start linked {| Home.isPopulating := false;
                                        Home.populateStatus := None |})).2)
    (Stores UserSkills)
  = transaction linked (Stores UserSkills).
Proof.
  refine (proj2 (proj2 (proj2 (proj2 (clearAllData_leaves_the_assignments
            (fun _ => no_faults) linked
            {| Home.isPopulating := false; Home.populateStatus := None |}
            (createObjectStore (Keys Users) true)
            (createObjectStore (Keys Skills) true) _ _ _ _))))); reflexivity.
Defined.
